(** * Dispatcher bot: matching and dispatch engine of [src/index.ts]

    A shallow embedding of the handlers of [src/index.ts]
    ([handleDriverAvailability], [handleRequest], [processRequests],
    [handleAccept]) and of the helper [getDistance], followed by the
    properties of the specification that concern them; then of
    [refreshDriverLists], of the message loop of [checkMessages] and of the
    timers of [main], with the properties of the bot as a whole.

    Conventions of the embedding.
    - A JavaScript [number] that holds a coordinate or a distance is an IEEE
      754 binary64 value: Rocq's primitive [float].  Timestamps
      ([Date.now()], integers far below 2^53) are in [Z]; the candidate
      cursor, which only counts up from 0, is a [nat].
    - [Math.sin], [Math.cos] and [Math.atan2] are implementation-approximated
      in ECMAScript: they are the operations of a class [MathObject], and
      every theorem holds for every instance.  [Math.sqrt] is the correctly
      rounded square root.
    - A [Map] is an association list in insertion order, a [Set] of
      identities a [gset string].
    - In the first part every handler is a function on the state: it runs
      to completion before the next one starts, as the specification assumes.
      The code does not wait: [setInterval] starts the next handler while
      one is at an [await].  The module [Machine] runs the handlers piece
      by piece, from one [await] to the next, in any interleaving, on a heap
      of request objects; the handlers of the first part are its runs in
      which each handler is through before the next starts.
    - [sendDM] appends the message to the transport log when it is called,
      whether or not the transport then delivers it.
    - What the network answers to [refreshDriverLists] and what
      [checkMessages] reads are inputs: a run of the bot is the list of the
      events its three timers bring, each with the clock value [Date.now()]
      gives while it is handled. *)

From Stdlib Require Import ZArith List Bool String Floats Sorting.Sorted
  Sorting.Permutation Lia.
From stdpp Require Import gmap strings.
Import ListNotations.

Local Open Scope Z_scope.
Local Open Scope string_scope.

(** ** JavaScript numbers *)

Module Number.

  (** ToBoolean on a number: [+0], [-0] and [NaN] are falsy. *)
Definition truthy (x : float) : bool :=
    negb (PrimFloat.eqb x 0%float) && negb (PrimFloat.is_nan x).

Definition is_negative (x : float) : bool := PrimFloat.ltb x 0%float.

End Number.

(** The [Math] object: the three functions whose values the engine chooses. *)
Class MathObject := {
  Math_sin : float -> float;
  Math_cos : float -> float;
  Math_atan2 : float -> float -> float
}.

Definition Math_PI : float := 0x1.921fb54442d18p+1%float.
Definition Math_sqrt : float -> float := PrimFloat.sqrt.

(** ** Constants *)

Definition DISPATCH_INTERVAL_MS : Z := 30 * 1000.

(** ** Types *)

Module Location.
Record t := mk { latitude : float; longitude : float }.
End Location.

Inductive WorkerType := DRIVERS | LIVREURS.
Inductive DriverStatus := AVAILABLE | UNAVAILABLE.
Inductive RequestType := RIDE | DELIVERY.
Inductive RequestStatus := PENDING | ASSIGNED.

Definition WorkerType_eqb (a b : WorkerType) : bool :=
  match a, b with
  | DRIVERS, DRIVERS | LIVREURS, LIVREURS => true
  | _, _ => false
  end.

Definition DriverStatus_eqb (a b : DriverStatus) : bool :=
  match a, b with
  | AVAILABLE, AVAILABLE | UNAVAILABLE, UNAVAILABLE => true
  | _, _ => false
  end.

Definition RequestStatus_eqb (a b : RequestStatus) : bool :=
  match a, b with
  | PENDING, PENDING | ASSIGNED, ASSIGNED => true
  | _, _ => false
  end.

Module DriverState.
Record t := mk {
    status : DriverStatus;
    location : option Location.t;
    lastSeen : Z;
    type : WorkerType;
    did : string
  }.
End DriverState.

Module Candidate.
Record t := mk { did : string; distance : float }.
End Candidate.

(** The parsed JSON body of an inbound message: the fields the handlers
    read.  A field the sender left out is [None]. *)
Module Payload.
Record t := mk {
    type : string;
    orderId : string;
    pickup : option Location.t;
    deliveryLocation : option Location.t;
    status : DriverStatus;
    location : option Location.t
  }.

  (** [{ ...payload, type: ty }] *)
Definition with_type (p : t) (ty : string) : t :=
    mk ty (orderId p) (pickup p) (deliveryLocation p) (status p) (location p).
End Payload.

Module ActiveRequest.
Record t := mk {
    id : string;
    type : RequestType;
    status : RequestStatus;
    customerDid : string;
    candidates : list Candidate.t;
    nextCandidateIndex : nat;
    notifiedDrivers : list string;
    data : Payload.t;
    timestamp : Z;
    lastNotificationTime : Z
  }.

Definition set_status (s : RequestStatus) (r : t) : t :=
    mk (id r) (type r) s (customerDid r) (candidates r) (nextCandidateIndex r)
       (notifiedDrivers r) (data r) (timestamp r) (lastNotificationTime r).

Definition set_nextCandidateIndex (n : nat) (r : t) : t :=
    mk (id r) (type r) (status r) (customerDid r) (candidates r) n
       (notifiedDrivers r) (data r) (timestamp r) (lastNotificationTime r).

Definition set_notifiedDrivers (l : list string) (r : t) : t :=
    mk (id r) (type r) (status r) (customerDid r) (candidates r)
       (nextCandidateIndex r) l (data r) (timestamp r) (lastNotificationTime r).

Definition set_lastNotificationTime (z : Z) (r : t) : t :=
    mk (id r) (type r) (status r) (customerDid r) (candidates r)
       (nextCandidateIndex r) (notifiedDrivers r) (data r) (timestamp r) z.
End ActiveRequest.

(** Outbound messages, by their [type] tag. *)
Inductive Message :=
| NO_DRIVERS_AVAILABLE (orderId : string)
| OFFER (requestMsg : Payload.t)
| ORDER_ASSIGNED (orderId : string) (driver_did : string)
    (driver_location : option Location.t)
| ORDER_TAKEN_BY_OTHER (orderId : string)
| ORDER_CONFIRMED (orderId : string) (customerDid : string) (data : Payload.t)
| ORDER_ALREADY_TAKEN (orderId : string).

(** ** [Map<string, V>]: entries in insertion order *)

Module JSMap.
Section Ops.
Context {V : Type}.

Definition t := list (string * V).

Fixpoint get (m : list (string * V)) (k : string) : option V :=
      match m with
      | [] => None
      | (k', v) :: m' => if String.eqb k' k then Some v else get m' k
      end.

    (** [set] overwrites the value of a present key in place and appends a
        new key at the end. *)
Fixpoint set (m : list (string * V)) (k : string) (v : V) : list (string * V) :=
      match m with
      | [] => [(k, v)]
      | (k', v') :: m' =>
          if String.eqb k' k then (k', v) :: m' else (k', v') :: set m' k v
      end.

Definition values (m : list (string * V)) : list V := List.map snd m.
Definition keys (m : list (string * V)) : list string := List.map fst m.
End Ops.
Arguments t : clear implicits.
End JSMap.

(** ** State *)

Module State.
Record t := mk {
    drivers : JSMap.t DriverState.t;
    activeRequests : JSMap.t ActiveRequest.t;
    validDrivers : gset string;
    validLivreurs : gset string;
    sent : list (string * Message)
  }.

Definition set_drivers (d : JSMap.t DriverState.t) (st : t) : t :=
    mk d (activeRequests st) (validDrivers st) (validLivreurs st) (sent st).

Definition set_activeRequests (a : JSMap.t ActiveRequest.t) (st : t) : t :=
    mk (drivers st) a (validDrivers st) (validLivreurs st) (sent st).

Definition set_sent (s : list (string * Message)) (st : t) : t :=
    mk (drivers st) (activeRequests st) (validDrivers st) (validLivreurs st) s.
End State.

(** ** Helpers *)

Section Helpers.
Context {M : MathObject}.
Local Open Scope float_scope.

Definition getDistance (lat1 lon1 lat2 lon2 : float) : float :=
    let R := 6371e3 in
    let phi1 := lat1 * Math_PI / 180 in
    let phi2 := lat2 * Math_PI / 180 in
    let dphi := (lat2 - lat1) * Math_PI / 180 in
    let dlambda := (lon2 - lon1) * Math_PI / 180 in
    let a := Math_sin (dphi / 2) * Math_sin (dphi / 2) +
             Math_cos phi1 * Math_cos phi2 *
             Math_sin (dlambda / 2) * Math_sin (dlambda / 2) in
    let c := 2 * Math_atan2 (Math_sqrt a) (Math_sqrt (1 - a)) in
    R * c.

End Helpers.

(** The angle [getDistance] hands to the sine: half the difference of two
    coordinates, in radians. *)
Definition half_difference (x y : float) : float :=
  ((y - x) * Math_PI / 180 / 2)%float.

(** [sendDM]: one message handed to the transport. *)
Definition sendDM (did : string) (message : Message) (st : State.t) : State.t :=
  State.set_sent (State.sent st ++ [(did, message)])%list st.

(** ** [Array.prototype.sort]

    The sort is stable, and [comparefn x y < 0] puts [x] before [y]; a [NaN]
    result counts as [+0].  The model is the stable insertion sort, which
    takes the elements from left to right and places each one before the
    first element it compares smaller than.  With a consistent comparator
    every stable sort gives this order.  When the comparator is not
    consistent, as [a.distance - b.distance] is once a distance is NaN, the
    standard leaves the order to the engine, and the engine's order need not
    be the one of the model: what is proved of the order of the candidates
    is proved under [no_NaN]. *)

Section ArraySort.
Context {A : Type} (comparefn : A -> A -> float).

Fixpoint sort_insert (x : A) (l : list A) : list A :=
  match l with
  | [] => [x]
  | y :: l' =>
      if Number.is_negative (comparefn x y) then x :: y :: l'
      else y :: sort_insert x l'
  end.

Definition Array_sort (l : list A) : list A :=
  fold_left (fun acc x => sort_insert x acc) l [].

End ArraySort.

(** ** Handlers *)

(** [Set.prototype.has] *)
Definition Set_has (s : gset string) (x : string) : bool := bool_decide (x ∈ s).

(** [a || b] on two optional numbers ([undefined] is falsy). *)
Definition or_number (a b : option float) : option float :=
  match a with
  | Some x => if Number.truthy x then Some x else b
  | None => b
  end.

Definition handleDriverAvailability (now : Z) (senderDid : string)
    (payload : Payload.t) (st : State.t) : State.t :=
  let type :=
    if Set_has (State.validDrivers st) senderDid then Some DRIVERS
    else if Set_has (State.validLivreurs st) senderDid then Some LIVREURS
    else None in
  match type with
  | None => st
  | Some type =>
      State.set_drivers
        (JSMap.set (State.drivers st) senderDid
           (DriverState.mk (Payload.status payload) (Payload.location payload)
              now type senderDid))
        st
  end.

Definition isDelivery (payload : Payload.t) : bool :=
  String.eqb (Payload.type payload) "DELIVERY_REQUEST".

Definition reqType (payload : Payload.t) : WorkerType :=
  if isDelivery payload then LIVREURS else DRIVERS.

(** The origin of a request: [pickup], else the legacy [deliveryLocation]. *)
Definition reqLat (payload : Payload.t) : option float :=
  or_number (option_map Location.latitude (Payload.pickup payload))
            (option_map Location.latitude (Payload.deliveryLocation payload)).

Definition reqLon (payload : Payload.t) : option float :=
  or_number (option_map Location.longitude (Payload.pickup payload))
            (option_map Location.longitude (Payload.deliveryLocation payload)).

Section Matching.
Context {M : MathObject}.

(** The filter of line 162:
    [d.type === reqType && d.status === 'AVAILABLE' && d.location]. *)
Definition eligible (reqType : WorkerType) (d : DriverState.t) : bool :=
  WorkerType_eqb (DriverState.type d) reqType
  && DriverStatus_eqb (DriverState.status d) AVAILABLE
  && match DriverState.location d with Some _ => true | None => false end.

(** The map of lines 163-166.  [d.location!] is present on every element the
    filter lets through; the other branch is never taken. *)
Definition toCandidate (lat lon : float) (d : DriverState.t) : Candidate.t :=
  match DriverState.location d with
  | Some loc =>
      Candidate.mk (DriverState.did d)
        (getDistance lat lon (Location.latitude loc) (Location.longitude loc))
  | None => Candidate.mk (DriverState.did d) PrimFloat.nan
  end.

(** The comparator of line 167: [(a, b) => a.distance - b.distance]. *)
Definition byDistance (a b : Candidate.t) : float :=
  (Candidate.distance a - Candidate.distance b)%float.

(** Lines 161-167: filter, map, sort. *)
Definition computeCandidates (drivers : JSMap.t DriverState.t)
    (reqType : WorkerType) (lat lon : float) : list Candidate.t :=
  Array_sort byDistance
    (List.map (toCandidate lat lon)
       (List.filter (eligible reqType) (JSMap.values drivers))).

(** The request stored at lines 176-187. *)
Definition newRequest (now : Z) (senderDid : string) (payload : Payload.t)
    (candidates : list Candidate.t) : ActiveRequest.t :=
  ActiveRequest.mk (Payload.orderId payload)
    (if isDelivery payload then DELIVERY else RIDE)
    PENDING senderDid candidates 0%nat [] payload now 0.

Definition handleRequest (now : Z) (senderDid : string) (payload : Payload.t)
    (st : State.t) : State.t :=
  let reqId := Payload.orderId payload in
  match reqLat payload, reqLon payload with
  | Some lat, Some lon =>
      if negb (Number.truthy lat) || negb (Number.truthy lon) then st
      else
        let candidates :=
          computeCandidates (State.drivers st) (reqType payload) lat lon in
        match candidates with
        | [] => sendDM senderDid (NO_DRIVERS_AVAILABLE reqId) st
        | _ :: _ =>
            State.set_activeRequests
              (JSMap.set (State.activeRequests st) reqId
                 (newRequest now senderDid payload candidates))
              st
        end
  | _, _ => st
  end.

End Matching.

(** The body of the loop of [processRequests] for one entry: the request as
    the body leaves it, and the messages it sends. *)
Definition processRequest (now : Z) (drivers : JSMap.t DriverState.t)
    (req : ActiveRequest.t) : ActiveRequest.t * list (string * Message) :=
  if negb (RequestStatus_eqb (ActiveRequest.status req) PENDING) then (req, [])
  else if now - ActiveRequest.lastNotificationTime req >=? DISPATCH_INTERVAL_MS then
    if (ActiveRequest.nextCandidateIndex req <? length (ActiveRequest.candidates req))%nat
    then
      match nth_error (ActiveRequest.candidates req)
                      (ActiveRequest.nextCandidateIndex req) with
      | Some candidate =>
          let available :=
            match JSMap.get drivers (Candidate.did candidate) with
            | Some driverState =>
                DriverStatus_eqb (DriverState.status driverState) AVAILABLE
            | None => false
            end in
          if available then
            let requestMsg :=
              Payload.with_type (ActiveRequest.data req)
                (match ActiveRequest.type req with
                 | DELIVERY => "DELIVERY_OFFER"
                 | RIDE => "RIDE_OFFER"
                 end) in
            (ActiveRequest.set_nextCandidateIndex
               (S (ActiveRequest.nextCandidateIndex req))
               (ActiveRequest.set_lastNotificationTime now
                  (ActiveRequest.set_notifiedDrivers
                     (ActiveRequest.notifiedDrivers req ++ [Candidate.did candidate])%list
                     req)),
             [(Candidate.did candidate, OFFER requestMsg)])
          else
            (ActiveRequest.set_nextCandidateIndex
               (S (ActiveRequest.nextCandidateIndex req)) req, [])
      | None => (req, [])
      end
    else (req, [])
  else (req, []).

Fixpoint processEntries (now : Z) (drivers : JSMap.t DriverState.t)
    (entries : JSMap.t ActiveRequest.t)
    : JSMap.t ActiveRequest.t * list (string * Message) :=
  match entries with
  | [] => ([], [])
  | (reqId, req) :: rest =>
      let '(req', out) := processRequest now drivers req in
      let '(rest', outs) := processEntries now drivers rest in
      ((reqId, req') :: rest', (out ++ outs)%list)
  end.

Definition processRequests (now : Z) (st : State.t) : State.t :=
  let '(requests, out) :=
    processEntries now (State.drivers st) (State.activeRequests st) in
  State.set_sent (State.sent st ++ out)%list (State.set_activeRequests requests st).

Definition handleAccept (senderDid : string) (payload : Payload.t)
    (st : State.t) : State.t :=
  let reqId := Payload.orderId payload in
  match JSMap.get (State.activeRequests st) reqId with
  | None => st
  | Some req =>
      if negb (RequestStatus_eqb (ActiveRequest.status req) PENDING) then
        sendDM senderDid (ORDER_ALREADY_TAKEN reqId) st
      else
        let st1 :=
          State.set_activeRequests
            (JSMap.set (State.activeRequests st) reqId
               (ActiveRequest.set_status ASSIGNED req)) st in
        let driverInfo := JSMap.get (State.drivers st1) senderDid in
        let st2 :=
          sendDM (ActiveRequest.customerDid req)
            (ORDER_ASSIGNED reqId senderDid
               (match driverInfo with
                | Some d => DriverState.location d
                | None => None
                end)) st1 in
        let others :=
          List.filter (fun d => negb (String.eqb d senderDid))
            (ActiveRequest.notifiedDrivers req) in
        let st3 :=
          fold_left (fun s otherDid => sendDM otherDid (ORDER_TAKEN_BY_OTHER reqId) s)
            others st2 in
        sendDM senderDid
          (ORDER_CONFIRMED reqId (ActiveRequest.customerDid req)
             (ActiveRequest.data req)) st3
  end.

(** ** A software [Math] for the worked examples

    Polynomial sine and cosine (accurate on the angles [getDistance] forms
    from coordinates in degrees) and an arc tangent by argument halving, with
    the values ECMAScript fixes at [NaN] and the infinities.  The theorems
    hold for every [MathObject]; this one lets the examples run. *)

Module SoftMath.
Local Open Scope float_scope.

Fixpoint horner (coeffs : list float) (z : float) : float :=
  match coeffs with
  | [] => 0
  | c :: cs => c + z * horner cs z
  end.

Definition sin_coeffs : list float :=
  [1; -1/6; 1/120; -1/5040; 1/362880; -1/39916800; 1/6227020800;
   -1/1307674368000; 1/355687428096000; -1/121645100408832000;
   1/51090942171709440000].

Definition cos_coeffs : list float :=
  [1; -1/2; 1/24; -1/720; 1/40320; -1/3628800; 1/479001600;
   -1/87178291200; 1/20922789888000; -1/6402373705728000;
   1/2432902008176640000; -1/1124000727777607680000].

Definition atan_coeffs : list float :=
  [1; -1/3; 1/5; -1/7; 1/9; -1/11; 1/13; -1/15; 1/17].

Definition sin (x : float) : float :=
  if is_nan x || is_infinity x then nan
  else if is_zero x then x
  else x * horner sin_coeffs (x * x).

Definition cos (x : float) : float :=
  if is_nan x || is_infinity x then nan
  else horner cos_coeffs (x * x).

(** [tan (t/2)] from [tan t]. *)
Definition halve_tan (t : float) : float := t / (1 + sqrt (1 + t * t)).

Definition atan_unit (t : float) : float :=
  let u := halve_tan (halve_tan t) in
  4 * (u * horner atan_coeffs (u * u)).

Definition atan_pos (t : float) : float :=
  if 1 <? t then Math_PI / 2 - atan_unit (1 / t) else atan_unit t.

Definition atan2 (y x : float) : float :=
  if is_nan y || is_nan x then nan
  else if is_zero x then
    (if is_zero y then y else if y <? 0 then - (Math_PI / 2) else Math_PI / 2)
  else if 0 <? x then
    (if y <? 0 then - atan_pos (abs y / x) else atan_pos (y / x))
  else
    (if y <? 0 then - (Math_PI - atan_pos (abs y / abs x))
     else Math_PI - atan_pos (y / abs x)).

Definition math : MathObject :=
  {| Math_sin := sin; Math_cos := cos; Math_atan2 := atan2 |}.

End SoftMath.

(** ** The invariants of a stored request *)

Definition dist_le (a b : Candidate.t) : Prop :=
  (Candidate.distance a <=? Candidate.distance b)%float = true.

(** Non-decreasing in distance: each candidate is at most as far as the next. *)
Definition ascending (l : list Candidate.t) : Prop := Sorted dist_le l.

Fixpoint ascendingb (l : list Candidate.t) : bool :=
  match l with
  | a :: (b :: _) as l' =>
      (Candidate.distance a <=? Candidate.distance b)%float && ascendingb l'
  | _ => true
  end.

Definition no_NaN (l : list Candidate.t) : Prop :=
  Forall (fun c => PrimFloat.is_nan (Candidate.distance c) = false) l.


(** Every notified worker is one of [candidates[0..nextCandidateIndex)]. *)
Definition notified_were_offered (r : ActiveRequest.t) : Prop :=
  incl (ActiveRequest.notifiedDrivers r)
       (List.map Candidate.did
          (firstn (ActiveRequest.nextCandidateIndex r) (ActiveRequest.candidates r))).


(** What an operation may do to a request: the candidates stay, the cursor and
    the time of the last offer do not go back, and ASSIGNED is final. *)
Record evolves (r r' : ActiveRequest.t) : Prop := {
  ev_candidates : ActiveRequest.candidates r' = ActiveRequest.candidates r;
  ev_cursor :
    (ActiveRequest.nextCandidateIndex r <= ActiveRequest.nextCandidateIndex r')%nat;
  ev_status :
    ActiveRequest.status r = ASSIGNED -> ActiveRequest.status r' = ASSIGNED;
  ev_lastNotificationTime :
    ActiveRequest.lastNotificationTime r <= ActiveRequest.lastNotificationTime r'
}.

(** The three outcomes of the loop body: the request is left alone, its
    candidate is passed over, or its candidate is offered the request. *)
Inductive tick_outcome (now : Z) (req : ActiveRequest.t)
    : ActiveRequest.t * list (string * Message) -> Prop :=
| tick_idle : tick_outcome now req (req, [])
| tick_skip :
    ActiveRequest.status req = PENDING ->
    (ActiveRequest.nextCandidateIndex req < length (ActiveRequest.candidates req))%nat ->
    tick_outcome now req
      (ActiveRequest.set_nextCandidateIndex
         (S (ActiveRequest.nextCandidateIndex req)) req, [])
| tick_offer candidate msg :
    ActiveRequest.status req = PENDING ->
    DISPATCH_INTERVAL_MS <= now - ActiveRequest.lastNotificationTime req ->
    nth_error (ActiveRequest.candidates req) (ActiveRequest.nextCandidateIndex req)
      = Some candidate ->
    tick_outcome now req
      (ActiveRequest.set_nextCandidateIndex
         (S (ActiveRequest.nextCandidateIndex req))
         (ActiveRequest.set_lastNotificationTime now
            (ActiveRequest.set_notifiedDrivers
               (ActiveRequest.notifiedDrivers req ++ [Candidate.did candidate])%list
               req)),
       [(Candidate.did candidate, msg)]).

(** A worker the scheduler passes over: not in the registry, or not AVAILABLE. *)
Definition unavailable (drivers : JSMap.t DriverState.t) (did : string) : Prop :=
  forall d, JSMap.get drivers did = Some d -> DriverState.status d <> AVAILABLE.

(** A coordinate that compares equal to [0]. *)
Definition is_zero_coordinate (v : option float) : bool :=
  match v with
  | Some x => PrimFloat.eqb x 0%float
  | None => false
  end.

(** ** Worked examples: data *)

Module Examples.
Local Open Scope float_scope.

Definition origin : Location.t := Location.mk 33.5 (-7.625).
Definition near : Location.t := Location.mk 33.515625 (-7.625).
Definition far : Location.t := Location.mk 33.5 (-7.5).
Definition equator : Location.t := Location.mk 0 (-7.625).
Definition nowhere : Location.t := Location.mk infinity (-7.625).

Definition availability (s : DriverStatus) (loc : option Location.t) : Payload.t :=
  Payload.mk "DRIVER_AVAILABILITY" "" None None s loc.

Definition ride (orderId : string) (pickup : option Location.t)
    (legacy : option Location.t) : Payload.t :=
  Payload.mk "RIDE_REQUEST" orderId pickup legacy UNAVAILABLE None.

Definition accepted (orderId : string) : Payload.t :=
  Payload.mk "RIDE_ACCEPTED" orderId None None UNAVAILABLE None.

(** Membership lists as the refresh left them; nobody has reported yet. *)
Definition boot : State.t :=
  State.mk [] [] {[ "w1"; "w2"; "w3"; "both" ]} {[ "l1"; "both" ]} [].

(** Two drivers report themselves available. *)
Definition two_drivers : State.t :=
  handleDriverAvailability 20 "w2" (availability AVAILABLE (Some far))
    (handleDriverAvailability 10 "w1" (availability AVAILABLE (Some near)) boot).

(** A customer asks for a ride, the first tick offers it to the nearest
    driver, and that driver accepts. *)
Definition queued : State.t :=
  handleRequest (M := SoftMath.math) 1000 "cust" (ride "order-1" (Some origin) None)
    two_drivers.

Definition offered : State.t := processRequests 31000 queued.

Definition assigned : State.t := handleAccept "w1" (accepted "order-1") offered.


(** The nearest driver goes offline before the first tick. *)
Definition nearest_went_offline : State.t :=
  handleDriverAvailability 2000 "w1" (availability UNAVAILABLE (Some near)) queued.

(** One interval later the second driver is offered the ride as well. *)
Definition offered_twice : State.t := processRequests 61000 offered.

(** Three drivers in order of distance; the two nearest go offline after the
    request is queued. *)
Definition farther : Location.t := Location.mk 33.5 (-7.25).

Definition fleet : State.t :=
  handleDriverAvailability 30 "w3" (availability AVAILABLE (Some farther)) two_drivers.

Definition cascade : State.t :=
  handleDriverAvailability 3000 "w2" (availability UNAVAILABLE (Some far))
    (handleDriverAvailability 2000 "w1" (availability UNAVAILABLE (Some near))
       (handleRequest (M := SoftMath.math) 1000 "cust"
          (ride "order-3" (Some origin) None) fleet)).

(** A third driver reports a latitude that parses to [Infinity]. *)
Definition three_drivers : State.t :=
  handleDriverAvailability 30 "w3" (availability AVAILABLE (Some nowhere)) two_drivers.

(** What the scenarios look at: the cursor of a request and who was written to. *)
Definition cursor_of (id : string) (st : State.t) : option nat :=
  option_map ActiveRequest.nextCandidateIndex (JSMap.get (State.activeRequests st) id).

Definition recipients (st : State.t) : list string := List.map fst (State.sent st).

End Examples.

(** ** Membership refresh *)

Module ListView.
Record t := mk { uri : string; description : option string }.
End ListView.

(** [description?.includes(tag)] *)
Definition includes (tag : string) (description : option string) : bool :=
  match description with
  | Some s =>
      match String.index 0 tag s with
      | Some _ => true
      | None => false
      end
  | None => false
  end.

Definition set_validDrivers (s : gset string) (st : State.t) : State.t :=
  State.mk (State.drivers st) (State.activeRequests st) s (State.validLivreurs st)
    (State.sent st).

Definition set_validLivreurs (s : gset string) (st : State.t) : State.t :=
  State.mk (State.drivers st) (State.activeRequests st) (State.validDrivers st) s
    (State.sent st).

(** The two tags a list carries in its description. *)
Definition driversTag (l : ListView.t) : bool :=
  includes "[MODULE]=[DRIVERS]" (ListView.description l).

Definition livreursTag (l : ListView.t) : bool :=
  includes "[MODULE]=[LIVREURS]" (ListView.description l).

(** [refreshDriverLists], given what the network answers.  [getLists] is the
    response of [graph.getLists] (line 72): its [success] flag and its list
    views.  [driversItems uri] is the response of the [graph.getList] call of
    line 83 and [livreursItems uri] that of the call of line 90: the dids of
    the subjects of the list.  [None] stands for a call that throws; the
    [catch] then ends the refresh and what was replaced before stays
    replaced.  [clear] followed by the [add]s leaves the set of the dids
    fetched. *)
Definition refreshDriverLists (getLists : option (bool * list ListView.t))
    (driversItems livreursItems : string -> option (list string))
    (st : State.t) : State.t :=
  match getLists with
  | None => st
  | Some (success, lists) =>
      if negb success then st
      else
        let driversList := List.find driversTag lists in
        let livreursList := List.find livreursTag lists in
        let afterDrivers :=
          match driversList with
          | Some l =>
              match driversItems (ListView.uri l) with
              | Some items => Some (set_validDrivers (list_to_set items) st)
              | None => None
              end
          | None => Some st
          end in
        match afterDrivers with
        | None => st
        | Some st1 =>
            match livreursList with
            | Some l =>
                match livreursItems (ListView.uri l) with
                | Some items => set_validLivreurs (list_to_set items) st1
                | None => st1
                end
            | None => st1
            end
        end
  end.

(** ** The message loop and the timers *)

Section Loop.
Context {M : MathObject}.

(** The body of the inner loop of [checkMessages] (lines 299-326) for one
    message: [sender] is [msg.sender.did], [text] what [JSON.parse] makes of
    the message ([None] when it throws), [self] the did of the bot's own
    session. *)
Definition checkMessage (self : string) (now : Z) (sender : string)
    (text : option Payload.t) (st : State.t) : State.t :=
  if String.eqb sender self then st
  else
    match text with
    | None => st
    | Some payload =>
        let type := Payload.type payload in
        if String.eqb type "DRIVER_AVAILABILITY" then
          handleDriverAvailability now sender payload st
        else if String.eqb type "RIDE_REQUEST" || String.eqb type "DELIVERY_REQUEST" then
          handleRequest now sender payload st
        else if String.eqb type "RIDE_ACCEPTED" || String.eqb type "DELIVERY_ACCEPTED" then
          handleAccept sender payload st
        else st
    end.

(** What the three timers of [main] bring: one message read by
    [checkMessages], one run of [processRequests], one run of
    [refreshDriverLists].  [fire] runs the handler of an event to its end,
    and [run] the handlers one after the other; [Machine.exec] below runs them
    interleaved. *)
Inductive Event :=
| Inbound (now : Z) (sender : string) (text : option Payload.t)
| DispatchTick (now : Z)
| ListRefresh (getLists : option (bool * list ListView.t))
    (driversItems livreursItems : string -> option (list string)).

Definition fire (self : string) (e : Event) (st : State.t) : State.t :=
  match e with
  | Inbound now sender text => checkMessage self now sender text st
  | DispatchTick now => processRequests now st
  | ListRefresh getLists driversItems livreursItems =>
      refreshDriverLists getLists driversItems livreursItems st
  end.

Definition run (self : string) (events : list Event) (st : State.t) : State.t :=
  fold_left (fun s e => fire self e s) events st.

End Loop.

(** The state at start-up (lines 42-45): nothing registered, nothing stored,
    nobody listed, nothing sent. *)
Definition initial : State.t := State.mk [] [] ∅ ∅ [].

(** ** What holds of every state the bot reaches *)

(** The offer a request sends: its payload under the offer tag. *)
Definition offer_of (r : ActiveRequest.t) : Message :=
  OFFER
    (Payload.with_type (ActiveRequest.data r)
       (match ActiveRequest.type r with
        | DELIVERY => "DELIVERY_OFFER"
        | RIDE => "RIDE_OFFER"
        end)).

Definition registry_ok (drivers : JSMap.t DriverState.t) : Prop :=
  NoDup (JSMap.keys drivers)
  /\ Forall (fun e => DriverState.did (snd e) = fst e) drivers.

Record entry_ok (sent : list (string * Message)) (e : string * ActiveRequest.t)
    : Prop := {
  eo_id : ActiveRequest.id (snd e) = fst e;
  eo_orderId : Payload.orderId (ActiveRequest.data (snd e)) = fst e;
  eo_candidates : ActiveRequest.candidates (snd e) <> [];
  eo_distinct : NoDup (List.map Candidate.did (ActiveRequest.candidates (snd e)));
  eo_cursor :
    (ActiveRequest.nextCandidateIndex (snd e)
     <= length (ActiveRequest.candidates (snd e)))%nat;
  eo_notified :
    sublist (ActiveRequest.notifiedDrivers (snd e))
      (List.map Candidate.did
         (firstn (ActiveRequest.nextCandidateIndex (snd e))
            (ActiveRequest.candidates (snd e))));
  eo_offers :
    forall d, In d (ActiveRequest.notifiedDrivers (snd e)) ->
              In (d, offer_of (snd e)) sent;
  eo_assigned :
    ActiveRequest.status (snd e) = ASSIGNED ->
    exists driver loc,
      In (ActiveRequest.customerDid (snd e), ORDER_ASSIGNED (fst e) driver loc) sent
}.

Definition state_ok (st : State.t) : Prop :=
  registry_ok (State.drivers st)
  /\ NoDup (JSMap.keys (State.activeRequests st))
  /\ Forall (entry_ok (State.sent st)) (State.activeRequests st).

(** An event that is no message from [w]. *)
Definition not_from (w : string) (e : Event) : Prop :=
  match e with
  | Inbound _ sender _ => sender <> w
  | _ => True
  end.

(** ** What the theorems on runs speak of *)

(** The log and the two maps only grow: what was there stays in front. *)
Definition grows (st st' : State.t) : Prop :=
  prefix (State.sent st) (State.sent st')
  /\ prefix (JSMap.keys (State.drivers st)) (JSMap.keys (State.drivers st'))
  /\ prefix (JSMap.keys (State.activeRequests st))
       (JSMap.keys (State.activeRequests st')).

Definition is_request (payload : Payload.t) : bool :=
  String.eqb (Payload.type payload) "RIDE_REQUEST"
  || String.eqb (Payload.type payload) "DELIVERY_REQUEST".

Definition is_accept (payload : Payload.t) : bool :=
  String.eqb (Payload.type payload) "RIDE_ACCEPTED"
  || String.eqb (Payload.type payload) "DELIVERY_ACCEPTED".

Definition is_refresh (e : Event) : bool :=
  match e with
  | ListRefresh _ _ _ => true
  | _ => false
  end.

(** The conditions of lines 196, 199 and 200 together: the tick at [now] has
    something to do for the request. *)
Definition due (now : Z) (r : ActiveRequest.t) : bool :=
  RequestStatus_eqb (ActiveRequest.status r) PENDING
  && (now - ActiveRequest.lastNotificationTime r >=? DISPATCH_INTERVAL_MS)
  && (ActiveRequest.nextCandidateIndex r <? length (ActiveRequest.candidates r))%nat.

(** An event that is no request message for the order [id]. *)
Definition not_request_for (id : string) (e : Event) : Prop :=
  match e with
  | Inbound _ _ (Some payload) => Payload.orderId payload = id -> is_request payload = false
  | _ => True
  end.

(** An event that has nothing for the request [r] stored under [id]: no
    request or accept message for [id], no tick at which [r] is due. *)
Definition idle_for (id : string) (r : ActiveRequest.t) (e : Event)
    : Prop :=
  match e with
  | Inbound _ _ (Some payload) =>
      Payload.orderId payload = id ->
      is_request payload = false /\ is_accept payload = false
  | DispatchTick now => due now r = false
  | _ => True
  end.

Definition is_offer (m : string * Message) : bool :=
  match snd m with
  | OFFER _ => true
  | _ => false
  end.

(** Every candidate of every stored request has a record in the registry. *)
Definition candidates_registered (st : State.t) : Prop :=
  Forall (fun e =>
       Forall (fun c => In (Candidate.did c) (JSMap.keys (State.drivers st)))
         (ActiveRequest.candidates (snd e)))
    (State.activeRequests st).

(** ** Binary64: the order as an order on integers

    Every binary64 number other than NaN has a rank in [Z]: the value scaled
    by 2^1074 for a finite number (an integer, the least exponent being
    -1074), and a bound no finite number reaches for the infinities.  The
    comparisons of the numbers are the comparisons of their ranks. *)
Definition SFrank (X : spec_float) : Z :=
  match X with
  | S754_zero _ => 0
  | S754_infinity s => cond_Zopp s (2 ^ 2100)
  | S754_nan => 0
  | S754_finite s m e => cond_Zopp s (Zpos m * 2 ^ (e + 1074))
  end.

Definition rank (x : float) : Z := SFrank (Prim2SF x).

(** Candidates at the distance [v]. *)
Definition at_distance (v : float) (c : Candidate.t) : bool :=
  PrimFloat.eqb (Candidate.distance c) v.


(** Nothing of the state is about the bot's own did: no record is stored
    under it, no request is of that customer or has it among its candidates,
    and no message is addressed to it. *)
Definition apart_from (self : string) (st : State.t) : Prop :=
  Forall (fun e => fst e <> self) (State.drivers st)
  /\ Forall (fun e =>
         ActiveRequest.customerDid (snd e) <> self
         /\ Forall (fun c => Candidate.did c <> self) (ActiveRequest.candidates (snd e)))
       (State.activeRequests st)
  /\ Forall (fun m => fst m <> self) (State.sent st).

(** ** The handlers as they interleave

    A handler that awaits [sendDM], or a call of the list refresh, gives the
    event loop back, and the timers of [main] (lines 349, 352, 355) start the
    next handler before the first one has finished.  The machine below runs
    the handlers piece by piece: a handler runs up to its next [await], is
    parked as a [Task], and any parked task may be resumed next.  Requests
    are objects on a heap, and the map and the parked tasks hold references
    to them, so that a task resumed later writes to the object it had in
    hand, also when the map holds another object under the id by then.  A
    message is logged when [sendDM] is called. *)

Module Machine.

(** A handler parked at an [await], with the locals it needs afterwards. *)
Inductive Task :=
| TickSent (now : Z) (pos : nat) (ref : nat) (did : string)
| AcceptAssigned (ref : nat) (senderDid reqId : string)
| AcceptOthers (ref : nat) (senderDid reqId : string) (others : list string)
| RefreshLists (getLists : option (bool * list ListView.t))
    (driversItems livreursItems : string -> option (list string))
| RefreshDrivers (items : option (list string)) (livreursList : option ListView.t)
    (livreursItems : string -> option (list string))
| RefreshLivreurs (items : option (list string)).

Record t := mk {
    drivers : JSMap.t DriverState.t;
    objects : list ActiveRequest.t;
    activeRequests : JSMap.t nat;
    validDrivers : gset string;
    validLivreurs : gset string;
    sent : list (string * Message);
    waiting : list Task
  }.

Definition set_drivers (d : JSMap.t DriverState.t) (m : t) : t :=
  mk d (objects m) (activeRequests m) (validDrivers m) (validLivreurs m) (sent m)
    (waiting m).

Definition set_objects (o : list ActiveRequest.t) (m : t) : t :=
  mk (drivers m) o (activeRequests m) (validDrivers m) (validLivreurs m) (sent m)
    (waiting m).

Definition set_activeRequests (a : JSMap.t nat) (m : t) : t :=
  mk (drivers m) (objects m) a (validDrivers m) (validLivreurs m) (sent m) (waiting m).

Definition set_validDrivers (s : gset string) (m : t) : t :=
  mk (drivers m) (objects m) (activeRequests m) s (validLivreurs m) (sent m) (waiting m).

Definition set_validLivreurs (s : gset string) (m : t) : t :=
  mk (drivers m) (objects m) (activeRequests m) (validDrivers m) s (sent m) (waiting m).

Definition set_sent (s : list (string * Message)) (m : t) : t :=
  mk (drivers m) (objects m) (activeRequests m) (validDrivers m) (validLivreurs m) s
    (waiting m).

Definition set_waiting (w : list Task) (m : t) : t :=
  mk (drivers m) (objects m) (activeRequests m) (validDrivers m) (validLivreurs m)
    (sent m) w.

(** A write through a reference. *)
Definition write (ref : nat) (f : ActiveRequest.t -> ActiveRequest.t) (m : t) : t :=
  set_objects (alter f ref (objects m)) m.

(** The call of [sendDM]; the caller waits for it afterwards. *)
Definition sendDM (did : string) (message : Message) (m : t) : t :=
  set_sent (sent m ++ [(did, message)])%list m.

(** [handleDriverAvailability] has no [await]. *)
Definition handleDriverAvailability (now : Z) (senderDid : string)
    (payload : Payload.t) (m : t) : t :=
  let type :=
    if Set_has (validDrivers m) senderDid then Some DRIVERS
    else if Set_has (validLivreurs m) senderDid then Some LIVREURS
    else None in
  match type with
  | None => m
  | Some type =>
      set_drivers
        (JSMap.set (drivers m) senderDid
           (DriverState.mk (Payload.status payload) (Payload.location payload)
              now type senderDid))
        m
  end.

Section Matching.
Context {M : MathObject}.

(** [handleRequest]: the one [await] (line 171) is followed by [return]; the
    object literal of lines 176-187 is a new object. *)
Definition handleRequest (now : Z) (senderDid : string) (payload : Payload.t)
    (m : t) : t :=
  let reqId := Payload.orderId payload in
  match reqLat payload, reqLon payload with
  | Some lat, Some lon =>
      if negb (Number.truthy lat) || negb (Number.truthy lon) then m
      else
        let candidates :=
          computeCandidates (drivers m) (reqType payload) lat lon in
        match candidates with
        | [] => sendDM senderDid (NO_DRIVERS_AVAILABLE reqId) m
        | _ :: _ =>
            set_activeRequests
              (JSMap.set (activeRequests m) reqId (length (objects m)))
              (set_objects
                 (objects m ++ [newRequest now senderDid payload candidates])%list m)
        end
  | _, _ => m
  end.

End Matching.

(** The loop of [processRequests] over the entries not yet visited, [pos]
    being the place of the first of them in the map: it runs until the first
    offer, and parks there (line 213).  The map never loses an entry, so the
    entries still to visit, when the tick is resumed, are those after [pos] in
    the map as it is then.  (A reference of the map always has its object;
    the loop passes by one that has none.) *)
Fixpoint tickLoop (now : Z) (pos : nat) (entries : list (string * nat)) (m : t)
    : t * option Task :=
  match entries with
  | [] => (m, None)
  | (reqId, ref) :: rest =>
      match objects m !! ref with
      | None => tickLoop now (S pos) rest m
      | Some req =>
          if negb (RequestStatus_eqb (ActiveRequest.status req) PENDING) then
            tickLoop now (S pos) rest m
          else if now - ActiveRequest.lastNotificationTime req >=? DISPATCH_INTERVAL_MS
          then
            if (ActiveRequest.nextCandidateIndex req
                <? length (ActiveRequest.candidates req))%nat
            then
              match nth_error (ActiveRequest.candidates req)
                              (ActiveRequest.nextCandidateIndex req) with
              | Some candidate =>
                  let available :=
                    match JSMap.get (drivers m) (Candidate.did candidate) with
                    | Some driverState =>
                        DriverStatus_eqb (DriverState.status driverState) AVAILABLE
                    | None => false
                    end in
                  if available then
                    let requestMsg :=
                      Payload.with_type (ActiveRequest.data req)
                        (match ActiveRequest.type req with
                         | DELIVERY => "DELIVERY_OFFER"
                         | RIDE => "RIDE_OFFER"
                         end) in
                    (sendDM (Candidate.did candidate) (OFFER requestMsg) m,
                     Some (TickSent now pos ref (Candidate.did candidate)))
                  else
                    tickLoop now (S pos) rest
                      (write ref
                         (fun req =>
                            ActiveRequest.set_nextCandidateIndex
                              (S (ActiveRequest.nextCandidateIndex req)) req)
                         m)
              | None => tickLoop now (S pos) rest m
              end
            else tickLoop now (S pos) rest m
          else tickLoop now (S pos) rest m
      end
  end.

(** Lines 214-216, once [sendDM] has returned, and the loop from the next
    entry of the map as it is by then.  The status is not looked at again. *)
Definition tickResume (now : Z) (pos : nat) (ref : nat) (did : string) (m : t)
    : t * option Task :=
  let m1 :=
    write ref
      (fun req =>
         ActiveRequest.set_nextCandidateIndex
           (S (ActiveRequest.nextCandidateIndex req))
           (ActiveRequest.set_lastNotificationTime now
              (ActiveRequest.set_notifiedDrivers
                 (ActiveRequest.notifiedDrivers req ++ [did])%list req)))
      m in
  tickLoop now (S pos) (skipn (S pos) (activeRequests m1)) m1.

(** [handleAccept] up to its first [await] (line 255). *)
Definition handleAccept (senderDid : string) (payload : Payload.t) (m : t)
    : t * option Task :=
  let reqId := Payload.orderId payload in
  match JSMap.get (activeRequests m) reqId with
  | None => (m, None)
  | Some ref =>
      match objects m !! ref with
      | None => (m, None)
      | Some req =>
          if negb (RequestStatus_eqb (ActiveRequest.status req) PENDING) then
            (sendDM senderDid (ORDER_ALREADY_TAKEN reqId) m, None)
          else
            let m1 := write ref (ActiveRequest.set_status ASSIGNED) m in
            let driverInfo := JSMap.get (drivers m1) senderDid in
            (sendDM (ActiveRequest.customerDid req)
               (ORDER_ASSIGNED reqId senderDid
                  (match driverInfo with
                   | Some d => DriverState.location d
                   | None => None
                   end)) m1,
             Some (AcceptAssigned ref senderDid reqId))
      end
  end.

(** The loop of lines 266-271 over the drivers still to be told, and the
    confirmation of line 274 after it. *)
Definition acceptNext (ref : nat) (senderDid reqId : string) (others : list string)
    (m : t) : t * option Task :=
  match others with
  | otherDid :: rest =>
      (sendDM otherDid (ORDER_TAKEN_BY_OTHER reqId) m,
       Some (AcceptOthers ref senderDid reqId rest))
  | [] =>
      match objects m !! ref with
      | Some req =>
          (sendDM senderDid
             (ORDER_CONFIRMED reqId (ActiveRequest.customerDid req)
                (ActiveRequest.data req)) m,
           None)
      | None => (m, None)
      end
  end.

(** Line 265, read when the first [sendDM] has returned. *)
Definition acceptResume (ref : nat) (senderDid reqId : string) (m : t)
    : t * option Task :=
  match objects m !! ref with
  | Some req =>
      acceptNext ref senderDid reqId
        (List.filter (fun d => negb (String.eqb d senderDid))
           (ActiveRequest.notifiedDrivers req))
        m
  | None => (m, None)
  end.

(** [refreshDriverLists] after each of its three calls (lines 72, 83, 90). *)
Definition refreshLivreurs (livreursList : option ListView.t)
    (livreursItems : string -> option (list string)) (m : t) : t * option Task :=
  match livreursList with
  | Some l => (m, Some (RefreshLivreurs (livreursItems (ListView.uri l))))
  | None => (m, None)
  end.

Definition refreshResume (getLists : option (bool * list ListView.t))
    (driversItems livreursItems : string -> option (list string)) (m : t)
    : t * option Task :=
  match getLists with
  | None => (m, None)
  | Some (success, lists) =>
      if negb success then (m, None)
      else
        let driversList := List.find driversTag lists in
        let livreursList := List.find livreursTag lists in
        match driversList with
        | Some l =>
            (m, Some (RefreshDrivers (driversItems (ListView.uri l)) livreursList
                        livreursItems))
        | None => refreshLivreurs livreursList livreursItems m
        end
  end.

Definition resume (task : Task) (m : t) : t * option Task :=
  match task with
  | TickSent now pos ref did => tickResume now pos ref did m
  | AcceptAssigned ref senderDid reqId => acceptResume ref senderDid reqId m
  | AcceptOthers ref senderDid reqId others => acceptNext ref senderDid reqId others m
  | RefreshLists getLists driversItems livreursItems =>
      refreshResume getLists driversItems livreursItems m
  | RefreshDrivers items livreursList livreursItems =>
      match items with
      | Some items =>
          refreshLivreurs livreursList livreursItems
            (set_validDrivers (list_to_set items) m)
      | None => (m, None)
      end
  | RefreshLivreurs items =>
      match items with
      | Some items => (set_validLivreurs (list_to_set items) m, None)
      | None => (m, None)
      end
  end.

(** A handler that parks joins the parked tasks; a resumed task that parks
    again keeps its place among them, and one that is through leaves. *)
Definition enqueue (r : t * option Task) : t :=
  set_waiting
    (match snd r with
     | Some task => waiting (fst r) ++ [task]
     | None => waiting (fst r)
     end)%list (fst r).

Definition install (i : nat) (r : t * option Task) : t :=
  set_waiting
    (match snd r with
     | Some task => <[i := task]> (waiting (fst r))
     | None => delete i (waiting (fst r))
     end) (fst r).

Section Loop.
Context {M : MathObject}.

Definition checkMessage (self : string) (now : Z) (sender : string)
    (text : option Payload.t) (m : t) : t * option Task :=
  if String.eqb sender self then (m, None)
  else
    match text with
    | None => (m, None)
    | Some payload =>
        let type := Payload.type payload in
        if String.eqb type "DRIVER_AVAILABILITY" then
          (handleDriverAvailability now sender payload m, None)
        else if String.eqb type "RIDE_REQUEST" || String.eqb type "DELIVERY_REQUEST" then
          (handleRequest now sender payload m, None)
        else if String.eqb type "RIDE_ACCEPTED" || String.eqb type "DELIVERY_ACCEPTED" then
          handleAccept sender payload m
        else (m, None)
    end.

(** A handler up to its first [await]. *)
Definition start (self : string) (e : Event) (m : t) : t * option Task :=
  match e with
  | Inbound now sender text => checkMessage self now sender text m
  | DispatchTick now => tickLoop now 0 (activeRequests m) m
  | ListRefresh getLists driversItems livreursItems =>
      (m, Some (RefreshLists getLists driversItems livreursItems))
  end.

(** What the event loop does next: a timer starts a handler, or the call a
    parked handler waits for returns. *)
Inductive Action :=
| Start (e : Event)
| Resume (i : nat).

Definition step (self : string) (a : Action) (m : t) : t :=
  match a with
  | Start e => enqueue (start self e m)
  | Resume i =>
      match waiting m !! i with
      | Some task => install i (resume task m)
      | None => m
      end
  end.

Definition exec (self : string) (actions : list Action) (m : t) : t :=
  fold_left (fun m a => step self a m) actions m.

(** The parked handler resumed, again and again, until nothing is parked:
    with one handler parked, that handler run to its end. *)
Fixpoint settle (self : string) (fuel : nat) (m : t) : t :=
  match fuel with
  | O => m
  | S fuel' =>
      match waiting m with
      | [] => m
      | _ :: _ => settle self fuel' (step self (Resume 0) m)
      end
  end.

End Loop.

Definition initial : t := mk [] [] [] ∅ ∅ [] [].

(** The entries of the map with the objects they refer to. *)
Definition resolve (objects : list ActiveRequest.t) (entries : JSMap.t nat)
    : JSMap.t ActiveRequest.t :=
  omap (fun e => (fun req => (fst e, req)) <$> objects !! snd e) entries.

(** The requests the map holds. *)
Definition stored (m : t) : JSMap.t ActiveRequest.t :=
  resolve (objects m) (activeRequests m).

(** The machine after a handler that ran with nothing else parked: the
    handler itself is parked, or nothing is. *)
Definition park (r : t * option Task) : t :=
  set_waiting (match snd r with Some task => [task] | None => [] end) (fst r).

(** The state the handlers of the first part work on. *)
Definition view (m : t) : State.t :=
  State.mk (drivers m) (stored m) (validDrivers m) (validLivreurs m) (sent m).

(** The handlers one after the other, each run to its end. *)
Definition serial {M : MathObject} (self : string) (fuel : nat) (events : list Event)
    (m : t) : t :=
  fold_left (fun m e => settle self fuel (step self (Start e) m)) events m.

End Machine.

(** ** What the theorems on the machine speak of *)

(** What a write may do to a request object: all that creation fixed stays,
    the cursor does not go back, ASSIGNED is final, and the notified drivers
    are added to at the end. *)
Record advances (r r' : ActiveRequest.t) : Prop := {
  adv_id : ActiveRequest.id r' = ActiveRequest.id r;
  adv_type : ActiveRequest.type r' = ActiveRequest.type r;
  adv_customerDid : ActiveRequest.customerDid r' = ActiveRequest.customerDid r;
  adv_candidates : ActiveRequest.candidates r' = ActiveRequest.candidates r;
  adv_data : ActiveRequest.data r' = ActiveRequest.data r;
  adv_timestamp : ActiveRequest.timestamp r' = ActiveRequest.timestamp r;
  adv_cursor :
    (ActiveRequest.nextCandidateIndex r <= ActiveRequest.nextCandidateIndex r')%nat;
  adv_status :
    ActiveRequest.status r = ASSIGNED -> ActiveRequest.status r' = ASSIGNED;
  adv_notified :
    prefix (ActiveRequest.notifiedDrivers r) (ActiveRequest.notifiedDrivers r')
}.

(** Every object is still there, and has only advanced. *)
Definition objects_advance (m m' : Machine.t) : Prop :=
  forall ref r, Machine.objects m !! ref = Some r ->
    exists r', Machine.objects m' !! ref = Some r' /\ advances r r'.




(** A task that is no tick parked at line 213 for the object [ref]; and a
    machine in which no such tick is parked. *)
Definition parked_elsewhere (ref : nat) (task : Machine.Task) : Prop :=
  match task with
  | Machine.TickSent _ _ ref' _ => ref' <> ref
  | _ => True
  end.

Definition no_offer_parked (ref : nat) (m : Machine.t) : Prop :=
  Forall (parked_elsewhere ref) (Machine.waiting m).

(** An action that does not start the handling of a request message for the
    order [id]. *)
Definition no_request_for (id : string) (a : Machine.Action) : Prop :=
  match a with
  | Machine.Start e => not_request_for id e
  | Machine.Resume _ => True
  end.

(** What holds of every request object the machine makes: its payload carries
    its id, it has candidates, no worker twice among them, its notified
    drivers are among the candidates before the cursor and at most as many as
    the cursor counts, each of them was sent its offer, and an ASSIGNED
    request was announced to its customer. *)
Record object_ok (sent : list (string * Message)) (r : ActiveRequest.t) : Prop := {
  oo_orderId : Payload.orderId (ActiveRequest.data r) = ActiveRequest.id r;
  oo_candidates : ActiveRequest.candidates r <> [];
  oo_distinct : NoDup (List.map Candidate.did (ActiveRequest.candidates r));
  oo_notified : notified_were_offered r;
  oo_counted :
    (length (ActiveRequest.notifiedDrivers r) <= ActiveRequest.nextCandidateIndex r)%nat;
  oo_offers :
    forall d, In d (ActiveRequest.notifiedDrivers r) -> In (d, offer_of r) sent;
  oo_assigned :
    ActiveRequest.status r = ASSIGNED ->
    exists driver loc,
      In (ActiveRequest.customerDid r, ORDER_ASSIGNED (ActiveRequest.id r) driver loc)
         sent
}.

(** What holds of every parked task: its object is there, and a parked tick
    holds a candidate the cursor has reached, whose offer is sent. *)
Definition task_ok (objects : list ActiveRequest.t) (sent : list (string * Message))
    (task : Machine.Task) : Prop :=
  match task with
  | Machine.TickSent _ _ ref did =>
      exists r, objects !! ref = Some r
        /\ In did
             (List.map Candidate.did
                (firstn (S (ActiveRequest.nextCandidateIndex r))
                   (ActiveRequest.candidates r)))
        /\ In (did, offer_of r) sent
  | Machine.AcceptAssigned ref _ _ | Machine.AcceptOthers ref _ _ _ =>
      exists r, objects !! ref = Some r
  | _ => True
  end.

(** The map refers to objects of the heap, each under its own id, and to no
    object twice. *)
Record store_wf (m : Machine.t) : Prop := {
  wf_keys : NoDup (JSMap.keys (Machine.activeRequests m));
  wf_refs : NoDup (List.map snd (Machine.activeRequests m));
  wf_stored :
    Forall (fun e => exists r, Machine.objects m !! snd e = Some r
                               /\ ActiveRequest.id r = fst e)
      (Machine.activeRequests m)
}.

(** The part of the invariant that is about the store. *)
Definition heap_ok (m : Machine.t) : Prop :=
  registry_ok (Machine.drivers m) /\ store_wf m
  /\ Forall (object_ok (Machine.sent m)) (Machine.objects m).

Record machine_ok (m : Machine.t) : Prop := {
  mo_registry : registry_ok (Machine.drivers m);
  mo_store : store_wf m;
  mo_objects : Forall (object_ok (Machine.sent m)) (Machine.objects m);
  mo_tasks : Forall (task_ok (Machine.objects m) (Machine.sent m)) (Machine.waiting m)
}.

(** What a handler run alone comes to: resumed often enough, nothing is
    parked any more, and the state is [st]. *)
Definition settles {M : MathObject} (self : string) (m : Machine.t) (st : State.t)
    : Prop :=
  exists n, forall fuel, (n <= fuel)%nat ->
    Machine.waiting (Machine.settle self fuel m) = []
    /\ Machine.view (Machine.settle self fuel m) = st
    /\ store_wf (Machine.settle self fuel m).

(** ** Worked examples: runs *)

Module Scenarios.
Local Open Scope float_scope.

Definition bot : string := "did:plc:dispatcher".

(** The lists of the marketplace admin as [getLists] returns them, and the
    members [getList] returns for each. *)
Definition lists : list ListView.t :=
  [ ListView.mk "at://admin/list/friends" (Some "People I follow");
    ListView.mk "at://admin/list/untitled" None;
    ListView.mk "at://admin/list/taxis" (Some "Taxis [MODULE]=[DRIVERS]");
    ListView.mk "at://admin/list/couriers" (Some "[MODULE]=[LIVREURS] on bikes");
    ListView.mk "at://admin/list/taxis-old" (Some "old [MODULE]=[DRIVERS] list") ].

Definition members (uri : string) : option (list string) :=
  if String.eqb uri "at://admin/list/taxis" then Some ["w1"; "w2"; "w3"]
  else if String.eqb uri "at://admin/list/couriers" then Some ["l1"]
  else if String.eqb uri "at://admin/list/taxis-old" then Some ["w9"]
  else None.

(** A service that cannot be reached: the call throws. *)
Definition unreachable (uri : string) : option (list string) := None.

Definition refresh : Event := ListRefresh (Some (true, lists)) members members.

Definition accepted_as_delivery (orderId : string) : Payload.t :=
  Payload.mk "DELIVERY_ACCEPTED" orderId (Some Examples.origin) None AVAILABLE None.

(** A request tag in lower case. *)
Definition misspelt (orderId : string) : Payload.t :=
  Payload.mk "ride_request" orderId (Some Examples.origin) None UNAVAILABLE None.

(** Start-up, the first refresh, and two drivers and a courier reporting. *)
Definition morning : list Event :=
  [ refresh;
    Inbound 10 "w1" (Some (Examples.availability AVAILABLE (Some Examples.near)));
    Inbound 20 "w2" (Some (Examples.availability AVAILABLE (Some Examples.far)));
    Inbound 30 "l1" (Some (Examples.availability AVAILABLE (Some Examples.near))) ].

(** The same messages and a tick, with no refresh before them. *)
Definition too_early : list Event :=
  [ Inbound 10 "w1" (Some (Examples.availability AVAILABLE (Some Examples.near)));
    Inbound 1000 "cust" (Some (Examples.ride "order-1" (Some Examples.origin) None));
    DispatchTick 31000;
    Inbound 32000 "w1" (Some (Examples.accepted "order-1")) ].

(** What happens around driver w1 without a message of w1. *)
Definition others_at_work : list Event :=
  [ Inbound 40 "w2" (Some (Examples.availability UNAVAILABLE None));
    Inbound 1000 "cust" (Some (Examples.ride "order-1" (Some Examples.origin) None));
    DispatchTick 31000;
    refresh;
    Inbound 32000 "w2" (Some (Examples.accepted "order-1")) ].

(** The drivers' list now holds w2 alone; w1, still AVAILABLE in the
    registry, reports UNAVAILABLE and AVAILABLE again. *)
Definition w1_delisted : State.t :=
  refreshDriverLists (Some (true, lists))
    (fun _ => Some ["w2"]) members Examples.two_drivers.

Definition w1_signs_off : list Event :=
  [ Inbound 5000 "w1" (Some (Examples.availability UNAVAILABLE None));
    DispatchTick 6000;
    Inbound 7000 "w1" (Some (Examples.availability AVAILABLE (Some Examples.far))) ].

(** After order-1 is offered to w1 at 31000: ticks inside the interval,
    an availability report, an accept for another order. *)
Definition inside_the_interval : list Event :=
  [ DispatchTick 32000;
    Inbound 33000 "w2" (Some (Examples.availability UNAVAILABLE None));
    Inbound 34000 "w2" (Some (Examples.accepted "order-7"));
    DispatchTick 60999 ].

(** A pickup on the equator, west of the legacy location. *)
Definition on_the_equator : Location.t := Location.mk 0 (-7.5).

Definition mixed : Payload.t :=
  Examples.ride "order-4" (Some on_the_equator) (Some Examples.origin).

(** w3 reports first, from the place where w1 reports later. *)
Definition two_at_one_place : State.t :=
  handleDriverAvailability 30 "w1" (Examples.availability AVAILABLE (Some Examples.near))
    (handleDriverAvailability 20 "w2" (Examples.availability AVAILABLE (Some Examples.far))
       (handleDriverAvailability 10 "w3"
          (Examples.availability AVAILABLE (Some Examples.near)) Examples.boot)).

(** The distance from the origin to that place. *)
Definition to_that_place : float :=
  getDistance (M := SoftMath.math) 33.5 (-7.625) 33.515625 (-7.625).

(** The morning goes on: a ride is asked for and offered to both drivers. *)
Definition rush : list Event :=
  (morning ++
   [ Inbound 1000 "cust" (Some (Examples.ride "order-1" (Some Examples.origin) None));
     DispatchTick 31000;
     DispatchTick 61000 ])%list.

End Scenarios.

(** ** Worked examples: handlers that overlap *)

Module Races.

Definition request : Event :=
  Inbound 1000 "cust" (Some (Examples.ride "order-1" (Some Examples.origin) None)).

(** The morning is over and order-1 is queued; every handler so far ran alone. *)
Definition queued : Machine.t :=
  Machine.serial (M := SoftMath.math) Scenarios.bot 5
    (Scenarios.morning ++ [request])%list Machine.initial.



(** Two ticks start before the first [sendDM] returns. *)
Definition two_ticks : list Machine.Action :=
  [ Machine.Start (DispatchTick 31000);
    Machine.Start (DispatchTick 32000);
    Machine.Resume 0;
    Machine.Resume 0 ].

(** Driver w1 accepts while the tick that offers the ride waits in [sendDM]:
    the accept is handled first, then the tick goes on, then the accept. *)
Definition accept_meanwhile : list Machine.Action :=
  [ Machine.Start (DispatchTick 31000);
    Machine.Start (Inbound 31500 "w1" (Some (Examples.accepted "order-1")));
    Machine.Resume 0;
    Machine.Resume 0 ].

(** Both drivers were offered order-1, one interval apart. *)
Definition offered_twice : Machine.t :=
  Machine.serial (M := SoftMath.math) Scenarios.bot 5
    [DispatchTick 31000; DispatchTick 61000] queued.

(** Order-1 is assigned to w1, and every handler is through. *)
Definition assigned : Machine.t :=
  Machine.serial (M := SoftMath.math) Scenarios.bot 5
    [DispatchTick 31000; Inbound 32000 "w1" (Some (Examples.accepted "order-1"))]
    queued.

(** What goes on afterwards, the handlers overlapping: a tick, a late accept,
    another order and its offer, a refresh. *)
Definition afterwards : list Machine.Action :=
  [ Machine.Start (DispatchTick 61000);
    Machine.Start (Inbound 62000 "w2" (Some (Examples.accepted "order-1")));
    Machine.Start
      (Inbound 63000 "cust" (Some (Examples.ride "order-7" (Some Examples.origin) None)));
    Machine.Start (DispatchTick 91000);
    Machine.Start Scenarios.refresh;
    Machine.Start (DispatchTick 92000);
    Machine.Resume 1;
    Machine.Resume 0;
    Machine.Resume 1;
    Machine.Resume 0 ].

(** What the scenarios look at: status, cursor, notified drivers and time of
    the last offer of an object, and the number of its candidates. *)
Definition observe (ref : nat) (m : Machine.t)
    : option (RequestStatus * nat * list string * Z * nat) :=
  option_map
    (fun r =>
       (ActiveRequest.status r, ActiveRequest.nextCandidateIndex r,
        ActiveRequest.notifiedDrivers r, ActiveRequest.lastNotificationTime r,
        length (ActiveRequest.candidates r)))
    (Machine.objects m !! ref).

Definition recipients (m : Machine.t) : list string := List.map fst (Machine.sent m).

End Races.

(** * Properties *)

(** ** The map *)

Section JSMapFacts.
Context {V : Type}.
Implicit Types (m : JSMap.t V) (k : string) (v : V).

Lemma get_set_eq m k v : JSMap.get (JSMap.set m k v) k = Some v.
Proof.
  induction m as [|[k' v'] m IH]; simpl.
  - now rewrite String.eqb_refl.
  - destruct (String.eqb k' k) eqn:E; simpl; rewrite E; auto.
Qed.

Lemma get_set_ne m k k' v :
  k <> k' -> JSMap.get (JSMap.set m k v) k' = JSMap.get m k'.
Proof.
  intros Hne. induction m as [|[k0 v0] m IH]; simpl.
  - apply String.eqb_neq in Hne. now rewrite Hne.
  - destruct (String.eqb k0 k) eqn:E; simpl.
    + apply String.eqb_eq in E. subst k0.
      apply String.eqb_neq in Hne. now rewrite Hne.
    + destruct (String.eqb k0 k'); auto.
Qed.


(** Overwriting a present key keeps every key in its place. *)
Lemma keys_set_present m k v v0 :
  JSMap.get m k = Some v0 -> JSMap.keys (JSMap.set m k v) = JSMap.keys m.
Proof.
  induction m as [|[k' v'] m IH]; simpl; [discriminate|].
  destruct (String.eqb k' k) eqn:E; simpl; intros H; [reflexivity|].
  f_equal. now apply IH.
Qed.

End JSMapFacts.

(** ** The scheduler, entry by entry *)

Lemma get_processEntries now drivers entries k :
  JSMap.get (fst (processEntries now drivers entries)) k =
  option_map (fun r => fst (processRequest now drivers r)) (JSMap.get entries k).
Proof.
  induction entries as [|[k' r] rest IH]; simpl; [reflexivity|].
  destruct (String.eqb k' k) eqn:E; simpl;
    destruct (processRequest now drivers r) as [r' out];
    destruct (processEntries now drivers rest) as [rest' outs];
    simpl in *; rewrite E; [reflexivity | exact IH].
Qed.

Lemma processRequests_requests now st :
  State.activeRequests (processRequests now st) =
  fst (processEntries now (State.drivers st) (State.activeRequests st)).
Proof.
  unfold processRequests.
  now destruct (processEntries now (State.drivers st) (State.activeRequests st)).
Qed.

Lemma processRequests_sent now st :
  State.sent (processRequests now st) =
  (State.sent st ++
   snd (processEntries now (State.drivers st) (State.activeRequests st)))%list.
Proof.
  unfold processRequests.
  now destruct (processEntries now (State.drivers st) (State.activeRequests st)).
Qed.

(** The messages of a tick are those of its entries, in the order of the map. *)
Lemma processEntries_sent now drivers entries :
  snd (processEntries now drivers entries) =
  List.concat (List.map (fun e => snd (processRequest now drivers (snd e))) entries).
Proof.
  induction entries as [|[k r] rest IH]; simpl; [reflexivity|].
  destruct (processRequest now drivers r) as [r' out].
  destruct (processEntries now drivers rest) as [rest' outs].
  simpl in *. now rewrite IH.
Qed.

(** ** Acceptance *)

Lemma sent_fold_sendDM (f : string -> Message) (l : list string) (st : State.t) :
  fold_left (fun s d => sendDM d (f d) s) l st =
  State.set_sent (State.sent st ++ List.map (fun d => (d, f d)) l)%list st.
Proof.
  revert st. induction l as [|d l IH]; intros st; simpl.
  - rewrite app_nil_r. now destruct st.
  - rewrite IH. unfold sendDM, State.set_sent. simpl.
    now rewrite <- app_assoc.
Qed.

(** What [handleAccept] does to a PENDING request. *)
Lemma handleAccept_pending senderDid payload st req :
  JSMap.get (State.activeRequests st) (Payload.orderId payload) = Some req ->
  ActiveRequest.status req = PENDING ->
  handleAccept senderDid payload st =
  State.mk (State.drivers st)
    (JSMap.set (State.activeRequests st) (Payload.orderId payload)
       (ActiveRequest.set_status ASSIGNED req))
    (State.validDrivers st) (State.validLivreurs st)
    (State.sent st ++
     [(ActiveRequest.customerDid req,
       ORDER_ASSIGNED (Payload.orderId payload) senderDid
         (match JSMap.get (State.drivers st) senderDid with
          | Some d => DriverState.location d
          | None => None
          end))] ++
     List.map (fun d => (d, ORDER_TAKEN_BY_OTHER (Payload.orderId payload)))
       (List.filter (fun d => negb (String.eqb d senderDid))
          (ActiveRequest.notifiedDrivers req)) ++
     [(senderDid,
       ORDER_CONFIRMED (Payload.orderId payload) (ActiveRequest.customerDid req)
         (ActiveRequest.data req))])%list.
Proof.
  intros Hget Hst. unfold handleAccept. rewrite Hget, Hst. simpl.
  rewrite (sent_fold_sendDM (fun _ => ORDER_TAKEN_BY_OTHER (Payload.orderId payload))).
  unfold sendDM, State.set_sent, State.set_activeRequests. simpl.
  now rewrite <- !app_assoc.
Qed.

(** C2, as amended: an accept event whose request id is not in the store
    sends nothing (the handler only logs the event) and changes nothing. *)
Theorem accept_unknown_is_silent senderDid payload st :
  JSMap.get (State.activeRequests st) (Payload.orderId payload) = None ->
  handleAccept senderDid payload st = st.
Proof.
  intros Hnone. unfold handleAccept. now rewrite Hnone.
Qed.

Lemma accept_unknown_is_silent_witness :
  handleAccept "w2" (Examples.accepted "order-9") Examples.offered = Examples.offered.
Proof.
  apply (accept_unknown_is_silent "w2" (Examples.accepted "order-9") Examples.offered).
  vm_compute. reflexivity.
Defined.

(** C2, as stated, fails: after an accept for an id that no request has, the
    transport log holds no message for the accepting worker (nor any other). *)
Lemma accept_unknown_sends_nothing :
  State.sent (handleAccept "w2" (Examples.accepted "order-9") Examples.two_drivers) = [].
Proof. vm_compute. reflexivity. Qed.

(** C3: with R PENDING and notified workers [c1; c3], [Accept(R, c3)] sets R
    to ASSIGNED and sends "assigned" to the requester, "taken by other" to
    c1 and "confirmed" to c3, leaving every other request as it was; the
    following [Accept(R, c1)] sends "already taken" to c1 and changes no
    stored state. *)
Theorem accept_first_wins st R c1 c3 req p3 p1 :
  JSMap.get (State.activeRequests st) R = Some req ->
  ActiveRequest.status req = PENDING ->
  ActiveRequest.notifiedDrivers req = [c1; c3] ->
  c1 <> c3 ->
  Payload.orderId p3 = R ->
  Payload.orderId p1 = R ->
  let st1 := handleAccept c3 p3 st in
  let st2 := handleAccept c1 p1 st1 in
  JSMap.get (State.activeRequests st1) R = Some (ActiveRequest.set_status ASSIGNED req)
  /\ (forall id, id <> R ->
        JSMap.get (State.activeRequests st1) id = JSMap.get (State.activeRequests st) id)
  /\ State.sent st1 =
       (State.sent st ++
        [(ActiveRequest.customerDid req,
          ORDER_ASSIGNED R c3
            (match JSMap.get (State.drivers st) c3 with
             | Some d => DriverState.location d
             | None => None
             end));
         (c1, ORDER_TAKEN_BY_OTHER R);
         (c3, ORDER_CONFIRMED R (ActiveRequest.customerDid req) (ActiveRequest.data req))])%list
  /\ State.sent st2 = (State.sent st1 ++ [(c1, ORDER_ALREADY_TAKEN R)])%list
  /\ State.activeRequests st2 = State.activeRequests st1
  /\ State.drivers st2 = State.drivers st1.
Proof.
  intros Hget Hpending Hnotified Hne H3 H1 st1 st2. subst R.
  assert (E1 : st1 = _) by exact (handleAccept_pending c3 p3 st req Hget Hpending).
  rewrite Hnotified in E1. simpl in E1.
  assert (Ec1 : String.eqb c1 c3 = false) by now apply String.eqb_neq.
  rewrite Ec1, String.eqb_refl in E1. simpl in E1.
  assert (Hget1 : JSMap.get (State.activeRequests st1) (Payload.orderId p3)
                  = Some (ActiveRequest.set_status ASSIGNED req)).
  { rewrite E1. simpl. apply get_set_eq. }
  assert (E2 : st2 = sendDM c1 (ORDER_ALREADY_TAKEN (Payload.orderId p3)) st1).
  { unfold st2, handleAccept. rewrite H1, Hget1. reflexivity. }
  repeat split.
  - exact Hget1.
  - intros id Hid. rewrite E1. simpl. now apply get_set_ne.
  - rewrite E1. reflexivity.
  - rewrite E2. reflexivity.
  - rewrite E2. reflexivity.
  - rewrite E2. reflexivity.
Qed.

Lemma accept_first_wins_witness :
  State.sent
    (handleAccept "w1" (Examples.accepted "order-1")
       (handleAccept "w2" (Examples.accepted "order-1") Examples.offered_twice)) =
  (State.sent (handleAccept "w2" (Examples.accepted "order-1") Examples.offered_twice)
   ++ [("w1", ORDER_ALREADY_TAKEN "order-1")])%list.
Proof.
  destruct (JSMap.get (State.activeRequests Examples.offered_twice) "order-1")
    as [req|] eqn:E; [|vm_compute in E; discriminate E].
  assert (Hreq : ActiveRequest.status req = PENDING
                 /\ ActiveRequest.notifiedDrivers req = ["w1"; "w2"]).
  { vm_compute in E. injection E as <-. split; reflexivity. }
  destruct Hreq as [Hs Hn].
  apply (accept_first_wins Examples.offered_twice "order-1" "w1" "w2" req
           (Examples.accepted "order-1") (Examples.accepted "order-1") E Hs Hn);
    [discriminate | reflexivity | reflexivity].
Defined.

(** ** Availability updates *)

Lemma Set_has_true s x : Set_has s x = true <-> x ∈ s.
Proof. unfold Set_has. apply bool_decide_eq_true. Qed.

(** C10: a sender listed both as a driver and as a livreur is stored with
    class DRIVERS; in general the stored class is read off the two sets
    alone, the drivers' set first, whatever the payload says. *)
Theorem availability_class_drivers_first now senderDid payload st :
  senderDid ∈ State.validDrivers st ->
  senderDid ∈ State.validLivreurs st ->
  JSMap.get (State.drivers (handleDriverAvailability now senderDid payload st)) senderDid
  = Some (DriverState.mk (Payload.status payload) (Payload.location payload)
            now DRIVERS senderDid)
  /\ (forall now' sender' payload' st',
        option_map DriverState.type
          (JSMap.get
             (State.drivers (handleDriverAvailability now' sender' payload' st'))
             sender') =
        if Set_has (State.validDrivers st') sender' then Some DRIVERS
        else if Set_has (State.validLivreurs st') sender' then Some LIVREURS
        else option_map DriverState.type (JSMap.get (State.drivers st') sender')).
Proof.
  intros Hd Hl. split.
  - unfold handleDriverAvailability.
    apply Set_has_true in Hd. rewrite Hd. simpl. apply get_set_eq.
  - intros now' sender' payload' st'. unfold handleDriverAvailability.
    destruct (Set_has (State.validDrivers st') sender').
    + simpl. now rewrite get_set_eq.
    + destruct (Set_has (State.validLivreurs st') sender'); simpl.
      * now rewrite get_set_eq.
      * reflexivity.
Qed.

Lemma availability_class_drivers_first_witness :
  JSMap.get
    (State.drivers
       (handleDriverAvailability 40 "both"
          (Examples.availability AVAILABLE (Some Examples.near)) Examples.boot))
    "both"
  = Some (DriverState.mk AVAILABLE (Some Examples.near) 40 DRIVERS "both").
Proof.
  apply (availability_class_drivers_first 40 "both"
           (Examples.availability AVAILABLE (Some Examples.near)) Examples.boot).
  - apply Set_has_true. vm_compute. reflexivity.
  - apply Set_has_true. vm_compute. reflexivity.
Defined.

(** ** Requests *)

Section RequestFacts.
Context {M : MathObject}.

Lemma truthy_zero x : PrimFloat.eqb x 0%float = true -> Number.truthy x = false.
Proof. intros H. unfold Number.truthy. now rewrite H. Qed.

(** [handleRequest] when the origin is there. *)
Lemma handleRequest_located now senderDid payload st lat lon :
  reqLat payload = Some lat -> reqLon payload = Some lon ->
  Number.truthy lat = true -> Number.truthy lon = true ->
  handleRequest now senderDid payload st =
  match computeCandidates (State.drivers st) (reqType payload) lat lon with
  | [] => sendDM senderDid (NO_DRIVERS_AVAILABLE (Payload.orderId payload)) st
  | c :: cs =>
      State.set_activeRequests
        (JSMap.set (State.activeRequests st) (Payload.orderId payload)
           (newRequest now senderDid payload (c :: cs))) st
  end.
Proof.
  intros Hlat Hlon Tlat Tlon. unfold handleRequest.
  rewrite Hlat, Hlon, Tlat, Tlon. simpl.
  now destruct (computeCandidates (State.drivers st) (reqType payload) lat lon).
Qed.

(** C7: a request with a valid origin and no candidate creates nothing, and
    its sender is sent NO_DRIVERS_AVAILABLE with the order id, once. *)
Theorem no_candidates_notifies_requester_once now senderDid payload st lat lon :
  reqLat payload = Some lat -> reqLon payload = Some lon ->
  Number.truthy lat = true -> Number.truthy lon = true ->
  computeCandidates (State.drivers st) (reqType payload) lat lon = [] ->
  let st' := handleRequest now senderDid payload st in
  State.activeRequests st' = State.activeRequests st
  /\ State.drivers st' = State.drivers st
  /\ State.sent st' =
     (State.sent st ++ [(senderDid, NO_DRIVERS_AVAILABLE (Payload.orderId payload))])%list.
Proof.
  intros Hlat Hlon Tlat Tlon Hnone st'. unfold st'.
  rewrite (handleRequest_located now senderDid payload st lat lon) by assumption.
  rewrite Hnone. repeat split.
Qed.

(** C9: an origin whose latitude or longitude is 0 counts as missing (the
    request is dropped: nothing is stored, nothing is sent), and a pickup
    coordinate equal to 0 gives way to the legacy [deliveryLocation]
    coordinate; when that one is absent too the origin is [undefined] and the
    request is dropped all the same. *)
Theorem zero_origin_is_missing now senderDid payload st :
  (is_zero_coordinate (reqLat payload) = true
   \/ is_zero_coordinate (reqLon payload) = true ->
   handleRequest now senderDid payload st = st)
  /\ (forall loc, Payload.pickup payload = Some loc ->
        PrimFloat.eqb (Location.latitude loc) 0%float = true ->
        reqLat payload = option_map Location.latitude (Payload.deliveryLocation payload))
  /\ (forall loc, Payload.pickup payload = Some loc ->
        PrimFloat.eqb (Location.longitude loc) 0%float = true ->
        reqLon payload = option_map Location.longitude (Payload.deliveryLocation payload))
  /\ (reqLat payload = None \/ reqLon payload = None ->
      handleRequest now senderDid payload st = st).
Proof.
  repeat split.
  - unfold handleRequest, is_zero_coordinate.
    destruct (reqLat payload) as [lat|]; [|reflexivity].
    destruct (reqLon payload) as [lon|]; [|reflexivity].
    intros [H|H]; apply truthy_zero in H; rewrite H; simpl; [reflexivity|].
    now rewrite orb_true_r.
  - intros loc Hp Hz. unfold reqLat. rewrite Hp. simpl.
    now rewrite (truthy_zero _ Hz).
  - intros loc Hp Hz. unfold reqLon. rewrite Hp. simpl.
    now rewrite (truthy_zero _ Hz).
  - unfold handleRequest. intros [H|H]; rewrite H; [reflexivity|].
    now destruct (reqLat payload).
Qed.

End RequestFacts.

Lemma no_candidates_notifies_requester_once_witness :
  State.sent
    (handleRequest (M := SoftMath.math) 1000 "cust"
       (Examples.ride "order-1" (Some Examples.origin) None) Examples.boot)
  = [("cust", NO_DRIVERS_AVAILABLE "order-1")].
Proof.
  apply (no_candidates_notifies_requester_once (M := SoftMath.math) 1000 "cust"
           (Examples.ride "order-1" (Some Examples.origin) None) Examples.boot
           33.5%float (-7.625)%float);
    vm_compute; reflexivity.
Defined.

(** A pickup on the equator with a legacy location beside it: the latitude
    comes from the legacy field.  When that one is on the equator too the
    request is dropped. *)
Lemma zero_origin_is_missing_witness :
  reqLat (Examples.ride "order-2" (Some Examples.equator) (Some Examples.origin))
  = Some 33.5%float
  /\ handleRequest (M := SoftMath.math) 1000 "cust"
       (Examples.ride "order-2" (Some Examples.equator) (Some Examples.equator))
       Examples.two_drivers
     = Examples.two_drivers.
Proof.
  split.
  - apply (proj1 (proj2 (zero_origin_is_missing (M := SoftMath.math) 1000 "cust"
             (Examples.ride "order-2" (Some Examples.equator) (Some Examples.origin))
             Examples.two_drivers)) Examples.equator); vm_compute; reflexivity.
  - apply (proj1 (zero_origin_is_missing (M := SoftMath.math) 1000 "cust"
             (Examples.ride "order-2" (Some Examples.equator) (Some Examples.equator))
             Examples.two_drivers)).
    left. vm_compute. reflexivity.
Defined.

(** ** The scheduler tick *)

Lemma unavailable_lookup drivers did :
  unavailable drivers did ->
  match JSMap.get drivers did with
  | Some driverState => DriverStatus_eqb (DriverState.status driverState) AVAILABLE
  | None => false
  end = false.
Proof.
  intros H. destruct (JSMap.get drivers did) as [d|] eqn:E; [|reflexivity].
  specialize (H d E). now destruct (DriverState.status d).
Qed.

Lemma processRequest_outcome now drivers req :
  tick_outcome now req (processRequest now drivers req).
Proof.
  unfold processRequest.
  destruct (ActiveRequest.status req) eqn:Es; simpl; [|constructor].
  destruct (now - ActiveRequest.lastNotificationTime req >=? DISPATCH_INTERVAL_MS)
    eqn:Et; [|constructor].
  destruct (ActiveRequest.nextCandidateIndex req <? length (ActiveRequest.candidates req))%nat
    eqn:En; [|constructor].
  apply Nat.ltb_lt in En.
  destruct (nth_error (ActiveRequest.candidates req) (ActiveRequest.nextCandidateIndex req))
    as [candidate|] eqn:Ec; [|constructor].
  destruct (match JSMap.get drivers (Candidate.did candidate) with
            | Some driverState => DriverStatus_eqb (DriverState.status driverState) AVAILABLE
            | None => false
            end).
  - apply tick_offer; auto. apply Z.geb_le in Et. lia.
  - now apply tick_skip.
Qed.

Lemma processRequest_cursor now drivers req :
  let r' := fst (processRequest now drivers req) in
  (ActiveRequest.nextCandidateIndex req <= ActiveRequest.nextCandidateIndex r'
   <= S (ActiveRequest.nextCandidateIndex req))%nat.
Proof.
  destruct (processRequest_outcome now drivers req); simpl; lia.
Qed.

(** C4: when the interval has elapsed for a PENDING request and the worker of
    its current candidate is not AVAILABLE in the registry, the tick moves the
    cursor one position forward, changes nothing else of the request
    ([lastNotificationTime], status, candidates and notified drivers stay)
    and sends nothing for it: the messages of a tick are those of the loop
    body on each entry, and the body sends none here.  Whatever the case, a
    tick moves the cursor of a request by at most one position. *)
Theorem tick_skips_unavailable_candidate now st id req candidate :
  JSMap.get (State.activeRequests st) id = Some req ->
  ActiveRequest.status req = PENDING ->
  DISPATCH_INTERVAL_MS <= now - ActiveRequest.lastNotificationTime req ->
  nth_error (ActiveRequest.candidates req) (ActiveRequest.nextCandidateIndex req)
    = Some candidate ->
  unavailable (State.drivers st) (Candidate.did candidate) ->
  let req' := ActiveRequest.set_nextCandidateIndex
                (S (ActiveRequest.nextCandidateIndex req)) req in
  processRequest now (State.drivers st) req = (req', [])
  /\ JSMap.get (State.activeRequests (processRequests now st)) id = Some req'
  /\ ActiveRequest.nextCandidateIndex req' = S (ActiveRequest.nextCandidateIndex req)
  /\ ActiveRequest.lastNotificationTime req' = ActiveRequest.lastNotificationTime req
  /\ ActiveRequest.status req' = ActiveRequest.status req
  /\ ActiveRequest.candidates req' = ActiveRequest.candidates req
  /\ ActiveRequest.notifiedDrivers req' = ActiveRequest.notifiedDrivers req
  /\ State.sent (processRequests now st) =
     (State.sent st ++
      List.concat
        (List.map (fun e => snd (processRequest now (State.drivers st) (snd e)))
           (State.activeRequests st)))%list
  /\ (forall id0 r,
        JSMap.get (State.activeRequests st) id0 = Some r ->
        exists r',
          JSMap.get (State.activeRequests (processRequests now st)) id0 = Some r'
          /\ (ActiveRequest.nextCandidateIndex r <= ActiveRequest.nextCandidateIndex r'
              <= S (ActiveRequest.nextCandidateIndex r))%nat).
Proof.
  intros Hget Hs Ht Hc Hu req'.
  assert (Hstep : processRequest now (State.drivers st) req = (req', [])).
  { unfold processRequest. rewrite Hs. simpl.
    apply Z.geb_le in Ht. rewrite Ht.
    assert (Hlt : (ActiveRequest.nextCandidateIndex req
                   <? length (ActiveRequest.candidates req))%nat = true).
    { apply Nat.ltb_lt. apply nth_error_Some. now rewrite Hc. }
    rewrite Hlt, Hc. now rewrite (unavailable_lookup _ _ Hu). }
  split; [exact Hstep|].
  split.
  { rewrite processRequests_requests, get_processEntries, Hget. simpl.
    now rewrite Hstep. }
  do 5 (split; [reflexivity|]).
  split; [now rewrite processRequests_sent, processEntries_sent|].
  intros id0 r Hr. eexists. split.
  - rewrite processRequests_requests, get_processEntries, Hr. reflexivity.
  - apply processRequest_cursor.
Qed.

Lemma tick_skips_unavailable_candidate_witness :
  option_map
    (fun r => (ActiveRequest.nextCandidateIndex r, ActiveRequest.lastNotificationTime r))
    (JSMap.get
       (State.activeRequests (processRequests 31000 Examples.nearest_went_offline))
       "order-1")
  = Some (1%nat, 0).
Proof.
  destruct (JSMap.get (State.activeRequests Examples.nearest_went_offline) "order-1")
    as [req|] eqn:E; [|vm_compute in E; discriminate E].
  destruct (nth_error (ActiveRequest.candidates req) (ActiveRequest.nextCandidateIndex req))
    as [candidate|] eqn:Ec;
    [|vm_compute in E; injection E as <-; vm_compute in Ec; discriminate Ec].
  assert (Hreq : ActiveRequest.status req = PENDING
                 /\ ActiveRequest.lastNotificationTime req = 0
                 /\ ActiveRequest.nextCandidateIndex req = 0%nat
                 /\ Candidate.did candidate = "w1").
  { vm_compute in E. injection E as <-. vm_compute in Ec. injection Ec as <-.
    repeat split. }
  destruct Hreq as (Hs & Hl & Hn & Hd).
  assert (Ht : DISPATCH_INTERVAL_MS <= 31000 - ActiveRequest.lastNotificationTime req).
  { rewrite Hl. vm_compute. discriminate. }
  assert (Hu : unavailable (State.drivers Examples.nearest_went_offline)
                 (Candidate.did candidate)).
  { rewrite Hd. intros d Hw. vm_compute in Hw. injection Hw as <-. discriminate. }
  destruct (tick_skips_unavailable_candidate 31000 Examples.nearest_went_offline
              "order-1" req candidate E Hs Ht Ec Hu) as (_ & Hget & _).
  rewrite Hget. simpl. now rewrite Hn, Hl.
Defined.

(** ** Creation under an id that is already stored *)

Section Creation.
Context {M : MathObject}.

(** C1, as amended: a creation call whose id is already in the store does not
    fail (the handler has no DuplicateRequest outcome).  With a valid origin
    and at least one candidate, the stored request is replaced, in its place
    in the map, by a new PENDING request with cursor 0, no notified driver,
    [lastNotificationTime] 0 and the candidates computed by this call; the
    other requests stay and nothing is sent. *)
Theorem duplicate_request_overwrites now senderDid payload st old lat lon c cs :
  JSMap.get (State.activeRequests st) (Payload.orderId payload) = Some old ->
  reqLat payload = Some lat -> reqLon payload = Some lon ->
  Number.truthy lat = true -> Number.truthy lon = true ->
  computeCandidates (State.drivers st) (reqType payload) lat lon = c :: cs ->
  let st' := handleRequest now senderDid payload st in
  JSMap.get (State.activeRequests st') (Payload.orderId payload)
    = Some (ActiveRequest.mk (Payload.orderId payload)
              (if isDelivery payload then DELIVERY else RIDE)
              PENDING senderDid (c :: cs) 0%nat [] payload now 0)
  /\ JSMap.keys (State.activeRequests st') = JSMap.keys (State.activeRequests st)
  /\ (forall id, id <> Payload.orderId payload ->
        JSMap.get (State.activeRequests st') id = JSMap.get (State.activeRequests st) id)
  /\ State.sent st' = State.sent st.
Proof.
  intros Hold Hlat Hlon Tlat Tlon Hcs st'. unfold st'.
  rewrite (handleRequest_located now senderDid payload st lat lon) by assumption.
  rewrite Hcs. simpl. repeat split.
  - apply get_set_eq.
  - now apply keys_set_present with (v0 := old).
  - intros id Hid. apply get_set_ne. congruence.
Qed.

End Creation.

Lemma duplicate_request_overwrites_witness :
  option_map
    (fun r => (ActiveRequest.status r, ActiveRequest.nextCandidateIndex r,
               ActiveRequest.notifiedDrivers r, ActiveRequest.timestamp r))
    (JSMap.get
       (State.activeRequests
          (handleRequest (M := SoftMath.math) 40000 "cust"
             (Examples.ride "order-1" (Some Examples.origin) None) Examples.offered))
       "order-1")
  = Some (PENDING, 0%nat, [], 40000).
Proof.
  destruct (JSMap.get (State.activeRequests Examples.offered) "order-1")
    as [old|] eqn:E; [|vm_compute in E; discriminate E].
  destruct (computeCandidates (M := SoftMath.math) (State.drivers Examples.offered)
              (reqType (Examples.ride "order-1" (Some Examples.origin) None))
              33.5%float (-7.625)%float) as [|c cs] eqn:Ec;
    [vm_compute in Ec; discriminate Ec|].
  assert (Hlat : reqLat (Examples.ride "order-1" (Some Examples.origin) None)
                 = Some 33.5%float) by (vm_compute; reflexivity).
  assert (Hlon : reqLon (Examples.ride "order-1" (Some Examples.origin) None)
                 = Some (-7.625)%float) by (vm_compute; reflexivity).
  assert (Tlat : Number.truthy 33.5%float = true) by (vm_compute; reflexivity).
  assert (Tlon : Number.truthy (-7.625)%float = true) by (vm_compute; reflexivity).
  destruct (duplicate_request_overwrites (M := SoftMath.math) 40000 "cust"
              (Examples.ride "order-1" (Some Examples.origin) None) Examples.offered
              old 33.5%float (-7.625)%float c cs E Hlat Hlon Tlat Tlon Ec)
    as (Hget & _).
  cbn [Payload.orderId Examples.ride] in Hget. rewrite Hget. reflexivity.
Defined.

(** C1, as stated, fails: the request of order-1 has been offered to w1
    (cursor 1, w1 notified) when the customer's message arrives again; the
    second call is not rejected, and the stored request is back at cursor 0
    with nobody notified. *)
Lemma duplicate_request_resets_cursor :
  option_map
    (fun r => (ActiveRequest.nextCandidateIndex r, ActiveRequest.notifiedDrivers r,
               ActiveRequest.lastNotificationTime r))
    (JSMap.get (State.activeRequests Examples.offered) "order-1")
  = Some (1%nat, ["w1"], 31000)
  /\ option_map
       (fun r => (ActiveRequest.nextCandidateIndex r, ActiveRequest.notifiedDrivers r,
                  ActiveRequest.lastNotificationTime r))
       (JSMap.get
          (State.activeRequests
             (handleRequest (M := SoftMath.math) 40000 "cust"
                (Examples.ride "order-1" (Some Examples.origin) None) Examples.offered))
          "order-1")
     = Some (0%nat, [], 0)
  /\ State.sent
       (handleRequest (M := SoftMath.math) 40000 "cust"
          (Examples.ride "order-1" (Some Examples.origin) None) Examples.offered)
     = State.sent Examples.offered.
Proof. vm_compute. repeat split. Qed.

(** ** Binary64: subtraction against order

    The comparator of the sort reads the sign of [a.distance - b.distance].
    On binary64 numbers other than NaN that sign is the order of the two
    distances: the difference of two distinct numbers is never rounded to
    zero.  The proof goes through the specification of the primitive
    operations ([SpecFloat]). *)

Module Binary64.
Local Close Scope string_scope.

Lemma digits2_pos_bounds (m : positive) :
  2 ^ (Zpos (digits2_pos m) - 1) <= Zpos m < 2 ^ Zpos (digits2_pos m).
Proof.
  induction m as [m IH|m IH|]; simpl digits2_pos.
  - rewrite Pos2Z.inj_succ, (Pos2Z.inj_xI m).
    replace (Z.succ (Zpos (digits2_pos m)) - 1) with (Z.succ (Zpos (digits2_pos m) - 1)) by lia.
    rewrite !Z.pow_succ_r by lia.
    generalize dependent (2 ^ (Zpos (digits2_pos m) - 1)).
    generalize (2 ^ Zpos (digits2_pos m)). intros; lia.
  - rewrite Pos2Z.inj_succ, (Pos2Z.inj_xO m).
    replace (Z.succ (Zpos (digits2_pos m)) - 1) with (Z.succ (Zpos (digits2_pos m) - 1)) by lia.
    rewrite !Z.pow_succ_r by lia.
    generalize dependent (2 ^ (Zpos (digits2_pos m) - 1)).
    generalize (2 ^ Zpos (digits2_pos m)). intros; lia.
  - simpl. lia.
Qed.

Lemma iter_xO_value (m d : positive) :
  Zpos (Pos.iter xO m d) = Zpos m * 2 ^ Zpos d.
Proof.
  induction d as [|d IH] using Pos.peano_ind.
  - simpl. lia.
  - rewrite Pos.iter_succ, (Pos2Z.inj_xO (Pos.iter xO m d)), IH, Pos2Z.inj_succ, Z.pow_succ_r by lia. lia.
Qed.

(** The mantissa of [shl_align], when the target exponent is not above. *)
Lemma shl_align_value (m : positive) (e e' : Z) :
  e' <= e -> Zpos (fst (shl_align m e e')) = Zpos m * 2 ^ (e - e').
Proof.
  intros Hle. unfold shl_align.
  destruct (e' - e) as [|d|d] eqn:E; simpl.
  - replace (e - e') with 0 by lia. simpl. lia.
  - lia.
  - rewrite iter_xO_value. f_equal. f_equal. lia.
Qed.

Lemma bounded_facts (m : positive) (e : Z) :
  bounded prec emax m e = true ->
  -1074 <= e <= 971 /\ Zpos (digits2_pos m) <= 53
  /\ (-1074 < e -> Zpos (digits2_pos m) = 53).
Proof.
  unfold bounded, canonical_mantissa, fexp, SpecFloat.emin, prec, emax.
  intros H. apply andb_prop in H. destruct H as [H1 H2].
  apply Z.eqb_eq in H1. apply Z.leb_le in H2. lia.
Qed.

Lemma magnitude_compare (mx my : positive) (ex ey : Z) :
  bounded prec emax mx ex = true -> bounded prec emax my ey = true ->
  match ex ?= ey with
  | Lt => Lt
  | Gt => Gt
  | Eq => Pos.compare_cont Eq mx my
  end
  = (Zpos (fst (shl_align mx ex (Z.min ex ey)))
     ?= Zpos (fst (shl_align my ey (Z.min ex ey)))).
Proof.
  intros Hx Hy.
  apply bounded_facts in Hx. destruct Hx as (Hex & Hdx & Hnx).
  apply bounded_facts in Hy. destruct Hy as (Hey & Hdy & Hny).
  rewrite !shl_align_value by lia.
  pose proof (digits2_pos_bounds mx) as Bx.
  pose proof (digits2_pos_bounds my) as By.
  assert (P53 : forall d, d <= 53 -> 2 ^ d <= 2 ^ 53)
    by (intros d Hd; apply Z.pow_le_mono_r; lia).
  assert (P2 : forall k, 1 <= k -> 2 * 2 ^ (k - 1) = 2 ^ k).
  { intros k Hk. rewrite <- Z.pow_succ_r by lia. f_equal. lia. }
  assert (Ppos : forall k, 0 <= k -> 0 < 2 ^ k)
    by (intros k Hk; apply Z.pow_pos_nonneg; lia).
  destruct (Z.compare_spec ex ey) as [E|E|E].
  - subst ey. rewrite Z.min_id, Z.sub_diag. simpl (2 ^ 0).
    rewrite !Z.mul_1_r. reflexivity.
  - rewrite Z.min_l by lia. rewrite Z.sub_diag. simpl (2 ^ 0). rewrite Z.mul_1_r.
    symmetry. apply Z.compare_lt_iff.
    specialize (Hny ltac:(lia)). rewrite Hny in By.
    specialize (P53 _ Hdx). specialize (P2 (ey - ex) ltac:(lia)).
    specialize (Ppos (ey - ex - 1) ltac:(lia)).
    change (2 ^ (53 - 1)) with 4503599627370496 in By.
    change (2 ^ 53) with 9007199254740992 in *.
    nia.
  - rewrite Z.min_r by lia. rewrite Z.sub_diag. simpl (2 ^ 0). rewrite Z.mul_1_r.
    symmetry. apply Z.compare_gt_iff.
    specialize (Hnx ltac:(lia)). rewrite Hnx in Bx.
    specialize (P53 _ Hdy). specialize (P2 (ex - ey) ltac:(lia)).
    specialize (Ppos (ex - ey - 1) ltac:(lia)).
    change (2 ^ (53 - 1)) with 4503599627370496 in Bx.
    change (2 ^ 53) with 9007199254740992 in *.
    nia.
Qed.

(** Comparing two finite numbers is comparing their mantissas once they are
    brought to the smaller exponent. *)
Lemma SFcompare_finite (sx sy : bool) (mx my : positive) (ex ey : Z) :
  bounded prec emax mx ex = true -> bounded prec emax my ey = true ->
  SFcompare (S754_finite sx mx ex) (S754_finite sy my ey) =
  Some (cond_Zopp sx (Zpos (fst (shl_align mx ex (Z.min ex ey))))
        ?= cond_Zopp sy (Zpos (fst (shl_align my ey (Z.min ex ey))))).
Proof.
  intros Hx Hy. pose proof (magnitude_compare mx my ex ey Hx Hy) as Hm.
  unfold SFcompare. destruct sx, sy; cbn [cond_Zopp]; f_equal.
  - rewrite Z.compare_opp.
    rewrite (Z.compare_antisym (Zpos (fst (shl_align mx ex (Z.min ex ey))))), <- Hm.
    now destruct (ex ?= ey).
  - exact Hm.
Qed.

(** *** Rounding a non-zero integer never gives zero *)

Lemma shr_1_m (mrs : shr_record) :
  0 <= shr_m mrs -> shr_m (shr_1 mrs) = shr_m mrs / 2.
Proof.
  destruct mrs as [m r s]. simpl. intros Hm. rewrite <- Z.div2_div.
  destruct m as [|[p|p|]|p]; try reflexivity. lia.
Qed.

Lemma pow2_pos (k : Z) : 0 <= k -> 0 < 2 ^ k.
Proof. intros Hk. apply Z.pow_pos_nonneg; lia. Qed.

Lemma iter_shr_1_m (p : positive) :
  forall mrs, 0 <= shr_m mrs ->
    shr_m (SpecFloat.iter_pos shr_1 p mrs) = shr_m mrs / 2 ^ Zpos p.
Proof.
  induction p as [p IH|p IH|]; intros mrs Hm; simpl SpecFloat.iter_pos.
  - assert (H1 : 0 <= shr_m (shr_1 mrs))
      by (rewrite shr_1_m by assumption; apply Z.div_pos; lia).
    assert (H2 : 0 <= shr_m (SpecFloat.iter_pos shr_1 p (shr_1 mrs)))
      by (rewrite IH by assumption; apply Z.div_pos; [assumption | apply pow2_pos; lia]).
    rewrite (IH _ H2), (IH _ H1), shr_1_m by assumption.
    pose proof (pow2_pos (Zpos p) ltac:(lia)) as Hp.
    rewrite !Z.div_div by lia. f_equal.
    rewrite (Pos2Z.inj_xI p).
    replace (2 * Zpos p + 1) with (1 + Zpos p + Zpos p) by lia.
    rewrite !Z.pow_add_r by lia. simpl (2 ^ 1). lia.
  - assert (H2 : 0 <= shr_m (SpecFloat.iter_pos shr_1 p mrs))
      by (rewrite IH by assumption; apply Z.div_pos; [assumption | apply pow2_pos; lia]).
    rewrite (IH _ H2), (IH _ Hm).
    pose proof (pow2_pos (Zpos p) ltac:(lia)) as Hp.
    rewrite Z.div_div by lia. f_equal.
    rewrite (Pos2Z.inj_xO p).
    replace (2 * Zpos p) with (Zpos p + Zpos p) by lia.
    now rewrite Z.pow_add_r by lia.
  - rewrite shr_1_m by assumption. reflexivity.
Qed.

Lemma shr_record_of_loc_m (m : Z) (l : location) :
  shr_m (shr_record_of_loc m l) = m.
Proof. destruct l as [|[]]; reflexivity. Qed.

(** Above the least exponent, the shift of [shr_fexp] leaves a positive
    mantissa positive. *)
Lemma shr_fexp_positive (m e : Z) (l : location) :
  0 < m -> -1074 <= e ->
  0 < shr_m (fst (shr_fexp prec emax m e l))
  /\ -1074 <= snd (shr_fexp prec emax m e l).
Proof.
  intros Hm He. unfold shr_fexp, shr.
  destruct m as [|p|p]; try lia. simpl Zdigits2.
  pose proof (digits2_pos_bounds p) as Bp.
  destruct (fexp prec emax (Zpos (digits2_pos p) + e) - e) as [|q|q] eqn:En; simpl;
    rewrite ?shr_record_of_loc_m; try lia.
  unfold fexp, SpecFloat.emin, prec, emax in En.
  rewrite iter_shr_1_m by (rewrite shr_record_of_loc_m; lia).
  rewrite shr_record_of_loc_m. split; [|lia].
  apply Z.div_str_pos. split; [apply pow2_pos; lia|].
  apply Z.le_trans with (2 ^ (Zpos (digits2_pos p) - 1)); [|lia].
  apply Z.pow_le_mono_r; lia.
Qed.

Lemma round_nearest_even_positive (m : Z) (l : location) :
  0 < m -> 0 < round_nearest_even m l.
Proof.
  intros Hm. destruct l as [|[]]; simpl; try lia.
  destruct (Z.even m); lia.
Qed.

Lemma binary_round_aux_shape (s : bool) (m e : Z) (l : location) :
  0 < m -> -1074 <= e ->
  (exists m' e', binary_round_aux prec emax s m e l = S754_finite s m' e')
  \/ binary_round_aux prec emax s m e l = S754_infinity s.
Proof.
  intros Hm He. unfold binary_round_aux.
  pose proof (shr_fexp_positive m e l Hm He) as [H1 H1'].
  destruct (shr_fexp prec emax m e l) as [mrs' e']. simpl in H1, H1'.
  pose proof (shr_fexp_positive _ e' loc_Exact
                (round_nearest_even_positive _ (loc_of_shr_record mrs') H1) H1')
    as [H2 _].
  destruct (shr_fexp prec emax
              (round_nearest_even (shr_m mrs') (loc_of_shr_record mrs')) e' loc_Exact)
    as [mrs'' e'']. simpl in H2.
  destruct (shr_m mrs'') as [|p|p]; try lia.
  destruct (e'' <=? emax - prec); eauto.
Qed.

(** The sign of a rounded integer is the sign of the integer. *)
Lemma binary_normalize_compare (D e : Z) :
  -1074 <= e ->
  SFcompare (binary_normalize prec emax D e false) (S754_zero false) = Some (D ?= 0).
Proof.
  intros He. destruct D as [|p|p]; [reflexivity| |]; simpl binary_normalize;
    unfold binary_round.
  - destruct (shl_align p e (fexp prec emax (Zpos (digits2_pos p) + e)))
      as [mz ez] eqn:Ea.
    assert (Hez : -1074 <= ez).
    { unfold shl_align, fexp, SpecFloat.emin, prec, emax in Ea.
      destruct (Z.max (Zpos (digits2_pos p) + e - 53) (3 - 1024 - 53) - e) eqn:Ed;
        inversion Ea; lia. }
    destruct (binary_round_aux_shape false (Zpos mz) ez loc_Exact ltac:(lia) Hez)
      as [(m' & e' & ->)| ->]; reflexivity.
  - destruct (shl_align p e (fexp prec emax (Zpos (digits2_pos p) + e)))
      as [mz ez] eqn:Ea.
    assert (Hez : -1074 <= ez).
    { unfold shl_align, fexp, SpecFloat.emin, prec, emax in Ea.
      destruct (Z.max (Zpos (digits2_pos p) + e - 53) (3 - 1024 - 53) - e) eqn:Ed;
        inversion Ea; lia. }
    destruct (binary_round_aux_shape true (Zpos mz) ez loc_Exact ltac:(lia) Hez)
      as [(m' & e' & ->)| ->]; reflexivity.
Qed.

(** *** Subtraction and order *)

Lemma SFltb_sub (X Y : spec_float) :
  valid_binary X = true -> valid_binary Y = true ->
  X <> S754_nan -> Y <> S754_nan ->
  SFltb (SF64sub X Y) (S754_zero false) = SFltb X Y.
Proof.
  intros VX VY NX NY.
  destruct X as [sx|sx| |sx mx ex], Y as [sy|sy| |sy my ey];
    try contradiction; try (destruct sx, sy; reflexivity);
    try (destruct sx; reflexivity); try (destruct sy; reflexivity).
  simpl in VX, VY. unfold SFltb, SF64sub, SFsub.
  pose proof (bounded_facts _ _ VX) as (Hex & _).
  pose proof (bounded_facts _ _ VY) as (Hey & _).
  rewrite binary_normalize_compare by lia.
  rewrite <- Z.compare_sub.
  now rewrite SFcompare_finite by assumption.
Qed.

Lemma SFcompare_antisym (X Y : spec_float) :
  valid_binary X = true -> valid_binary Y = true ->
  SFcompare Y X = option_map CompOpp (SFcompare X Y).
Proof.
  intros VX VY.
  destruct X as [sx|sx| |sx mx ex], Y as [sy|sy| |sy my ey];
    try reflexivity; try (destruct sx, sy; reflexivity);
    try (destruct sx; reflexivity); try (destruct sy; reflexivity).
  simpl in VX, VY. rewrite !SFcompare_finite by assumption. simpl.
  rewrite (Z.min_comm ey ex). f_equal. apply Z.compare_antisym.
Qed.

Lemma SFcompare_total (X Y : spec_float) :
  X <> S754_nan -> Y <> S754_nan -> exists c, SFcompare X Y = Some c.
Proof.
  intros NX NY.
  destruct X as [sx|sx| |sx mx ex], Y as [sy|sy| |sy my ey];
    try contradiction; simpl; eauto.
Qed.

Lemma is_nan_false (x : float) : is_nan x = false -> Prim2SF x <> S754_nan.
Proof.
  unfold is_nan. rewrite FloatAxioms.eqb_spec. intros H E. rewrite E in H. discriminate H.
Qed.

(** For two numbers, [x - y] is negative exactly when [x] is below [y]. *)
Lemma ltb_sub_zero (x y : float) :
  is_nan x = false -> is_nan y = false ->
  (x - y <? 0)%float = (x <? y)%float.
Proof.
  intros Nx Ny. rewrite !FloatAxioms.ltb_spec, FloatAxioms.sub_spec.
  change (Prim2SF 0%float) with (S754_zero false).
  apply SFltb_sub; auto using Prim2SF_valid, is_nan_false.
Qed.

Lemma ltb_false_leb (x y : float) :
  is_nan x = false -> is_nan y = false ->
  (x <? y)%float = false -> (y <=? x)%float = true.
Proof.
  intros Nx Ny. rewrite FloatAxioms.ltb_spec, FloatAxioms.leb_spec. unfold SFltb, SFleb.
  rewrite (SFcompare_antisym (Prim2SF x) (Prim2SF y)) by apply Prim2SF_valid.
  destruct (SFcompare_total (Prim2SF x) (Prim2SF y)) as [c ->];
    auto using is_nan_false.
  now destruct c.
Qed.

Lemma ltb_leb (x y : float) : (x <? y)%float = true -> (x <=? y)%float = true.
Proof.
  rewrite FloatAxioms.ltb_spec, FloatAxioms.leb_spec. unfold SFltb, SFleb.
  now destruct (SFcompare (Prim2SF x) (Prim2SF y)) as [[]|].
Qed.

End Binary64.

(** ** The sort *)

Section SortFacts.
Context {A : Type} (comparefn : A -> A -> float).

Lemma sort_insert_perm x l : Permutation (sort_insert comparefn x l) (x :: l).
Proof.
  induction l as [|y l IH]; simpl; [reflexivity|].
  destruct (Number.is_negative (comparefn x y)); [reflexivity|].
  rewrite IH. apply perm_swap.
Qed.

Lemma fold_insert_perm l :
  forall acc,
    Permutation (fold_left (fun acc x => sort_insert comparefn x acc) l acc)
                (acc ++ l)%list.
Proof.
  induction l as [|x l IH]; intros acc; simpl.
  - now rewrite app_nil_r.
  - rewrite IH, sort_insert_perm. apply Permutation_cons_app. reflexivity.
Qed.

Lemma Array_sort_perm l : Permutation (Array_sort comparefn l) l.
Proof. unfold Array_sort. now rewrite fold_insert_perm. Qed.

End SortFacts.

Lemma ascendingb_spec l : ascendingb l = true <-> ascending l.
Proof.
  unfold ascending. induction l as [|a [|b l] IH].
  - split; [constructor | reflexivity].
  - split; [repeat constructor | reflexivity].
  - change (ascendingb (a :: b :: l))
      with ((Candidate.distance a <=? Candidate.distance b)%float && ascendingb (b :: l)).
    rewrite andb_true_iff, IH. split.
    + intros [Hab Hs]. constructor; [assumption | now constructor].
    + intros Hs. inversion Hs as [|? ? Hs' Hhd]; subst.
      inversion Hhd; subst. now split.
Qed.

Lemma no_NaN_perm l l' : Permutation l l' -> no_NaN l -> no_NaN l'.
Proof. intros Hp. unfold no_NaN. now apply Permutation_Forall. Qed.

(** Where no distance is NaN the comparator is the order of the distances. *)
Lemma byDistance_negative a b :
  PrimFloat.is_nan (Candidate.distance a) = false ->
  PrimFloat.is_nan (Candidate.distance b) = false ->
  Number.is_negative (byDistance a b) = true -> dist_le a b.
Proof.
  intros Na Nb. unfold Number.is_negative, byDistance, dist_le.
  rewrite Binary64.ltb_sub_zero by assumption. apply Binary64.ltb_leb.
Qed.

Lemma byDistance_not_negative a b :
  PrimFloat.is_nan (Candidate.distance a) = false ->
  PrimFloat.is_nan (Candidate.distance b) = false ->
  Number.is_negative (byDistance a b) = false -> dist_le b a.
Proof.
  intros Na Nb. unfold Number.is_negative, byDistance, dist_le.
  rewrite Binary64.ltb_sub_zero by assumption.
  now apply Binary64.ltb_false_leb.
Qed.

Lemma sort_insert_hd y x l :
  dist_le y x -> HdRel dist_le y l -> HdRel dist_le y (sort_insert byDistance x l).
Proof.
  intros Hyx Hhd. destruct l as [|z l]; simpl.
  - now constructor.
  - destruct (Number.is_negative (byDistance x z)); constructor;
      [assumption | now inversion Hhd].
Qed.

Lemma sort_insert_ascending x l :
  PrimFloat.is_nan (Candidate.distance x) = false -> no_NaN l ->
  ascending l -> ascending (sort_insert byDistance x l).
Proof.
  intros Nx Nl Hs. unfold ascending in *.
  induction l as [|y l IH]; simpl.
  - repeat constructor.
  - inversion Nl as [|? ? Ny Nl']; subst.
    inversion Hs as [|? ? Hs' Hhd]; subst.
    destruct (Number.is_negative (byDistance x y)) eqn:E.
    + constructor; [assumption|]. constructor.
      now apply byDistance_negative.
    + constructor; [now apply IH|].
      apply sort_insert_hd; [|assumption].
      now apply byDistance_not_negative.
Qed.

Lemma fold_insert_ascending l :
  forall acc,
    no_NaN acc -> no_NaN l -> ascending acc ->
    ascending (fold_left (fun acc x => sort_insert byDistance x acc) l acc).
Proof.
  induction l as [|x l IH]; intros acc Nacc Nl Hs; simpl; [assumption|].
  inversion Nl as [|? ? Nx Nl']; subst.
  apply IH; [|assumption|now apply sort_insert_ascending].
  apply no_NaN_perm with (x :: acc); [symmetry; apply sort_insert_perm|].
  now constructor.
Qed.

Lemma Array_sort_ascending l : no_NaN l -> ascending (Array_sort byDistance l).
Proof.
  intros Nl. apply fold_insert_ascending; [constructor | assumption | constructor].
Qed.

(** ** The candidates of a request *)

Section CandidateFacts.
Context {M : MathObject}.

Lemma eligible_spec reqType d :
  eligible reqType d = true <->
  DriverState.type d = reqType /\ DriverState.status d = AVAILABLE
  /\ exists loc, DriverState.location d = Some loc.
Proof.
  unfold eligible. rewrite !andb_true_iff. split.
  - intros [[Ht Hs] Hl].
    destruct (DriverState.type d), reqType; try discriminate Ht;
      destruct (DriverState.status d); try discriminate Hs;
      destruct (DriverState.location d) as [loc|]; try discriminate Hl; eauto.
  - intros (Ht & Hs & loc & Hl). rewrite Ht, Hs, Hl.
    now destruct reqType.
Qed.

Lemma computeCandidates_perm drivers reqType lat lon :
  Permutation (computeCandidates drivers reqType lat lon)
    (List.map (toCandidate lat lon)
       (List.filter (eligible reqType) (JSMap.values drivers))).
Proof. apply Array_sort_perm. Qed.

Lemma computeCandidates_ascending drivers reqType lat lon :
  no_NaN (computeCandidates drivers reqType lat lon) ->
  ascending (computeCandidates drivers reqType lat lon).
Proof.
  intros Hn. apply Array_sort_ascending.
  apply no_NaN_perm with (2 := Hn). apply computeCandidates_perm.
Qed.

(** C6, as amended: the candidate list holds exactly the workers of the
    requested class that are AVAILABLE and have a location, each with its
    distance from the origin, and it is non-decreasing in distance whenever no
    computed distance is NaN. *)
Theorem candidates_exact_and_ascending drivers reqType lat lon :
  let cs := computeCandidates drivers reqType lat lon in
  Permutation cs
    (List.map (toCandidate lat lon)
       (List.filter (eligible reqType) (JSMap.values drivers)))
  /\ (forall d,
        In d (List.filter (eligible reqType) (JSMap.values drivers)) <->
        In d (JSMap.values drivers)
        /\ DriverState.type d = reqType /\ DriverState.status d = AVAILABLE
        /\ exists loc, DriverState.location d = Some loc)
  /\ (forall d loc,
        DriverState.location d = Some loc ->
        toCandidate lat lon d =
        Candidate.mk (DriverState.did d)
          (getDistance lat lon (Location.latitude loc) (Location.longitude loc)))
  /\ (no_NaN cs -> ascending cs).
Proof.
  intros cs. unfold cs.
  split; [apply computeCandidates_perm|].
  split; [intros d; now rewrite filter_In, eligible_spec|].
  split.
  - intros d loc Hl. unfold toCandidate. now rewrite Hl.
  - apply computeCandidates_ascending.
Qed.

End CandidateFacts.

Lemma candidates_exact_and_ascending_witness :
  ascending
    (computeCandidates (M := SoftMath.math) (State.drivers Examples.two_drivers)
       DRIVERS 33.5%float (-7.625)%float).
Proof.
  apply (candidates_exact_and_ascending (M := SoftMath.math)
           (State.drivers Examples.two_drivers) DRIVERS 33.5%float (-7.625)%float).
  vm_compute. repeat constructor.
Defined.

(** C6, as stated, fails: driver w3 is AVAILABLE at a latitude that parses to
    [Infinity]; its distance is NaN, and the list that holds it is not
    non-decreasing ([11590.48... <= NaN] is false). *)
Lemma infinite_latitude_breaks_order :
  List.map Candidate.did
    (computeCandidates (M := SoftMath.math) (State.drivers Examples.three_drivers)
       DRIVERS 33.5%float (-7.625)%float)
  = ["w1"; "w2"; "w3"]
  /\ List.map (fun c => PrimFloat.is_nan (Candidate.distance c))
       (computeCandidates (M := SoftMath.math) (State.drivers Examples.three_drivers)
          DRIVERS 33.5%float (-7.625)%float)
     = [false; false; true]
  /\ ascendingb
       (computeCandidates (M := SoftMath.math) (State.drivers Examples.three_drivers)
          DRIVERS 33.5%float (-7.625)%float)
     = false.
Proof. vm_compute. repeat split. Qed.

(** ** The invariants under each operation *)

Lemma firstn_S_nth_error {A} (l : list A) n c :
  nth_error l n = Some c -> firstn (S n) l = (firstn n l ++ [c])%list.
Proof.
  revert l. induction n as [|n IH]; intros [|a l] H; try discriminate H.
  - now inversion H.
  - simpl in H. change (firstn (S (S n)) (a :: l)) with (a :: firstn (S n) l).
    now rewrite (IH l H).
Qed.

Lemma firstn_incl_S {A} (l : list A) n : incl (firstn n l) (firstn (S n) l).
Proof.
  revert l. induction n as [|n IH]; intros [|a l]; simpl; try easy.
  intros x [Hx|Hx]; [now left | right; now apply (IH l)].
Qed.

Lemma evolves_refl r : evolves r r.
Proof. constructor; auto; lia. Qed.

Lemma tick_evolves now drivers r : evolves r (fst (processRequest now drivers r)).
Proof.
  destruct (processRequest_outcome now drivers r) as [|Hs Hn|c msg Hs Ht Hc]; simpl.
  - apply evolves_refl.
  - constructor; simpl; auto; lia.
  - unfold DISPATCH_INTERVAL_MS in Ht. constructor; simpl; auto; lia.
Qed.




Lemma handleAccept_requests senderDid payload st :
  State.activeRequests (handleAccept senderDid payload st) = State.activeRequests st
  \/ exists req,
       JSMap.get (State.activeRequests st) (Payload.orderId payload) = Some req
       /\ State.activeRequests (handleAccept senderDid payload st)
          = JSMap.set (State.activeRequests st) (Payload.orderId payload)
              (ActiveRequest.set_status ASSIGNED req).
Proof.
  destruct (JSMap.get (State.activeRequests st) (Payload.orderId payload))
    as [req|] eqn:E.
  - destruct (ActiveRequest.status req) eqn:Es.
    + right. exists req. split; [reflexivity|].
      now rewrite (handleAccept_pending senderDid payload st req E Es).
    + left. unfold handleAccept. now rewrite E, Es.
  - left. unfold handleAccept. now rewrite E.
Qed.

Section InvariantFacts.
Context {M : MathObject}.


End InvariantFacts.

(** ** Binary64: negation against the other operations

    Rounding to nearest is symmetric about zero: negating an operand of a
    product or of a quotient negates the result, and a difference taken the
    other way round is the opposite number, or [+0] both ways. *)

Module Binary64Arith.
Local Close Scope string_scope.

Lemma binary_round_aux_opp (s : bool) (m e : Z) (l : location) :
  binary_round_aux prec emax (negb s) m e l
  = SFopp (binary_round_aux prec emax s m e l).
Proof.
  unfold binary_round_aux.
  destruct (shr_fexp prec emax m e l) as [mrs' e'].
  destruct (shr_fexp prec emax
              (round_nearest_even (shr_m mrs') (loc_of_shr_record mrs')) e' loc_Exact)
    as [mrs'' e''].
  destruct (shr_m mrs'') as [|p|p]; try reflexivity.
  now destruct (e'' <=? emax - prec).
Qed.

Lemma binary_round_opp (s : bool) (m : positive) (e : Z) :
  binary_round prec emax (negb s) m e = SFopp (binary_round prec emax s m e).
Proof.
  unfold binary_round.
  destruct (shl_align m e (fexp prec emax (Zpos (digits2_pos m) + e))) as [mz ez].
  apply binary_round_aux_opp.
Qed.

Lemma SFopp_involutive (X : spec_float) : SFopp (SFopp X) = X.
Proof. destruct X as [s|s| |s m e]; simpl; now rewrite ?negb_involutive. Qed.

Lemma SFmul_opp_l (X Y : spec_float) : SF64mul (SFopp X) Y = SFopp (SF64mul X Y).
Proof.
  destruct X as [sx|sx| |sx mx ex], Y as [sy|sy| |sy my ey]; simpl;
    try reflexivity; try (now destruct sx, sy).
  replace (xorb (negb sx) sy) with (negb (xorb sx sy)) by now destruct sx, sy.
  apply binary_round_aux_opp.
Qed.

Lemma SFmul_comm (X Y : spec_float) : SF64mul X Y = SF64mul Y X.
Proof.
  destruct X as [sx|sx| |sx mx ex], Y as [sy|sy| |sy my ey]; simpl;
    try reflexivity; try (now rewrite xorb_comm).
  now rewrite xorb_comm, Pos.mul_comm, Z.add_comm.
Qed.

Lemma SFdiv_opp_l (X Y : spec_float) : SF64div (SFopp X) Y = SFopp (SF64div X Y).
Proof.
  destruct X as [sx|sx| |sx mx ex], Y as [sy|sy| |sy my ey]; simpl;
    try reflexivity; try (now destruct sx, sy).
  destruct (SFdiv_core_binary prec emax (Zpos mx) ex (Zpos my) ey) as [[mz ez] lz].
  replace (xorb (negb sx) sy) with (negb (xorb sx sy)) by now destruct sx, sy.
  apply binary_round_aux_opp.
Qed.

Lemma SFsub_swap (X Y : spec_float) :
  SF64sub Y X = SFopp (SF64sub X Y)
  \/ (SF64sub X Y = S754_zero false /\ SF64sub Y X = S754_zero false).
Proof.
  destruct X as [sx|sx| |sx mx ex], Y as [sy|sy| |sy my ey];
    try (left; reflexivity);
    try (destruct sx, sy; simpl; auto; fail);
    try (left; simpl; now rewrite ?negb_involutive).
  unfold SF64sub, SFsub. rewrite (Z.min_comm ey ex).
  set (ez := Z.min ex ey).
  set (A := cond_Zopp sx (Zpos (fst (shl_align mx ex ez)))).
  set (B := cond_Zopp sy (Zpos (fst (shl_align my ey ez)))).
  destruct (A - B) as [|p|p] eqn:E.
  - right. replace (B - A) with 0 by lia. split; reflexivity.
  - left. replace (B - A) with (Zneg p) by lia. simpl.
    apply (binary_round_opp false).
  - left. replace (B - A) with (Zpos p) by lia. simpl.
    rewrite <- (SFopp_involutive (binary_round prec emax false p ez)).
    f_equal. symmetry. apply (binary_round_opp false).
Qed.

(** *** On the numbers *)

Local Open Scope float_scope.

Lemma opp_involutive (x : float) : - - x = x.
Proof. apply Prim2SF_inj. rewrite !FloatAxioms.opp_spec. apply SFopp_involutive. Qed.

Lemma mul_opp_l (x y : float) : - x * y = - (x * y).
Proof.
  apply Prim2SF_inj. rewrite FloatAxioms.opp_spec, !FloatAxioms.mul_spec, FloatAxioms.opp_spec. apply SFmul_opp_l.
Qed.

Lemma mul_comm (x y : float) : x * y = y * x.
Proof. apply Prim2SF_inj. rewrite !FloatAxioms.mul_spec. apply SFmul_comm. Qed.

Lemma mul_opp_r (x y : float) : x * - y = - (x * y).
Proof. now rewrite (mul_comm x (- y)), mul_opp_l, (mul_comm y x). Qed.

Lemma div_opp_l (x y : float) : - x / y = - (x / y).
Proof.
  apply Prim2SF_inj. rewrite FloatAxioms.opp_spec, !FloatAxioms.div_spec, FloatAxioms.opp_spec. apply SFdiv_opp_l.
Qed.

Lemma sub_swap (x y : float) : y - x = - (x - y) \/ (x - y = 0 /\ y - x = 0).
Proof.
  destruct (SFsub_swap (Prim2SF x) (Prim2SF y)) as [H|[H1 H2]].
  - left. apply Prim2SF_inj. now rewrite FloatAxioms.opp_spec, !FloatAxioms.sub_spec.
  - right. split; apply Prim2SF_inj; now rewrite FloatAxioms.sub_spec.
Qed.

(** The square of a number is the square of its opposite, and so is a
    product with the two. *)
Lemma mul_opp_opp (c t : float) : c * - t * - t = c * t * t.
Proof. now rewrite !mul_opp_r, mul_opp_l, opp_involutive. Qed.

Lemma square_opp (t : float) : - t * - t = t * t.
Proof. now rewrite mul_opp_l, mul_opp_r, opp_involutive. Qed.

(** *** Zero and NaN *)

Lemma is_nan_spec (x : float) : is_nan x = true <-> Prim2SF x = S754_nan.
Proof.
  unfold is_nan. rewrite FloatAxioms.eqb_spec. unfold SFeqb.
  destruct (Prim2SF x) as [s|s| |s m e]; cbn [SFcompare]; try (destruct s);
    rewrite ?Z.compare_refl, ?Pos.compare_cont_refl, ?Pos.compare_refl;
    cbn; split; congruence.
Qed.

Lemma is_infinity_spec (x : float) :
  is_infinity x = true <-> exists s, Prim2SF x = S754_infinity s.
Proof.
  unfold is_infinity. rewrite FloatAxioms.eqb_spec, FloatAxioms.abs_spec.
  change (Prim2SF infinity) with (S754_infinity false). unfold SFeqb.
  destruct (Prim2SF x) as [s|s| |s m e]; simpl.
  - split; [discriminate | intros [s' H]; discriminate H].
  - split; eauto.
  - split; [discriminate | intros [s' H]; discriminate H].
  - split; [discriminate | intros [s' H]; discriminate H].
Qed.

(** A number that is neither NaN nor infinite, taken from itself, is [+0]. *)
Lemma sub_diag (x : float) :
  is_nan x = false -> is_infinity x = false -> x - x = 0.
Proof.
  intros Hn Hi. apply Prim2SF_inj. rewrite FloatAxioms.sub_spec.
  change (Prim2SF 0) with (S754_zero false).
  destruct (Prim2SF x) as [s|s| |s m e] eqn:E.
  - now destruct s.
  - exfalso. assert (H : is_infinity x = true) by (apply is_infinity_spec; eauto).
    congruence.
  - exfalso. assert (H : is_nan x = true) by now apply is_nan_spec. congruence.
  - unfold SF64sub, SFsub. now rewrite Z.sub_diag.
Qed.

(** An infinite number taken from itself is NaN. *)
Lemma sub_diag_infinite (x : float) : is_infinity x = true -> x - x = nan.
Proof.
  intros Hi. apply Prim2SF_inj. rewrite FloatAxioms.sub_spec.
  apply is_infinity_spec in Hi. destruct Hi as [s ->]. now destruct s.
Qed.

Lemma mul_zero_r (y : float) :
  is_nan y = false -> is_infinity y = false ->
  exists s, Prim2SF (y * 0) = S754_zero s.
Proof.
  intros Hn Hi. rewrite FloatAxioms.mul_spec. change (Prim2SF 0) with (S754_zero false).
  destruct (Prim2SF y) as [s|s| |s m e] eqn:E; simpl; eauto; exfalso.
  - assert (H : is_infinity y = true) by (apply is_infinity_spec; eauto). congruence.
  - assert (H : is_nan y = true) by now apply is_nan_spec. congruence.
Qed.

Lemma zero_mul_zero (z : float) (s : bool) :
  Prim2SF z = S754_zero s -> Prim2SF (z * 0) = S754_zero s.
Proof.
  intros E. rewrite FloatAxioms.mul_spec, E. change (Prim2SF 0) with (S754_zero false).
  simpl. now rewrite xorb_false_r.
Qed.

Lemma zero_add_zero (z : float) (s : bool) : Prim2SF z = S754_zero s -> 0 + z = 0.
Proof.
  intros E. apply Prim2SF_inj. rewrite FloatAxioms.add_spec, E.
  change (Prim2SF 0) with (S754_zero false). now destruct s.
Qed.

Lemma nan_add (y : float) : nan + y = nan.
Proof. apply Prim2SF_inj. rewrite FloatAxioms.add_spec. reflexivity. Qed.

Lemma add_nan_r (x : float) : x + nan = nan.
Proof.
  apply Prim2SF_inj. rewrite FloatAxioms.add_spec.
  change (Prim2SF nan) with S754_nan. now destruct (Prim2SF x) as [[]|[]| |].
Qed.

Lemma mul_nan_r (x : float) : x * nan = nan.
Proof.
  apply Prim2SF_inj. rewrite FloatAxioms.mul_spec.
  change (Prim2SF nan) with S754_nan. now destruct (Prim2SF x) as [[]|[]| |].
Qed.

End Binary64Arith.

(** ** The distance, both ways and to the point itself *)

Section Distance.
Context {M : MathObject}.
Local Open Scope float_scope.
Local Close Scope string_scope.

Lemma half_difference_swap (x y : float) :
  half_difference y x = - half_difference x y
  \/ half_difference y x = half_difference x y.
Proof.
  unfold half_difference.
  destruct (Binary64Arith.sub_swap y x) as [E|[E1 E2]].
  - left. now rewrite E, Binary64Arith.mul_opp_l, !Binary64Arith.div_opp_l.
  - right. now rewrite E1, E2.
Qed.

Lemma getDistance_swap (lat1 lon1 lat2 lon2 : float) :
  Math_sin (- half_difference lat1 lat2) = - Math_sin (half_difference lat1 lat2) ->
  Math_sin (- half_difference lon1 lon2) = - Math_sin (half_difference lon1 lon2) ->
  getDistance lat2 lon2 lat1 lon1 = getDistance lat1 lon1 lat2 lon2.
Proof.
  intros Hlat Hlon. unfold getDistance. cbv zeta.
  fold (half_difference lat1 lat2) (half_difference lon1 lon2)
       (half_difference lat2 lat1) (half_difference lon2 lon1).
  rewrite (Binary64Arith.mul_comm (Math_cos (lat2 * Math_PI / 180))
             (Math_cos (lat1 * Math_PI / 180))).
  destruct (half_difference_swap lat1 lat2) as [->| ->],
           (half_difference_swap lon1 lon2) as [->| ->];
    rewrite ?Hlat, ?Hlon, ?Binary64Arith.square_opp, ?Binary64Arith.mul_opp_opp;
    reflexivity.
Qed.

Lemma getDistance_diag (lat lon : float) :
  Math_sin 0 = 0 -> Math_atan2 0 1 = 0 ->
  is_nan lat = false -> is_infinity lat = false ->
  is_nan lon = false -> is_infinity lon = false ->
  is_nan (Math_cos (lat * Math_PI / 180) * Math_cos (lat * Math_PI / 180)) = false ->
  is_infinity (Math_cos (lat * Math_PI / 180) * Math_cos (lat * Math_PI / 180)) = false ->
  getDistance lat lon lat lon = 0.
Proof.
  intros Hsin Hatan Hn1 Hi1 Hn2 Hi2 Hcn Hci. unfold getDistance. cbv zeta.
  rewrite (Binary64Arith.sub_diag lat Hn1 Hi1), (Binary64Arith.sub_diag lon Hn2 Hi2).
  change (0 * Math_PI / 180 / 2) with 0. rewrite Hsin.
  destruct (Binary64Arith.mul_zero_r _ Hcn Hci) as [s Hs].
  apply Binary64Arith.zero_mul_zero in Hs.
  change (0 * 0) with 0.
  rewrite (Binary64Arith.zero_add_zero _ _ Hs).
  change (Math_sqrt 0) with 0. change (Math_sqrt (1 - 0)) with 1.
  rewrite Hatan. reflexivity.
Qed.

Lemma getDistance_infinite (lat lon : float) :
  Math_sin nan = nan -> Math_atan2 nan nan = nan ->
  is_infinity lat = true \/ is_infinity lon = true ->
  getDistance lat lon lat lon = nan.
Proof.
  intros Hsin Hatan H. unfold getDistance. cbv zeta.
  assert (Ha : Math_sin ((lat - lat) * Math_PI / 180 / 2)
               * Math_sin ((lat - lat) * Math_PI / 180 / 2)
               + Math_cos (lat * Math_PI / 180) * Math_cos (lat * Math_PI / 180)
                 * Math_sin ((lon - lon) * Math_PI / 180 / 2)
                 * Math_sin ((lon - lon) * Math_PI / 180 / 2) = nan).
  { destruct H as [H|H]; rewrite (Binary64Arith.sub_diag_infinite _ H);
      change (nan * Math_PI / 180 / 2) with nan; rewrite Hsin.
    - change (nan * nan) with nan. apply Binary64Arith.nan_add.
    - now rewrite Binary64Arith.mul_nan_r, Binary64Arith.add_nan_r. }
  rewrite Ha. change (Math_sqrt nan) with nan. change (Math_sqrt (1 - nan)) with nan.
  rewrite Hatan. reflexivity.
Qed.

End Distance.

(** C8, as amended: for all coordinate pairs a and b, distance(a,b) and
    distance(b,a) are the same number (which [==] does not equate when it is
    NaN) whenever the sine of the engine is odd at the two half-differences
    the function forms; for every coordinate a whose latitude and longitude
    are neither NaN nor infinite, distance(a,a) is 0 when [Math.sin(0)] and
    [Math.atan2(0, 1)] are 0, as the standard requires, and the square of the
    cosine of the latitude is a finite number; and at an infinite latitude or
    longitude distance(a,a) is NaN, [Math.sin(NaN)] and
    [Math.atan2(NaN, NaN)] being NaN, as the standard requires. *)
Theorem getDistance_symmetric_and_zero_on_finite `{M : MathObject}
    (lat1 lon1 lat2 lon2 : float) :
  (Math_sin (- half_difference lat1 lat2) = (- Math_sin (half_difference lat1 lat2))%float ->
   Math_sin (- half_difference lon1 lon2) = (- Math_sin (half_difference lon1 lon2))%float ->
   getDistance lat2 lon2 lat1 lon1 = getDistance lat1 lon1 lat2 lon2)
  /\ (Math_sin 0 = 0%float -> Math_atan2 0 1 = 0%float ->
      is_nan lat1 = false -> is_infinity lat1 = false ->
      is_nan lon1 = false -> is_infinity lon1 = false ->
      is_nan (Math_cos (lat1 * Math_PI / 180) * Math_cos (lat1 * Math_PI / 180)) = false ->
      is_infinity (Math_cos (lat1 * Math_PI / 180) * Math_cos (lat1 * Math_PI / 180)) = false ->
      getDistance lat1 lon1 lat1 lon1 = 0%float)
  /\ (Math_sin nan = nan -> Math_atan2 nan nan = nan ->
      is_infinity lat1 = true \/ is_infinity lon1 = true ->
      getDistance lat1 lon1 lat1 lon1 = nan).
Proof.
  split; [|split].
  - apply getDistance_swap.
  - apply getDistance_diag.
  - apply getDistance_infinite.
Qed.

(** C8, as stated, fails: a latitude of 1e999 parses to [Infinity], and at
    such a point the distance to the point itself is NaN, not 0; and the
    distances to and from another point are both NaN, which [==] does not
    equate. *)
Lemma distance_at_infinite_latitude_is_NaN :
  PrimFloat.is_nan (getDistance (M := SoftMath.math) infinity (-7.625) infinity (-7.625)) = true
  /\ PrimFloat.eqb (getDistance (M := SoftMath.math) infinity (-7.625) infinity (-7.625)) 0 = false
  /\ PrimFloat.eqb (getDistance (M := SoftMath.math) infinity (-7.625) 33.5 (-7.625))
                   (getDistance (M := SoftMath.math) 33.5 (-7.625) infinity (-7.625)) = false.
Proof. vm_compute. repeat split. Qed.

Lemma getDistance_symmetric_and_zero_on_finite_witness :
  getDistance (M := SoftMath.math) 33.515625 (-7.5) 33.5 (-7.625)
  = getDistance (M := SoftMath.math) 33.5 (-7.625) 33.515625 (-7.5)
  /\ getDistance (M := SoftMath.math) 33.5 (-7.625) 33.5 (-7.625) = 0%float
  /\ getDistance (M := SoftMath.math) infinity (-7.625) infinity (-7.625) = nan.
Proof.
  split; [|split].
  - apply (getDistance_symmetric_and_zero_on_finite (M := SoftMath.math)
             33.5 (-7.625) 33.515625 (-7.5)); vm_compute; reflexivity.
  - apply (getDistance_symmetric_and_zero_on_finite (M := SoftMath.math)
             33.5 (-7.625) 33.515625 (-7.5)); vm_compute; reflexivity.
  - apply (getDistance_symmetric_and_zero_on_finite (M := SoftMath.math)
             infinity (-7.625) 33.515625 (-7.5)); try (vm_compute; reflexivity).
    left. vm_compute. reflexivity.
Defined.

(** ** The scenarios of the specification, run on the examples *)

(** The haversine distance between two points some 340 km apart. *)
Example getDistance_example :
  let d := getDistance (M := SoftMath.math) 48.875 2.375 51.5 (-0.125) in
  ((341000 <? d) && (d <? 342000))%float = true.
Proof. vm_compute. reflexivity. Qed.

(** Scenario A: the first tick after the interval offers the request to the
    nearest driver. *)
Example scenario_immediate_offer :
  Examples.cursor_of "order-1" Examples.queued = Some 0%nat
  /\ Examples.cursor_of "order-1" Examples.offered = Some 1%nat
  /\ option_map ActiveRequest.notifiedDrivers
       (JSMap.get (State.activeRequests Examples.offered) "order-1") = Some ["w1"]
  /\ Examples.recipients Examples.offered = ["w1"].
Proof. vm_compute. repeat split. Qed.

(** Scenario B: with the two nearest candidates offline, three ticks one
    second apart move the cursor 1, 2, 3 and only the third candidate is
    offered the request. *)
Example scenario_cascade_skip :
  let t1 := processRequests 31000 Examples.cascade in
  let t2 := processRequests 32000 t1 in
  let t3 := processRequests 33000 t2 in
  (Examples.cursor_of "order-3" t1, Examples.cursor_of "order-3" t2, Examples.cursor_of "order-3" t3)
  = (Some 1%nat, Some 2%nat, Some 3%nat)
  /\ Examples.recipients t1 = [] /\ Examples.recipients t2 = [] /\ Examples.recipients t3 = ["w3"].
Proof. vm_compute. repeat split. Qed.

(** The sort keeps candidates at the same distance in the order of the
    registry. *)
Example sort_is_stable :
  List.map Candidate.did
    (Array_sort byDistance
       [Candidate.mk "a" 5; Candidate.mk "b" 3; Candidate.mk "c" 5; Candidate.mk "d" 3])
  = ["b"; "d"; "a"; "c"].
Proof. vm_compute. reflexivity. Qed.

(** A request in the legacy format takes its origin from [deliveryLocation]. *)
Example legacy_origin :
  reqLat (Examples.ride "order-4" None (Some Examples.origin)) = Some 33.5%float
  /\ reqLon (Examples.ride "order-4" None (Some Examples.origin)) = Some (-7.625)%float.
Proof. vm_compute. split; reflexivity. Qed.

(** Overwriting a key of the map keeps its place; a new key goes last. *)
Example map_set_order :
  JSMap.keys (JSMap.set (JSMap.set (JSMap.set [] "a" 1) "b" 2) "a" 3) = ["a"; "b"]
  /\ JSMap.get (JSMap.set (JSMap.set (JSMap.set [] "a" 1) "b" 2) "a" 3) "a" = Some 3.
Proof. split; reflexivity. Qed.

(** * Further properties of the handlers and of the loop *)

(** ** More on the map *)

Section JSMapMore.
Context {V : Type}.
Implicit Types (m : JSMap.t V) (k : string) (v : V).

Lemma get_None_keys m k : JSMap.get m k = None <-> ~ In k (JSMap.keys m).
Proof.
  induction m as [|[k' v'] m IH]; simpl.
  - tauto.
  - destruct (String.eqb k' k) eqn:E.
    + apply String.eqb_eq in E. split; [discriminate | intros H; exfalso; auto].
    + apply String.eqb_neq in E. rewrite IH. tauto.
Qed.

Lemma get_Some_In m k v : JSMap.get m k = Some v -> In (k, v) m.
Proof.
  induction m as [|[k' v'] m IH]; simpl; [discriminate|].
  destruct (String.eqb k' k) eqn:E.
  - apply String.eqb_eq in E. intros H. inversion H; subst. now left.
  - intros H. right. now apply IH.
Qed.

Lemma In_get_Some m k v :
  NoDup (JSMap.keys m) -> In (k, v) m -> JSMap.get m k = Some v.
Proof.
  induction m as [|[k' v'] m IH]; simpl; [easy|].
  intros Hnd [H|H].
  - inversion H; subst. now rewrite String.eqb_refl.
  - apply NoDup_cons in Hnd. destruct Hnd as [Hk Hnd].
    destruct (String.eqb k' k) eqn:E.
    + apply String.eqb_eq in E. subst k'. exfalso. apply Hk.
      apply list_elem_of_In. change k with (fst (k, v)). now apply in_map.
    + now apply IH.
Qed.

Lemma keys_set_absent m k v :
  JSMap.get m k = None -> JSMap.keys (JSMap.set m k v) = (JSMap.keys m ++ [k])%list.
Proof.
  induction m as [|[k' v'] m IH]; simpl; [reflexivity|].
  destruct (String.eqb k' k) eqn:E; [discriminate|].
  intros H. simpl. f_equal. now apply IH.
Qed.

Lemma keys_set_incl m k v : incl (JSMap.keys m) (JSMap.keys (JSMap.set m k v)).
Proof.
  destruct (JSMap.get m k) as [v0|] eqn:E.
  - rewrite (keys_set_present m k v v0 E). apply incl_refl.
  - rewrite (keys_set_absent m k v E). now apply incl_appl.
Qed.

Lemma NoDup_keys_set m k v :
  NoDup (JSMap.keys m) -> NoDup (JSMap.keys (JSMap.set m k v)).
Proof.
  intros Hnd. destruct (JSMap.get m k) as [v0|] eqn:E.
  - now rewrite (keys_set_present m k v v0 E).
  - rewrite (keys_set_absent m k v E).
    apply NoDup_app. repeat split.
    + assumption.
    + intros x Hx Hk. apply list_elem_of_In in Hx.
      apply list_elem_of_In in Hk. destruct Hk as [<-|[]].
      now apply get_None_keys in E.
    + apply NoDup_singleton.
Qed.

Lemma Forall_set (P : string * V -> Prop) m k v :
  Forall P m -> P (k, v) -> Forall P (JSMap.set m k v).
Proof.
  intros Hm Hv. induction m as [|[k' v'] m IH]; simpl.
  - now constructor.
  - inversion Hm as [|? ? Hhd Htl]; subst.
    destruct (String.eqb k' k) eqn:E.
    + apply String.eqb_eq in E. subst k'. now constructor.
    + constructor; auto.
Qed.

End JSMapMore.

(** ** Lists *)

Lemma sublist_List_filter {A} (f : A -> bool) (l : list A) :
  sublist (List.filter f l) l.
Proof.
  induction l as [|a l IH]; simpl; [constructor|].
  destruct (f a); now constructor.
Qed.

Lemma sublist_List_map {A B} (f : A -> B) (l k : list A) :
  sublist l k -> sublist (List.map f l) (List.map f k).
Proof. induction 1; simpl; now constructor. Qed.

Lemma sublist_firstn_S {A} (l : list A) n : sublist (firstn n l) (firstn (S n) l).
Proof.
  revert l. induction n as [|n IH]; intros [|a l]; simpl; try constructor.
  - apply sublist_nil_l.
  - apply IH.
Qed.

(** ** What each handler leaves alone *)

Lemma handleDriverAvailability_frame now senderDid payload st :
  let st' := handleDriverAvailability now senderDid payload st in
  State.activeRequests st' = State.activeRequests st
  /\ State.validDrivers st' = State.validDrivers st
  /\ State.validLivreurs st' = State.validLivreurs st
  /\ State.sent st' = State.sent st.
Proof.
  unfold handleDriverAvailability.
  destruct (Set_has (State.validDrivers st) senderDid);
    [|destruct (Set_has (State.validLivreurs st) senderDid)]; now simpl.
Qed.

Lemma handleDriverAvailability_drivers now senderDid payload st :
  State.drivers (handleDriverAvailability now senderDid payload st) = State.drivers st
  \/ exists type,
       State.drivers (handleDriverAvailability now senderDid payload st)
       = JSMap.set (State.drivers st) senderDid
           (DriverState.mk (Payload.status payload) (Payload.location payload)
              now type senderDid).
Proof.
  unfold handleDriverAvailability.
  destruct (Set_has (State.validDrivers st) senderDid);
    [|destruct (Set_has (State.validLivreurs st) senderDid)]; simpl; eauto.
Qed.

Lemma processRequests_frame now st :
  let st' := processRequests now st in
  State.drivers st' = State.drivers st
  /\ State.validDrivers st' = State.validDrivers st
  /\ State.validLivreurs st' = State.validLivreurs st.
Proof.
  unfold processRequests.
  now destruct (processEntries now (State.drivers st) (State.activeRequests st)).
Qed.

Lemma handleAccept_frame senderDid payload st :
  let st' := handleAccept senderDid payload st in
  State.drivers st' = State.drivers st
  /\ State.validDrivers st' = State.validDrivers st
  /\ State.validLivreurs st' = State.validLivreurs st.
Proof.
  destruct (JSMap.get (State.activeRequests st) (Payload.orderId payload))
    as [req|] eqn:E.
  - destruct (ActiveRequest.status req) eqn:Es.
    + now rewrite (handleAccept_pending senderDid payload st req E Es).
    + unfold handleAccept. now rewrite E, Es.
  - unfold handleAccept. now rewrite E.
Qed.

Lemma refreshDriverLists_frame getLists driversItems livreursItems st :
  let st' := refreshDriverLists getLists driversItems livreursItems st in
  State.drivers st' = State.drivers st
  /\ State.activeRequests st' = State.activeRequests st
  /\ State.sent st' = State.sent st.
Proof.
  unfold refreshDriverLists.
  destruct getLists as [[[] lists]|]; simpl; auto.
  destruct (List.find driversTag lists) as [l1|];
    [destruct (driversItems (ListView.uri l1))|];
    destruct (List.find livreursTag lists) as [l2|];
    try destruct (livreursItems (ListView.uri l2)); now simpl.
Qed.

Section RequestOutcome.
Context {M : MathObject}.

(** The three ways [handleRequest] ends. *)
Lemma handleRequest_outcome now senderDid payload st :
  handleRequest now senderDid payload st = st
  \/ handleRequest now senderDid payload st
     = sendDM senderDid (NO_DRIVERS_AVAILABLE (Payload.orderId payload)) st
  \/ exists lat lon c cs,
       reqLat payload = Some lat /\ reqLon payload = Some lon
       /\ Number.truthy lat = true /\ Number.truthy lon = true
       /\ computeCandidates (State.drivers st) (reqType payload) lat lon = c :: cs
       /\ handleRequest now senderDid payload st
          = State.set_activeRequests
              (JSMap.set (State.activeRequests st) (Payload.orderId payload)
                 (newRequest now senderDid payload (c :: cs))) st.
Proof.
  unfold handleRequest.
  destruct (reqLat payload) as [lat|]; [|now left].
  destruct (reqLon payload) as [lon|]; [|now left].
  destruct (Number.truthy lat) eqn:Tlat; [|now left].
  destruct (Number.truthy lon) eqn:Tlon; [|now left].
  simpl.
  destruct (computeCandidates (State.drivers st) (reqType payload) lat lon)
    as [|c cs] eqn:Ec; [right; now left|].
  right; right. exists lat, lon, c, cs. auto 10.
Qed.

End RequestOutcome.

(** The three ways the loop body of [processRequests] ends, with the offer it
    sends. *)
Lemma processRequest_cases now drivers req :
  processRequest now drivers req = (req, [])
  \/ (exists candidate,
        ActiveRequest.status req = PENDING
        /\ DISPATCH_INTERVAL_MS <= now - ActiveRequest.lastNotificationTime req
        /\ nth_error (ActiveRequest.candidates req) (ActiveRequest.nextCandidateIndex req)
           = Some candidate
        /\ unavailable drivers (Candidate.did candidate)
        /\ processRequest now drivers req
           = (ActiveRequest.set_nextCandidateIndex
                (S (ActiveRequest.nextCandidateIndex req)) req, []))
  \/ (exists candidate driverState,
        ActiveRequest.status req = PENDING
        /\ DISPATCH_INTERVAL_MS <= now - ActiveRequest.lastNotificationTime req
        /\ nth_error (ActiveRequest.candidates req) (ActiveRequest.nextCandidateIndex req)
           = Some candidate
        /\ JSMap.get drivers (Candidate.did candidate) = Some driverState
        /\ DriverState.status driverState = AVAILABLE
        /\ processRequest now drivers req
           = (ActiveRequest.set_nextCandidateIndex
                (S (ActiveRequest.nextCandidateIndex req))
                (ActiveRequest.set_lastNotificationTime now
                   (ActiveRequest.set_notifiedDrivers
                      (ActiveRequest.notifiedDrivers req ++ [Candidate.did candidate])%list
                      req)),
              [(Candidate.did candidate, offer_of req)])).
Proof.
  unfold processRequest, offer_of.
  destruct (ActiveRequest.status req) eqn:Es; simpl; [|now left].
  destruct (now - ActiveRequest.lastNotificationTime req >=? DISPATCH_INTERVAL_MS)
    eqn:Et; [|now left].
  apply Z.geb_le in Et.
  destruct (ActiveRequest.nextCandidateIndex req <? length (ActiveRequest.candidates req))%nat
    eqn:En; [|now left].
  destruct (nth_error (ActiveRequest.candidates req) (ActiveRequest.nextCandidateIndex req))
    as [candidate|] eqn:Ec; [|now left].
  destruct (JSMap.get drivers (Candidate.did candidate)) as [d|] eqn:Ed.
  - destruct (DriverState.status d) eqn:Ea; simpl.
    + right; right. exists candidate, d. auto 10.
    + right; left. exists candidate. repeat split; auto.
      intros d' Hd'. rewrite Ed in Hd'. inversion Hd'; subst. congruence.
  - right; left. exists candidate. repeat split; auto.
    intros d' Hd'. congruence.
Qed.

(** ** The invariant of the reachable states *)

Lemma entry_ok_sent_mono sent sent' e :
  (forall m, In m sent -> In m sent') -> entry_ok sent e -> entry_ok sent' e.
Proof.
  intros Hsub [H1 H2 H3 H4 H5 H6 H7 H8]. constructor; auto.
  intros Hs. destruct (H8 Hs) as (driver & loc & Hin). eauto.
Qed.

Lemma Forall_entry_ok_mono sent sent' entries :
  (forall m, In m sent -> In m sent') ->
  Forall (entry_ok sent) entries -> Forall (entry_ok sent') entries.
Proof.
  intros Hsub. apply List.Forall_impl. intros e. now apply entry_ok_sent_mono.
Qed.

Section CandidateDids.
Context {M : MathObject}.

Lemma toCandidate_did lat lon d :
  Candidate.did (toCandidate lat lon d) = DriverState.did d.
Proof. unfold toCandidate. now destruct (DriverState.location d). Qed.

Lemma computeCandidates_dids drivers reqType lat lon :
  Permutation (List.map Candidate.did (computeCandidates drivers reqType lat lon))
    (List.map DriverState.did (List.filter (eligible reqType) (JSMap.values drivers))).
Proof.
  rewrite (Permutation_map Candidate.did (computeCandidates_perm drivers reqType lat lon)).
  rewrite List.map_map.
  erewrite List.map_ext; [reflexivity|]. intros d. apply toCandidate_did.
Qed.

Lemma registry_dids drivers :
  registry_ok drivers ->
  List.map DriverState.did (JSMap.values drivers) = JSMap.keys drivers.
Proof.
  intros [_ Hdid]. unfold JSMap.values, JSMap.keys. rewrite List.map_map.
  induction Hdid as [|e l He _ IH]; simpl; [reflexivity|]. now rewrite He, IH.
Qed.

Lemma computeCandidates_NoDup drivers reqType lat lon :
  registry_ok drivers ->
  NoDup (List.map Candidate.did (computeCandidates drivers reqType lat lon)).
Proof.
  intros Hreg. rewrite computeCandidates_dids.
  apply sublist_NoDup with (l2 := JSMap.keys drivers); [apply Hreg|].
  rewrite <- (registry_dids drivers Hreg).
  apply sublist_List_map, sublist_List_filter.
Qed.

(** A candidate is a record of the registry that passed the filter. *)
Lemma computeCandidates_lookup drivers reqType lat lon c :
  registry_ok drivers ->
  In c (computeCandidates drivers reqType lat lon) ->
  exists d,
    JSMap.get drivers (Candidate.did c) = Some d
    /\ c = toCandidate lat lon d
    /\ eligible reqType d = true.
Proof.
  intros Hreg Hin.
  apply (Permutation_in _ (computeCandidates_perm drivers reqType lat lon)) in Hin.
  apply in_map_iff in Hin. destruct Hin as (d & <- & Hd).
  apply filter_In in Hd. destruct Hd as [Hd He].
  apply in_map_iff in Hd. destruct Hd as ([k d'] & Hk & Hd). simpl in Hk. subst d'.
  exists d. repeat split; auto.
  rewrite toCandidate_did.
  destruct Hreg as [Hnd Hdid]. rewrite List.Forall_forall in Hdid.
  specialize (Hdid _ Hd). simpl in Hdid. rewrite Hdid. now apply In_get_Some.
Qed.

End CandidateDids.

Lemma newRequest_entry_ok {M : MathObject} now senderDid payload st lat lon c cs sent :
  registry_ok (State.drivers st) ->
  computeCandidates (State.drivers st) (reqType payload) lat lon = c :: cs ->
  entry_ok sent (Payload.orderId payload, newRequest now senderDid payload (c :: cs)).
Proof.
  intros Hreg Ec. constructor; simpl.
  - reflexivity.
  - reflexivity.
  - discriminate.
  - change (NoDup (List.map Candidate.did (c :: cs))).
    rewrite <- Ec. now apply computeCandidates_NoDup.
  - lia.
  - apply sublist_nil_l.
  - intros d [].
  - discriminate.
Qed.

Lemma processEntries_keys now drivers entries :
  JSMap.keys (fst (processEntries now drivers entries)) = JSMap.keys entries.
Proof.
  induction entries as [|[k r] rest IH]; simpl; [reflexivity|].
  destruct (processRequest now drivers r) as [r' out].
  destruct (processEntries now drivers rest) as [rest' outs].
  simpl in *. now rewrite IH.
Qed.


Lemma processRequest_entry_ok now drivers sent sent' k r :
  (forall m, In m sent -> In m sent') ->
  (forall m, In m (snd (processRequest now drivers r)) -> In m sent') ->
  entry_ok sent (k, r) ->
  entry_ok sent' (k, fst (processRequest now drivers r)).
Proof.
  intros Hsub Hout Hok.
  destruct (processRequest_cases now drivers r)
    as [E|[(c & Hs & _ & Hc & _ & E)|(c & d & Hs & _ & Hc & _ & _ & E)]];
    rewrite E in *; simpl in *.
  - now apply entry_ok_sent_mono with (sent := sent).
  - destruct Hok as [H1 H2 H3 H4 H5 H6 H7 H8]; simpl in *.
    constructor; simpl; auto.
    + apply Nat.le_succ_l, nth_error_Some. now rewrite Hc.
    + etransitivity; [exact H6|]. apply sublist_List_map, sublist_firstn_S.
    + intros Hs'. congruence.
  - destruct Hok as [H1 H2 H3 H4 H5 H6 H7 H8]; simpl in *.
    constructor; simpl; auto.
    + apply Nat.le_succ_l, nth_error_Some. now rewrite Hc.
    + rewrite (firstn_S_nth_error _ _ _ Hc), map_app. simpl.
      now apply sublist_app.
    + intros x Hx. apply in_app_or in Hx. destruct Hx as [Hx|[<-|[]]].
      * apply Hsub. now apply H7.
      * apply Hout. now left.
    + intros Hs'. congruence.
Qed.

Lemma processEntries_entry_ok now drivers sent sent' entries :
  (forall m, In m sent -> In m sent') ->
  (forall m, In m (snd (processEntries now drivers entries)) -> In m sent') ->
  Forall (entry_ok sent) entries ->
  Forall (entry_ok sent') (fst (processEntries now drivers entries)).
Proof.
  intros Hsub. induction entries as [|[k r] rest IH]; simpl; [constructor|].
  pose proof (processRequest_entry_ok now drivers sent sent' k r Hsub) as Hone.
  destruct (processRequest now drivers r) as [r' out].
  destruct (processEntries now drivers rest) as [rest' outs].
  simpl in *. intros Hout Hall. inversion Hall as [|? ? Hhd Htl]; subst.
  constructor.
  - apply Hone; [|assumption]. intros m Hm. apply Hout, in_or_app. now left.
  - apply IH; [|assumption]. intros m Hm. apply Hout, in_or_app. now right.
Qed.

Ltac split_state_ok :=
  unfold state_ok, registry_ok; simpl;
  repeat match goal with |- _ /\ _ => split end; auto.

Lemma processRequests_state_ok now st : state_ok st -> state_ok (processRequests now st).
Proof.
  intros ((Hk & Hdid) & Hnd & Hall).
  destruct (processRequests_frame now st) as (Ed & _).
  unfold state_ok, registry_ok.
  rewrite Ed, processRequests_requests, processRequests_sent, processEntries_keys.
  split_state_ok.
  apply processEntries_entry_ok with (sent := State.sent st); [| |assumption];
    intros m Hm; apply in_or_app; auto.
Qed.

Lemma handleDriverAvailability_state_ok now senderDid payload st :
  state_ok st -> state_ok (handleDriverAvailability now senderDid payload st).
Proof.
  intros ((Hk & Hdid) & Hnd & Hall).
  destruct (handleDriverAvailability_frame now senderDid payload st) as (Er & _ & _ & Es).
  unfold state_ok, registry_ok. rewrite Er, Es.
  destruct (handleDriverAvailability_drivers now senderDid payload st) as [E|[type E]];
    rewrite E; split_state_ok.
  - now apply NoDup_keys_set.
  - now apply Forall_set.
Qed.

Lemma handleRequest_state_ok {M : MathObject} now senderDid payload st :
  state_ok st -> state_ok (handleRequest now senderDid payload st).
Proof.
  intros (Hreg & Hnd & Hall). pose proof Hreg as (Hk & Hdid).
  destruct (handleRequest_outcome now senderDid payload st)
    as [E|[E|(lat & lon & c & cs & _ & _ & _ & _ & Ec & E)]]; rewrite E.
  - split_state_ok.
  - split_state_ok.
    apply Forall_entry_ok_mono with (sent := State.sent st); [|assumption].
    intros m Hm. apply in_or_app. now left.
  - split_state_ok.
    + now apply NoDup_keys_set.
    + apply Forall_set; [assumption|].
      now apply (newRequest_entry_ok now senderDid payload st lat lon).
Qed.

Lemma handleAccept_state_ok senderDid payload st :
  state_ok st -> state_ok (handleAccept senderDid payload st).
Proof.
  intros ((Hk & Hdid) & Hnd & Hall).
  destruct (JSMap.get (State.activeRequests st) (Payload.orderId payload))
    as [req|] eqn:E.
  - destruct (ActiveRequest.status req) eqn:Es.
    + rewrite (handleAccept_pending senderDid payload st req E Es).
      split_state_ok.
      * now apply NoDup_keys_set.
      * apply Forall_set.
        -- apply Forall_entry_ok_mono with (sent := State.sent st); [|assumption].
           intros m Hm. apply in_or_app. now left.
        -- apply get_Some_In in E. rewrite List.Forall_forall in Hall.
           destruct (Hall _ E) as [H1 H2 H3 H4 H5 H6 H7 H8]; simpl in *.
           constructor; simpl; auto.
           ++ intros d Hd. apply in_or_app. left. now apply H7.
           ++ intros _. eexists _, _. apply in_or_app. right. now left.
    + unfold handleAccept. rewrite E, Es. simpl.
      split_state_ok.
      apply Forall_entry_ok_mono with (sent := State.sent st); [|assumption].
      intros m Hm. apply in_or_app. now left.
  - unfold handleAccept. rewrite E. split_state_ok.
Qed.

Lemma refreshDriverLists_state_ok getLists driversItems livreursItems st :
  state_ok st -> state_ok (refreshDriverLists getLists driversItems livreursItems st).
Proof.
  destruct (refreshDriverLists_frame getLists driversItems livreursItems st)
    as (Ed & Er & Es).
  unfold state_ok. now rewrite Ed, Er, Es.
Qed.

Section Reachable.
Context {M : MathObject}.

Lemma checkMessage_state_ok self now sender text st :
  state_ok st -> state_ok (checkMessage self now sender text st).
Proof.
  intros Hok. unfold checkMessage.
  destruct (String.eqb sender self); [assumption|].
  destruct text as [payload|]; [|assumption].
  destruct (String.eqb (Payload.type payload) "DRIVER_AVAILABILITY");
    [now apply handleDriverAvailability_state_ok|].
  destruct (String.eqb (Payload.type payload) "RIDE_REQUEST"
            || String.eqb (Payload.type payload) "DELIVERY_REQUEST");
    [now apply handleRequest_state_ok|].
  destruct (String.eqb (Payload.type payload) "RIDE_ACCEPTED"
            || String.eqb (Payload.type payload) "DELIVERY_ACCEPTED");
    [now apply handleAccept_state_ok | assumption].
Qed.

Lemma fire_state_ok self e st : state_ok st -> state_ok (fire self e st).
Proof.
  destruct e; simpl.
  - apply checkMessage_state_ok.
  - apply processRequests_state_ok.
  - apply refreshDriverLists_state_ok.
Qed.

Lemma run_state_ok self events st : state_ok st -> state_ok (run self events st).
Proof.
  revert st. induction events as [|e events IH]; intros st Hok; simpl; [assumption|].
  apply IH. now apply fire_state_ok.
Qed.

Lemma initial_state_ok : state_ok initial.
Proof. split_state_ok; constructor. Qed.

End Reachable.

(** ** Reachable states *)

Section ReachableFacts.
Context {M : MathObject}.

(** X3: Every notified driver of a stored request was sent its offer, and the
    offer carries the order id under which the request is stored: the accept
    that quotes the offer finds this request. *)
Theorem notified_drivers_hold_the_offer self events :
  let st := run self events initial in
  Forall (fun e =>
       forall d, In d (ActiveRequest.notifiedDrivers (snd e)) ->
         exists requestMsg,
           In (d, OFFER requestMsg) (State.sent st)
           /\ offer_of (snd e) = OFFER requestMsg
           /\ JSMap.get (State.activeRequests st) (Payload.orderId requestMsg)
              = Some (snd e))
    (State.activeRequests st).
Proof.
  intros st.
  destruct (run_state_ok self events initial initial_state_ok) as (_ & Hnd & Hall).
  fold st in Hnd, Hall.
  apply List.Forall_forall. intros [k r] Hin d Hd.
  rewrite List.Forall_forall in Hall.
  destruct (Hall _ Hin) as [_ H2 _ _ _ _ H7 _]. simpl in *.
  eexists. split; [exact (H7 d Hd)|]. split; [reflexivity|].
  simpl. rewrite H2. now apply In_get_Some.
Qed.

(** X4: An ASSIGNED request has been announced: in every reachable state the log
    holds an ORDER_ASSIGNED message for its id, addressed to its customer. *)
Theorem assigned_requests_were_announced self events :
  let st := run self events initial in
  Forall (fun e =>
       ActiveRequest.status (snd e) = ASSIGNED ->
       exists driver loc,
         In (ActiveRequest.customerDid (snd e), ORDER_ASSIGNED (fst e) driver loc)
            (State.sent st))
    (State.activeRequests st).
Proof.
  intros st.
  destruct (run_state_ok self events initial initial_state_ok) as (_ & _ & Hall).
  eapply List.Forall_impl; [|exact Hall].
  intros e [_ _ _ _ _ _ _ H8]. exact H8.
Qed.

End ReachableFacts.

(** ** The message loop *)

Section LoopFacts.
Context {M : MathObject}.

(** The four ways the body of the message loop ends. *)
Lemma checkMessage_cases self now sender text st :
  checkMessage self now sender text st = st
  \/ exists payload,
       text = Some payload /\ sender <> self
       /\ ((Payload.type payload = "DRIVER_AVAILABILITY"
            /\ checkMessage self now sender text st
               = handleDriverAvailability now sender payload st)
           \/ (is_request payload = true
               /\ checkMessage self now sender text st
                  = handleRequest now sender payload st)
           \/ (is_accept payload = true /\ is_request payload = false
               /\ checkMessage self now sender text st
                  = handleAccept sender payload st)).
Proof.
  unfold checkMessage, is_request, is_accept.
  destruct (String.eqb sender self) eqn:Es; [now left|].
  apply String.eqb_neq in Es.
  destruct text as [payload|]; [|now left].
  destruct (String.eqb (Payload.type payload) "DRIVER_AVAILABILITY") eqn:Ea.
  { apply String.eqb_eq in Ea. right. exists payload. auto. }
  destruct (String.eqb (Payload.type payload) "RIDE_REQUEST"
            || String.eqb (Payload.type payload) "DELIVERY_REQUEST") eqn:Er.
  { right. exists payload. auto 6. }
  destruct (String.eqb (Payload.type payload) "RIDE_ACCEPTED"
            || String.eqb (Payload.type payload) "DELIVERY_ACCEPTED") eqn:Ec.
  { right. exists payload. auto 8. }
  now left.
Qed.

Lemma grows_refl st : grows st st.
Proof. repeat split; reflexivity. Qed.

Lemma grows_trans st1 st2 st3 : grows st1 st2 -> grows st2 st3 -> grows st1 st3.
Proof.
  intros (A1 & A2 & A3) (B1 & B2 & B3).
  repeat split; etransitivity; eassumption.
Qed.

Lemma keys_set_prefix {V} (m : JSMap.t V) k v :
  prefix (JSMap.keys m) (JSMap.keys (JSMap.set m k v)).
Proof.
  destruct (JSMap.get m k) as [v0|] eqn:E.
  - now rewrite (keys_set_present m k v v0 E).
  - rewrite (keys_set_absent m k v E). now apply prefix_app_r.
Qed.

Lemma handleDriverAvailability_grows now senderDid payload st :
  grows st (handleDriverAvailability now senderDid payload st).
Proof.
  destruct (handleDriverAvailability_frame now senderDid payload st) as (Er & _ & _ & Es).
  unfold grows. rewrite Er, Es.
  destruct (handleDriverAvailability_drivers now senderDid payload st) as [E|[type E]];
    rewrite E; repeat split; try reflexivity.
  apply keys_set_prefix.
Qed.

Lemma handleRequest_grows now senderDid payload st :
  grows st (handleRequest now senderDid payload st).
Proof.
  destruct (handleRequest_outcome now senderDid payload st)
    as [E|[E|(lat & lon & c & cs & _ & _ & _ & _ & _ & E)]]; rewrite E.
  - apply grows_refl.
  - repeat split; simpl; try reflexivity. now apply prefix_app_r.
  - repeat split; simpl; try reflexivity. apply keys_set_prefix.
Qed.

Lemma handleAccept_grows senderDid payload st :
  grows st (handleAccept senderDid payload st).
Proof.
  destruct (JSMap.get (State.activeRequests st) (Payload.orderId payload))
    as [req|] eqn:E.
  - destruct (ActiveRequest.status req) eqn:Es.
    + rewrite (handleAccept_pending senderDid payload st req E Es).
      repeat split; simpl; try reflexivity.
      * now apply prefix_app_r.
      * apply keys_set_prefix.
    + unfold handleAccept. rewrite E, Es. simpl.
      repeat split; simpl; try reflexivity. now apply prefix_app_r.
  - unfold handleAccept. rewrite E. apply grows_refl.
Qed.

Lemma processRequests_grows now st : grows st (processRequests now st).
Proof.
  destruct (processRequests_frame now st) as (Ed & _).
  unfold grows.
  rewrite Ed, processRequests_requests, processRequests_sent, processEntries_keys.
  repeat split; try reflexivity. now apply prefix_app_r.
Qed.

Lemma fire_grows self e st : grows st (fire self e st).
Proof.
  destruct e as [now sender text|now|getLists driversItems livreursItems]; simpl.
  - destruct (checkMessage_cases self now sender text st)
      as [E|(p & _ & _ & [[_ E]|[[_ E]|(_ & _ & E)]])]; rewrite E.
    + apply grows_refl.
    + apply handleDriverAvailability_grows.
    + apply handleRequest_grows.
    + apply handleAccept_grows.
  - apply processRequests_grows.
  - destruct (refreshDriverLists_frame getLists driversItems livreursItems st)
      as (Ed & Er & Es).
    unfold grows. rewrite Ed, Er, Es. repeat split; reflexivity.
Qed.

(** X5: Nothing is ever taken back.  Over any sequence of events, from any state:
    the transport log is extended at its end, and the registry and the
    request store keep every key they had, in the same order (no record and
    no request is ever deleted). *)
Theorem log_and_maps_only_grow self events st :
  prefix (State.sent st) (State.sent (run self events st))
  /\ prefix (JSMap.keys (State.drivers st))
       (JSMap.keys (State.drivers (run self events st)))
  /\ prefix (JSMap.keys (State.activeRequests st))
       (JSMap.keys (State.activeRequests (run self events st))).
Proof.
  change (grows st (run self events st)).
  revert st. induction events as [|e events IH]; intros st; simpl.
  - apply grows_refl.
  - eapply grows_trans; [apply fire_grows | apply IH].
Qed.

(** *** Who changes a record *)

Lemma fire_record self e st w :
  not_from w e ->
  JSMap.get (State.drivers (fire self e st)) w = JSMap.get (State.drivers st) w.
Proof.
  destruct e as [now sender text|now|getLists driversItems livreursItems]; simpl.
  - intros Hw.
    destruct (checkMessage_cases self now sender text st)
      as [E|(p & _ & _ & [[_ E]|[[_ E]|(_ & _ & E)]])]; rewrite E.
    + reflexivity.
    + destruct (handleDriverAvailability_drivers now sender p st) as [Ed|[type Ed]];
        rewrite Ed; [reflexivity|]. now apply get_set_ne.
    + destruct (handleRequest_outcome now sender p st)
        as [E'|[E'|(lat & lon & c & cs & _ & _ & _ & _ & _ & E')]]; now rewrite E'.
    + now destruct (handleAccept_frame sender p st) as (-> & _).
  - intros _. now destruct (processRequests_frame now st) as (-> & _).
  - intros _.
    now destruct (refreshDriverLists_frame getLists driversItems livreursItems st)
      as (-> & _).
Qed.

(** X6: The record of a worker changes only by that worker's own messages: over
    any sequence of events none of which is a message from [w], the registry
    holds for [w] what it held before (a record is never expired, and neither
    a request, an accept, a tick nor a list refresh touches it). *)
Theorem record_changes_only_by_owner self events st w :
  Forall (not_from w) events ->
  JSMap.get (State.drivers (run self events st)) w = JSMap.get (State.drivers st) w.
Proof.
  intros Hall. revert st.
  induction Hall as [|e events He _ IH]; intros st; simpl; [reflexivity|].
  rewrite IH. now apply fire_record.
Qed.

Lemma Set_has_false s x : Set_has s x = false <-> x ∉ s.
Proof. unfold Set_has. apply bool_decide_eq_false. Qed.

Lemma fire_sets self e st :
  is_refresh e = false ->
  State.validDrivers (fire self e st) = State.validDrivers st
  /\ State.validLivreurs (fire self e st) = State.validLivreurs st.
Proof.
  destruct e as [now sender text|now|getLists driversItems livreursItems]; simpl;
    [intros _|intros _|discriminate].
  - destruct (checkMessage_cases self now sender text st)
      as [E|(p & _ & _ & [[_ E]|[[_ E]|(_ & _ & E)]])]; rewrite E.
    + now split.
    + now destruct (handleDriverAvailability_frame now sender p st) as (_ & -> & -> & _).
    + destruct (handleRequest_outcome now sender p st)
        as [E'|[E'|(lat & lon & c & cs & _ & _ & _ & _ & _ & E')]]; now rewrite E'.
    + now destruct (handleAccept_frame sender p st) as (_ & -> & ->).
  - now destruct (processRequests_frame now st) as (_ & -> & ->).
Qed.

Lemma fire_unlisted self e st w :
  w ∉ State.validDrivers st -> w ∉ State.validLivreurs st ->
  is_refresh e = false ->
  JSMap.get (State.drivers (fire self e st)) w = JSMap.get (State.drivers st) w.
Proof.
  intros Hd Hl He.
  destruct e as [now sender text|now|getLists driversItems livreursItems];
    try (apply fire_record; exact I).
  destruct (String.eqb sender w) eqn:Ew; [|apply fire_record; now apply String.eqb_neq].
  apply String.eqb_eq in Ew. subst sender. simpl.
  destruct (checkMessage_cases self now w text st)
    as [E|(p & _ & _ & [[_ E]|[[_ E]|(_ & _ & E)]])]; rewrite E.
  - reflexivity.
  - unfold handleDriverAvailability.
    apply Set_has_false in Hd, Hl. now rewrite Hd, Hl.
  - destruct (handleRequest_outcome now w p st)
      as [E'|[E'|(lat & lon & c & cs & _ & _ & _ & _ & _ & E')]]; now rewrite E'.
  - now destruct (handleAccept_frame w p st) as (-> & _).
Qed.

(** X7: A worker that is on neither list cannot change its record.  Until the
    next list refresh, whatever messages arrive (its own included) and
    whatever ticks run, the registry holds for it what it held when it left
    the lists: a worker taken off the lists while AVAILABLE stays AVAILABLE
    in the registry, its UNAVAILABLE report is ignored. *)
Theorem unlisted_worker_is_frozen self events st w :
  w ∉ State.validDrivers st -> w ∉ State.validLivreurs st ->
  Forall (fun e => is_refresh e = false) events ->
  JSMap.get (State.drivers (run self events st)) w = JSMap.get (State.drivers st) w.
Proof.
  intros Hd Hl Hall. revert st Hd Hl.
  induction Hall as [|e events He _ IH]; intros st Hd Hl; simpl; [reflexivity|].
  destruct (fire_sets self e st He) as (Ed & El).
  rewrite IH by (rewrite ?Ed, ?El; assumption).
  now apply fire_unlisted.
Qed.

End LoopFacts.

(** ** The tick, when it acts *)

Lemma processRequest_not_due now drivers r :
  due now r = false -> processRequest now drivers r = (r, []).
Proof.
  unfold due, processRequest. intros H.
  destruct (RequestStatus_eqb (ActiveRequest.status r) PENDING); [|reflexivity].
  destruct (now - ActiveRequest.lastNotificationTime r >=? DISPATCH_INTERVAL_MS);
    [|reflexivity].
  simpl in *. now rewrite H.
Qed.


Lemma processRequest_skip now drivers r candidate :
  ActiveRequest.status r = PENDING ->
  DISPATCH_INTERVAL_MS <= now - ActiveRequest.lastNotificationTime r ->
  nth_error (ActiveRequest.candidates r) (ActiveRequest.nextCandidateIndex r)
    = Some candidate ->
  unavailable drivers (Candidate.did candidate) ->
  processRequest now drivers r
  = (ActiveRequest.set_nextCandidateIndex (S (ActiveRequest.nextCandidateIndex r)) r, []).
Proof.
  intros Hs Ht Hc Hu. unfold processRequest. rewrite Hs. simpl.
  apply Z.geb_le in Ht. rewrite Ht.
  assert (Hlt : (ActiveRequest.nextCandidateIndex r
                 <? length (ActiveRequest.candidates r))%nat = true).
  { apply Nat.ltb_lt. apply nth_error_Some. now rewrite Hc. }
  rewrite Hlt, Hc. now rewrite (unavailable_lookup _ _ Hu).
Qed.



(** X9: What a tick does to the state as a whole: the registry and the two
    membership sets stay, the store keeps its keys in their order, and the
    messages it sends are offers, at most one for each request that is due. *)
Theorem tick_sends_only_offers now st :
  let st' := processRequests now st in
  State.drivers st' = State.drivers st
  /\ State.validDrivers st' = State.validDrivers st
  /\ State.validLivreurs st' = State.validLivreurs st
  /\ JSMap.keys (State.activeRequests st') = JSMap.keys (State.activeRequests st)
  /\ exists out,
       State.sent st' = (State.sent st ++ out)%list
       /\ Forall (fun m => is_offer m = true) out
       /\ (length out
           <= length (List.filter (fun e => due now (snd e)) (State.activeRequests st)))%nat.
Proof.
  intros st'. unfold st'.
  destruct (processRequests_frame now st) as (Ed & Ev & El).
  repeat split; auto.
  - now rewrite processRequests_requests, processEntries_keys.
  - exists (snd (processEntries now (State.drivers st) (State.activeRequests st))).
    split; [apply processRequests_sent|].
    rewrite processEntries_sent.
    induction (State.activeRequests st) as [|[k r] rest [IH1 IH2]]; simpl.
    + split; [constructor | lia].
    + destruct (due now r) eqn:Edue.
      * destruct (processRequest_cases now (State.drivers st) r)
          as [E|[(c & _ & _ & _ & _ & E)|(c & d & _ & _ & _ & _ & _ & E)]];
          rewrite E; simpl; (split; [|lia]); auto.
      * rewrite (processRequest_not_due _ _ _ Edue). simpl. now split.
Qed.

(** ** Requests that wait *)

Section Waiting.
Context {M : MathObject}.

Lemma fire_keeps_request self e st id r :
  JSMap.get (State.activeRequests st) id = Some r ->
  not_request_for id e ->
  match e with
  | Inbound _ _ (Some payload) =>
      Payload.orderId payload = id -> is_accept payload = true ->
      ActiveRequest.status r = ASSIGNED
  | DispatchTick now => due now r = false
  | _ => True
  end ->
  JSMap.get (State.activeRequests (fire self e st)) id = Some r.
Proof.
  intros Hget Hreq Hrest.
  destruct e as [now sender text|now|getLists driversItems livreursItems]; simpl.
  - destruct (checkMessage_cases self now sender text st)
      as [E|(p & -> & _ & [[_ E]|[[Hr E]|(Ha & _ & E)]])]; rewrite E.
    + assumption.
    + now destruct (handleDriverAvailability_frame now sender p st) as (-> & _).
    + simpl in Hreq.
      destruct (handleRequest_outcome now sender p st)
        as [E'|[E'|(lat & lon & c & cs & _ & _ & _ & _ & _ & E')]]; rewrite E';
        try assumption.
      simpl. rewrite get_set_ne; [assumption|].
      intros Hid. specialize (Hreq Hid). congruence.
    + destruct (String.eqb (Payload.orderId p) id) eqn:Eid.
      * apply String.eqb_eq in Eid. specialize (Hrest Eid Ha).
        unfold handleAccept. rewrite Eid, Hget, Hrest. simpl. exact Hget.
      * apply String.eqb_neq in Eid.
        destruct (handleAccept_requests sender p st) as [E'|(req & _ & E')];
          rewrite E'; [assumption|]. now rewrite get_set_ne.
  - rewrite processRequests_requests, get_processEntries, Hget. simpl.
    now rewrite (processRequest_not_due _ _ _ Hrest).
  - now destruct (refreshDriverLists_frame getLists driversItems livreursItems st)
      as (_ & -> & _).
Qed.

End Waiting.

Section WaitingFacts.
Context {M : MathObject}.

(** X11: A request changes only by a message for its id or by a tick at which it
    is due.  Over any sequence of events that holds neither a request nor an
    accept message for the id, and no tick at which the request is PENDING
    with the interval elapsed and a candidate left, the request stays exactly
    as it is.  So a request whose candidates are used up stays PENDING
    through every tick, and a request offered at time t through every tick
    before t + 30000: nothing expires it. *)
Theorem request_waits_until_due self events st id r :
  JSMap.get (State.activeRequests st) id = Some r ->
  Forall (idle_for id r) events ->
  JSMap.get (State.activeRequests (run self events st)) id = Some r.
Proof.
  intros Hget Hall. revert st Hget.
  induction Hall as [|e events He _ IH]; intros st Hget; simpl; [assumption|].
  apply IH. apply fire_keeps_request; [assumption| |].
  - destruct e as [now sender [p|]|now|]; simpl in *; auto.
    intros Hid. now destruct (He Hid).
  - destruct e as [now sender [p|]|now|]; simpl in *; auto.
    intros Hid Ha. destruct (He Hid). congruence.
Qed.

(** X12: Unavailable candidates are passed one per tick, without the interval in
    between.  When the interval has elapsed for a PENDING request and the
    workers of its next [k] candidates are not AVAILABLE in the registry, [k]
    ticks (at any times at which the interval has elapsed) move the cursor [k]
    positions forward and change nothing else of the request: nobody is
    notified and the time of the last offer stays. *)
Theorem unavailable_candidates_are_passed_tick_by_tick self nows st id r :
  JSMap.get (State.activeRequests st) id = Some r ->
  ActiveRequest.status r = PENDING ->
  Forall (fun now => DISPATCH_INTERVAL_MS <= now - ActiveRequest.lastNotificationTime r)
    nows ->
  (forall i, (ActiveRequest.nextCandidateIndex r <= i
              < ActiveRequest.nextCandidateIndex r + length nows)%nat ->
     exists c, nth_error (ActiveRequest.candidates r) i = Some c
               /\ unavailable (State.drivers st) (Candidate.did c)) ->
  JSMap.get (State.activeRequests (run self (List.map DispatchTick nows) st)) id
  = Some (ActiveRequest.set_nextCandidateIndex
            (ActiveRequest.nextCandidateIndex r + length nows) r).
Proof.
  intros Hget Hs Hall. revert st r Hget Hs Hall.
  induction nows as [|now nows IH]; intros st r Hget Hs Hall Hun; simpl.
  - rewrite Nat.add_0_r, Hget. now destruct r.
  - inversion Hall as [|? ? Ht Hall']; subst.
    destruct (Hun (ActiveRequest.nextCandidateIndex r)) as (c & Hc & Hu);
      [simpl; lia|].
    pose proof (processRequest_skip now (State.drivers st) r c Hs Ht Hc Hu) as Hstep.
    destruct (processRequests_frame now st) as (Ed & _).
    rewrite (IH (processRequests now st)
               (ActiveRequest.set_nextCandidateIndex
                  (S (ActiveRequest.nextCandidateIndex r)) r)).
    + simpl. unfold ActiveRequest.set_nextCandidateIndex. simpl.
      now rewrite Nat.add_succ_r.
    + rewrite processRequests_requests, get_processEntries, Hget. simpl.
      now rewrite Hstep.
    + exact Hs.
    + exact Hall'.
    + simpl. intros i Hi. rewrite Ed. apply Hun. simpl. lia.
Qed.


End WaitingFacts.

(** ** Who may accept *)

Lemma filter_others_absent senderDid (l : list string) :
  ~ In senderDid l ->
  List.filter (fun d => negb (String.eqb d senderDid)) l = l.
Proof.
  induction l as [|d l IH]; simpl; [reflexivity|].
  intros H. destruct (String.eqb d senderDid) eqn:E.
  - apply String.eqb_eq in E. tauto.
  - simpl. rewrite IH; tauto.
Qed.

(** X14: Nothing ties the accepting sender to the request.  A sender that was
    never offered the request and has no record in the registry is assigned a
    PENDING request all the same: the customer is sent ORDER_ASSIGNED naming
    the sender, with no location; every notified driver is sent
    ORDER_TAKEN_BY_OTHER; the sender is sent ORDER_CONFIRMED with the
    customer's did and the payload of the request. *)
Theorem accept_by_outsider senderDid payload st req :
  JSMap.get (State.activeRequests st) (Payload.orderId payload) = Some req ->
  ActiveRequest.status req = PENDING ->
  ~ In senderDid (ActiveRequest.notifiedDrivers req) ->
  JSMap.get (State.drivers st) senderDid = None ->
  let st' := handleAccept senderDid payload st in
  JSMap.get (State.activeRequests st') (Payload.orderId payload)
  = Some (ActiveRequest.set_status ASSIGNED req)
  /\ State.sent st' =
     (State.sent st ++
      [(ActiveRequest.customerDid req,
        ORDER_ASSIGNED (Payload.orderId payload) senderDid None)] ++
      List.map (fun d => (d, ORDER_TAKEN_BY_OTHER (Payload.orderId payload)))
        (ActiveRequest.notifiedDrivers req) ++
      [(senderDid,
        ORDER_CONFIRMED (Payload.orderId payload) (ActiveRequest.customerDid req)
          (ActiveRequest.data req))])%list
  /\ State.drivers st' = State.drivers st.
Proof.
  intros Hget Hs Hn Hd st'. unfold st'.
  rewrite (handleAccept_pending senderDid payload st req Hget Hs). simpl.
  rewrite Hd, (filter_others_absent _ _ Hn).
  repeat split. apply get_set_eq.
Qed.

Lemma handleAccept_orderId senderDid payload payload' st :
  Payload.orderId payload = Payload.orderId payload' ->
  handleAccept senderDid payload st = handleAccept senderDid payload' st.
Proof. intros H. unfold handleAccept. now rewrite H. Qed.

Section DispatchFacts.
Context {M : MathObject}.

Lemma checkMessage_accept self now sender payload st :
  is_accept payload = true ->
  checkMessage self now sender (Some payload) st
  = if String.eqb sender self then st else handleAccept sender payload st.
Proof.
  unfold checkMessage, is_accept. intros H.
  destruct (String.eqb sender self); [reflexivity|].
  apply orb_true_iff in H.
  destruct H as [H|H]; apply String.eqb_eq in H; rewrite H; reflexivity.
Qed.

(** X15: The kind of an accept is not checked.  RIDE_ACCEPTED and
    DELIVERY_ACCEPTED are handled alike, and of an accept message only the
    sender and the order id are read: two accept messages of one sender for
    one order id have the same effect, whatever their tags, their other
    fields and their times of arrival.  A RIDE_ACCEPTED takes a delivery. *)
Theorem accept_kind_is_not_checked self now now' sender payload payload' st :
  is_accept payload = true -> is_accept payload' = true ->
  Payload.orderId payload = Payload.orderId payload' ->
  checkMessage self now sender (Some payload) st
  = checkMessage self now' sender (Some payload') st.
Proof.
  intros Ha Ha' Hid. rewrite !checkMessage_accept by assumption.
  destruct (String.eqb sender self); [reflexivity|].
  now apply handleAccept_orderId.
Qed.

(** X16: What the message loop passes over: a message of the bot's own session, a
    body that is not JSON, and a payload whose type is none of the five tags
    (a tag in another case, an offer, a missing type) change nothing and are
    answered by nothing. *)
Theorem unhandled_messages_change_nothing self now sender text st :
  sender = self
  \/ text = None
  \/ (exists payload,
        text = Some payload
        /\ ~ In (Payload.type payload)
             ["DRIVER_AVAILABILITY"; "RIDE_REQUEST"; "DELIVERY_REQUEST";
              "RIDE_ACCEPTED"; "DELIVERY_ACCEPTED"]) ->
  checkMessage self now sender text st = st.
Proof.
  intros [H|[H|(p & H & Hp)]]; unfold checkMessage.
  - subst. now rewrite String.eqb_refl.
  - subst. now destruct (String.eqb sender self).
  - subst. destruct (String.eqb sender self); [reflexivity|].
    repeat match goal with
    | |- context [String.eqb (Payload.type p) ?s] =>
        let E := fresh "E" in
        destruct (String.eqb (Payload.type p) s) eqn:E;
          [apply String.eqb_eq in E; exfalso; apply Hp; rewrite E; simpl; tauto|]
    end.
    reflexivity.
Qed.

End DispatchFacts.

(** ** Availability *)

(** X17: An availability message of a sender on neither list changes nothing: no
    record is made and no answer is sent.  Of a sender on a list it stores,
    under the sender's did, the record made of the status and the location of
    the payload, the time of arrival, the class the lists give (DRIVERS when
    the sender is on the drivers' list, LIVREURS otherwise) and the did: the
    record that was there is replaced as a whole and keeps its place in the
    registry, a first report is added at the end.  Every other record, the
    requests, the lists and the log stay. *)
Theorem availability_touches_one_record now senderDid payload st :
  let st' := handleDriverAvailability now senderDid payload st in
  let listed := senderDid ∈ State.validDrivers st \/ senderDid ∈ State.validLivreurs st in
  (senderDid ∉ State.validDrivers st -> senderDid ∉ State.validLivreurs st -> st' = st)
  /\ (listed ->
      JSMap.get (State.drivers st') senderDid
      = Some (DriverState.mk (Payload.status payload) (Payload.location payload) now
                (if Set_has (State.validDrivers st) senderDid then DRIVERS else LIVREURS)
                senderDid))
  /\ (forall w, w <> senderDid ->
        JSMap.get (State.drivers st') w = JSMap.get (State.drivers st) w)
  /\ (forall old, JSMap.get (State.drivers st) senderDid = Some old ->
        JSMap.keys (State.drivers st') = JSMap.keys (State.drivers st))
  /\ (JSMap.get (State.drivers st) senderDid = None -> listed ->
      JSMap.keys (State.drivers st')
      = (JSMap.keys (State.drivers st) ++ [senderDid])%list)
  /\ State.activeRequests st' = State.activeRequests st
  /\ State.validDrivers st' = State.validDrivers st
  /\ State.validLivreurs st' = State.validLivreurs st
  /\ State.sent st' = State.sent st.
Proof.
  intros st' listed. unfold st', listed.
  assert (Hlisted : senderDid ∈ State.validDrivers st \/ senderDid ∈ State.validLivreurs st ->
            State.drivers (handleDriverAvailability now senderDid payload st)
            = JSMap.set (State.drivers st) senderDid
                (DriverState.mk (Payload.status payload) (Payload.location payload) now
                   (if Set_has (State.validDrivers st) senderDid then DRIVERS
                    else LIVREURS) senderDid)).
  { intros H. unfold handleDriverAvailability.
    destruct (Set_has (State.validDrivers st) senderDid) eqn:Ed; [reflexivity|].
    destruct (Set_has (State.validLivreurs st) senderDid) eqn:El; [reflexivity|].
    apply Set_has_false in Ed, El. tauto. }
  split; [|split; [|split; [|split; [|split]]]].
  - intros Hd Hl. unfold handleDriverAvailability.
    apply Set_has_false in Hd, Hl. now rewrite Hd, Hl.
  - intros H. rewrite (Hlisted H). apply get_set_eq.
  - intros w Hw.
    destruct (handleDriverAvailability_drivers now senderDid payload st) as [E|[type E]];
      rewrite E; [reflexivity|]. apply get_set_ne. congruence.
  - intros old Hold.
    destruct (handleDriverAvailability_drivers now senderDid payload st) as [E|[type E]];
      rewrite E; [reflexivity|]. now apply keys_set_present with (v0 := old).
  - intros Hnone H. rewrite (Hlisted H). now apply keys_set_absent.
  - apply handleDriverAvailability_frame.
Qed.

(** ** Candidates and the registry *)

Section Routing.
Context {M : MathObject}.

(** X18: The class a request asks for follows its tag alone: DELIVERY_REQUEST
    asks for LIVREURS and is stored as DELIVERY, every other tag for DRIVERS
    and is stored as RIDE.  In any reachable state [handleRequest] either
    leaves the store as it is or puts there, under the order id, a PENDING
    request of the sender with the payload, cursor 0, nobody notified and
    the time of the last offer at 0, each of whose candidates is a worker
    whose record in the registry, found under the candidate's did, has the
    class asked for, is AVAILABLE and has a location; the candidate's
    distance is the one from the origin of the request to that location. *)
Theorem request_is_routed_by_class self events now senderDid payload :
  let st := run self events initial in
  let st' := handleRequest now senderDid payload st in
  let delivery := String.eqb (Payload.type payload) "DELIVERY_REQUEST" in
  State.activeRequests st' = State.activeRequests st
  \/ exists candidates lat lon,
       State.activeRequests st'
       = JSMap.set (State.activeRequests st) (Payload.orderId payload)
           (ActiveRequest.mk (Payload.orderId payload)
              (if delivery then DELIVERY else RIDE) PENDING senderDid candidates
              0%nat [] payload now 0)
       /\ reqLat payload = Some lat /\ reqLon payload = Some lon
       /\ Forall (fun c =>
            exists d loc,
              JSMap.get (State.drivers st) (Candidate.did c) = Some d
              /\ DriverState.type d = (if delivery then LIVREURS else DRIVERS)
              /\ DriverState.status d = AVAILABLE
              /\ DriverState.location d = Some loc
              /\ Candidate.distance c
                 = getDistance lat lon (Location.latitude loc) (Location.longitude loc))
          candidates.
Proof.
  intros st st' delivery.
  destruct (run_state_ok self events initial initial_state_ok) as (Hreg & _ & _).
  fold st in Hreg.
  destruct (handleRequest_outcome now senderDid payload st)
    as [E|[E|(lat & lon & c & cs & Hlat & Hlon & _ & _ & Ec & E)]]; unfold st';
    rewrite E; [now left..|].
  right. exists (c :: cs), lat, lon. repeat split; auto.
  rewrite <- Ec. apply List.Forall_forall. intros c' Hin.
  destruct (computeCandidates_lookup (State.drivers st) (reqType payload) lat lon c'
              Hreg Hin) as (d & Hd & Hc & He).
  apply eligible_spec in He. destruct He as (Ht & Ha & loc & Hl).
  exists d, loc. repeat split; auto.
  rewrite Hc. unfold toCandidate. now rewrite Hl.
Qed.

Lemma candidates_registered_keys st st' :
  incl (JSMap.keys (State.drivers st)) (JSMap.keys (State.drivers st')) ->
  State.activeRequests st' = State.activeRequests st ->
  candidates_registered st -> candidates_registered st'.
Proof.
  intros Hincl Er. unfold candidates_registered. rewrite Er.
  apply List.Forall_impl. intros e. apply List.Forall_impl. intros c. apply Hincl.
Qed.

Lemma processEntries_candidates now drivers (P : list Candidate.t -> Prop) entries :
  Forall (fun e => P (ActiveRequest.candidates (snd e))) entries ->
  Forall (fun e => P (ActiveRequest.candidates (snd e)))
    (fst (processEntries now drivers entries)).
Proof.
  induction 1 as [|[k r] rest Hr _ IH]; simpl; [constructor|].
  pose proof (ev_candidates _ _ (tick_evolves now drivers r)) as Hc.
  destruct (processRequest now drivers r) as [r' out].
  destruct (processEntries now drivers rest) as [rest' outs].
  simpl in *. constructor; [simpl; now rewrite Hc | assumption].
Qed.

Lemma fire_candidates_registered self e st :
  state_ok st -> candidates_registered st -> candidates_registered (fire self e st).
Proof.
  intros (Hreg & _ & _) Hcr.
  destruct e as [now sender text|now|getLists driversItems livreursItems]; simpl.
  - destruct (checkMessage_cases self now sender text st)
      as [E|(p & _ & _ & [[_ E]|[[_ E]|(_ & _ & E)]])]; rewrite E.
    + assumption.
    + destruct (handleDriverAvailability_frame now sender p st) as (Er & _).
      apply candidates_registered_keys with (st := st); [|assumption..].
      destruct (handleDriverAvailability_drivers now sender p st) as [Ed|[type Ed]];
        rewrite Ed; [apply incl_refl | apply keys_set_incl].
    + destruct (handleRequest_outcome now sender p st)
        as [E'|[E'|(lat & lon & c & cs & _ & _ & _ & _ & Ec & E')]]; rewrite E';
        try assumption.
      unfold candidates_registered. simpl. apply Forall_set; [assumption|].
      simpl. rewrite <- Ec. apply List.Forall_forall. intros c' Hc'.
      destruct (computeCandidates_lookup _ _ _ _ _ Hreg Hc') as (d & Hd & _).
      destruct (in_dec string_dec (Candidate.did c') (JSMap.keys (State.drivers st)))
        as [Hin|Hout]; [assumption|].
      apply get_None_keys in Hout. congruence.
    + destruct (handleAccept_frame sender p st) as (Ed & _).
      unfold candidates_registered. rewrite Ed.
      destruct (handleAccept_requests sender p st) as [E'|(req & Hreq & E')];
        rewrite E'; [assumption|].
      apply Forall_set; [assumption|]. simpl.
      apply get_Some_In in Hreq. unfold candidates_registered in Hcr.
      rewrite List.Forall_forall in Hcr. exact (Hcr _ Hreq).
  - destruct (processRequests_frame now st) as (Ed & _).
    unfold candidates_registered. rewrite Ed, processRequests_requests.
    now apply processEntries_candidates
      with (P := Forall (fun c => In (Candidate.did c) (JSMap.keys (State.drivers st)))).
  - destruct (refreshDriverLists_frame getLists driversItems livreursItems st)
      as (Ed & Er & _).
    unfold candidates_registered. now rewrite Ed, Er.
Qed.

Lemma run_candidates_registered self events st :
  state_ok st -> candidates_registered st ->
  candidates_registered (run self events st).
Proof.
  revert st. induction events as [|e events IH]; intros st Hok Hcr; simpl;
    [assumption|].
  apply IH; [now apply fire_state_ok | now apply fire_candidates_registered].
Qed.

(** X19: The lookup of the tick always finds a record.  In every reachable state
    each candidate of each stored request has a record in the registry, under
    the candidate's did: records are never deleted.  When the tick passes a
    candidate over, it is because the record is UNAVAILABLE; the case of a
    worker without a record does not occur. *)
Theorem candidates_stay_registered self events :
  let st := run self events initial in
  Forall (fun e =>
       Forall (fun c =>
            exists d, JSMap.get (State.drivers st) (Candidate.did c) = Some d
                      /\ DriverState.did d = Candidate.did c)
         (ActiveRequest.candidates (snd e)))
    (State.activeRequests st).
Proof.
  intros st.
  assert (Hcr : candidates_registered st).
  { apply run_candidates_registered; [apply initial_state_ok | constructor]. }
  destruct (run_state_ok self events initial initial_state_ok) as ((Hnd & Hdid) & _ & _).
  fold st in Hnd, Hdid.
  eapply List.Forall_impl; [|exact Hcr].
  intros e. apply List.Forall_impl. intros c Hin.
  destruct (JSMap.get (State.drivers st) (Candidate.did c)) as [d|] eqn:Ed.
  - exists d. split; [reflexivity|].
    apply get_Some_In in Ed. rewrite List.Forall_forall in Hdid.
    exact (Hdid _ Ed).
  - apply get_None_keys in Ed. contradiction.
Qed.

(** X20: Until the lists are refreshed nobody can register, and so no request
    can be stored.  From start-up, over any sequence of messages and ticks
    without a list refresh, the registry and the request store stay empty,
    and every message the bot sends is a NO_DRIVERS_AVAILABLE. *)
Theorem nothing_is_stored_before_the_first_refresh self events :
  Forall (fun e => is_refresh e = false) events ->
  let st := run self events initial in
  State.drivers st = []
  /\ State.activeRequests st = []
  /\ Forall (fun m => exists orderId, snd m = NO_DRIVERS_AVAILABLE orderId) (State.sent st).
Proof.
  intros Hall.
  assert (Hgen : forall st0,
             State.drivers st0 = [] -> State.activeRequests st0 = [] ->
             State.validDrivers st0 = ∅ -> State.validLivreurs st0 = ∅ ->
             Forall (fun m => exists orderId, snd m = NO_DRIVERS_AVAILABLE orderId)
               (State.sent st0) ->
             let st := run self events st0 in
             State.drivers st = [] /\ State.activeRequests st = []
             /\ Forall (fun m => exists orderId, snd m = NO_DRIVERS_AVAILABLE orderId)
                  (State.sent st)).
  { induction Hall as [|e events He _ IH]; intros st0 Hd Hr Hvd Hvl Hs; simpl;
      [auto|].
    destruct (fire_sets self e st0 He) as (Evd & Evl).
    assert (Hstep : State.drivers (fire self e st0) = []
                    /\ State.activeRequests (fire self e st0) = []
                    /\ Forall (fun m => exists orderId, snd m = NO_DRIVERS_AVAILABLE orderId)
                         (State.sent (fire self e st0))).
    { destruct e as [now sender text|now|]; simpl; [| |discriminate He].
      - destruct (checkMessage_cases self now sender text st0)
          as [E|(p & _ & _ & [[_ E]|[[_ E]|(_ & _ & E)]])]; rewrite E.
        + auto.
        + unfold handleDriverAvailability, Set_has. rewrite Hvd, Hvl.
          rewrite !bool_decide_eq_false_2 by set_solver. auto.
        + unfold handleRequest.
          destruct (reqLat p) as [lat|]; [|auto].
          destruct (reqLon p) as [lon|]; [|auto].
          destruct (negb (Number.truthy lat) || negb (Number.truthy lon)); [auto|].
          unfold computeCandidates. rewrite Hd. simpl.
          repeat split; auto. apply Forall_app. split; [assumption|].
          constructor; [|constructor]. simpl. eauto.
        + unfold handleAccept. rewrite Hr. simpl. auto.
      - unfold processRequests. rewrite Hr. simpl. rewrite app_nil_r. auto. }
    destruct Hstep as (Hd' & Hr' & Hs').
    apply IH; auto; congruence. }
  apply Hgen; try reflexivity. constructor.
Qed.

End Routing.

(** ** The list refresh *)

Lemma refreshDriverLists_success lists driversItems livreursItems st :
  refreshDriverLists (Some (true, lists)) driversItems livreursItems st
  = match List.find driversTag lists with
    | Some dl =>
        match driversItems (ListView.uri dl) with
        | Some ditems =>
            match List.find livreursTag lists with
            | Some ll =>
                match livreursItems (ListView.uri ll) with
                | Some litems =>
                    State.mk (State.drivers st) (State.activeRequests st)
                      (list_to_set ditems) (list_to_set litems) (State.sent st)
                | None => set_validDrivers (list_to_set ditems) st
                end
            | None => set_validDrivers (list_to_set ditems) st
            end
        | None => st
        end
    | None =>
        match List.find livreursTag lists with
        | Some ll =>
            match livreursItems (ListView.uri ll) with
            | Some litems => set_validLivreurs (list_to_set litems) st
            | None => st
            end
        | None => st
        end
    end.
Proof.
  unfold refreshDriverLists. simpl.
  destruct (List.find driversTag lists) as [dl|];
    [destruct (driversItems (ListView.uri dl))|];
    destruct (List.find livreursTag lists) as [ll|];
    try destruct (livreursItems (ListView.uri ll)); reflexivity.
Qed.

(** X21: A refresh that fails keeps the lists.  When [getLists] throws or answers
    without success, nothing changes; when no list carries a tag, that set is
    left as it was (not emptied); when the fetch of the drivers' list throws,
    nothing changes, the livreurs' list is not even asked for; when the fetch
    of the livreurs' list throws after the drivers' list was fetched, the
    drivers' set is the new one and the livreurs' set the old one. *)
Theorem failed_refresh_keeps_the_lists lists driversItems livreursItems st :
  refreshDriverLists None driversItems livreursItems st = st
  /\ refreshDriverLists (Some (false, lists)) driversItems livreursItems st = st
  /\ (List.find driversTag lists = None ->
      State.validDrivers
        (refreshDriverLists (Some (true, lists)) driversItems livreursItems st)
      = State.validDrivers st)
  /\ (List.find livreursTag lists = None ->
      State.validLivreurs
        (refreshDriverLists (Some (true, lists)) driversItems livreursItems st)
      = State.validLivreurs st)
  /\ (forall dl,
        List.find driversTag lists = Some dl ->
        driversItems (ListView.uri dl) = None ->
        refreshDriverLists (Some (true, lists)) driversItems livreursItems st = st)
  /\ (forall dl ditems ll,
        List.find driversTag lists = Some dl ->
        driversItems (ListView.uri dl) = Some ditems ->
        List.find livreursTag lists = Some ll ->
        livreursItems (ListView.uri ll) = None ->
        refreshDriverLists (Some (true, lists)) driversItems livreursItems st
        = set_validDrivers (list_to_set ditems) st).
Proof.
  split; [reflexivity|]. split; [reflexivity|].
  rewrite refreshDriverLists_success.
  split; [|split; [|split]].
  - intros ->. destruct (List.find livreursTag lists) as [ll|];
      [destruct (livreursItems (ListView.uri ll))|]; reflexivity.
  - intros ->. destruct (List.find driversTag lists) as [dl|];
      [destruct (driversItems (ListView.uri dl))|]; reflexivity.
  - intros dl -> ->. reflexivity.
  - intros dl ditems ll -> -> -> ->. reflexivity.
Qed.

(** X22: A refresh that succeeds replaces the lists.  Each set becomes the set of
    the dids fetched from the first list of the response whose description
    includes the tag: a worker who is no longer on that list is out of the
    set, whatever the set held before.  The registry, the requests and the
    log stay: the record of a worker who left the list stays in the registry. *)
Theorem refresh_replaces_the_lists lists driversItems livreursItems st dl ditems ll litems :
  List.find driversTag lists = Some dl ->
  driversItems (ListView.uri dl) = Some ditems ->
  List.find livreursTag lists = Some ll ->
  livreursItems (ListView.uri ll) = Some litems ->
  let st' := refreshDriverLists (Some (true, lists)) driversItems livreursItems st in
  (forall w, w ∈ State.validDrivers st' <-> In w ditems)
  /\ (forall w, w ∈ State.validLivreurs st' <-> In w litems)
  /\ State.drivers st' = State.drivers st
  /\ State.activeRequests st' = State.activeRequests st
  /\ State.sent st' = State.sent st.
Proof.
  intros Hd Hdi Hl Hli st'. unfold st'.
  rewrite refreshDriverLists_success, Hd, Hdi, Hl, Hli. simpl.
  repeat split; try (intros H; apply list_elem_of_In; set_solver).
  all: intros H; apply list_elem_of_In in H; set_solver.
Qed.

Section Commute.
Context {M : MathObject}.

Lemma handleRequest_lists now senderDid payload st vd vl :
  handleRequest now senderDid payload
    (State.mk (State.drivers st) (State.activeRequests st) vd vl (State.sent st))
  = let st' := handleRequest now senderDid payload st in
    State.mk (State.drivers st') (State.activeRequests st') vd vl (State.sent st').
Proof.
  unfold handleRequest. simpl.
  destruct (reqLat payload) as [lat|]; [|reflexivity].
  destruct (reqLon payload) as [lon|]; [|reflexivity].
  destruct (negb (Number.truthy lat) || negb (Number.truthy lon)); [reflexivity|].
  now destruct (computeCandidates (State.drivers st) (reqType payload) lat lon).
Qed.

Lemma handleAccept_lists senderDid payload st vd vl :
  handleAccept senderDid payload
    (State.mk (State.drivers st) (State.activeRequests st) vd vl (State.sent st))
  = let st' := handleAccept senderDid payload st in
    State.mk (State.drivers st') (State.activeRequests st') vd vl (State.sent st').
Proof.
  destruct (JSMap.get (State.activeRequests st) (Payload.orderId payload))
    as [req|] eqn:E.
  - destruct (ActiveRequest.status req) eqn:Es.
    + rewrite (handleAccept_pending senderDid payload st req E Es).
      now rewrite (handleAccept_pending senderDid payload
                     (State.mk (State.drivers st) (State.activeRequests st) vd vl
                        (State.sent st)) req E Es).
    + unfold handleAccept. simpl. now rewrite E, Es.
  - unfold handleAccept. simpl. now rewrite E.
Qed.

Lemma processRequests_lists now st vd vl :
  processRequests now
    (State.mk (State.drivers st) (State.activeRequests st) vd vl (State.sent st))
  = let st' := processRequests now st in
    State.mk (State.drivers st') (State.activeRequests st') vd vl (State.sent st').
Proof.
  unfold processRequests. simpl.
  now destruct (processEntries now (State.drivers st) (State.activeRequests st)).
Qed.

Lemma refreshDriverLists_lists getLists driversItems livreursItems st :
  exists f g,
    forall st0,
      State.validDrivers st0 = State.validDrivers st ->
      State.validLivreurs st0 = State.validLivreurs st ->
      refreshDriverLists getLists driversItems livreursItems st0
      = State.mk (State.drivers st0) (State.activeRequests st0) f g (State.sent st0).
Proof.
  destruct getLists as [[[] lists]|].
  - destruct (List.find driversTag lists) as [dl|] eqn:Ed;
      [destruct (driversItems (ListView.uri dl)) as [ditems|] eqn:Edi|];
      (destruct (List.find livreursTag lists) as [ll|] eqn:El;
       [destruct (livreursItems (ListView.uri ll)) as [litems|] eqn:Eli|]);
      eexists _, _; intros st0 H1 H2;
      rewrite refreshDriverLists_success, ?Ed, ?Edi, ?El, ?Eli;
      unfold set_validDrivers, set_validLivreurs; simpl;
      try reflexivity; destruct st0; simpl in *; subst; reflexivity.
  - eexists _, _. intros st0 H1 H2. destruct st0; simpl in *; subst; reflexivity.
  - eexists _, _. intros st0 H1 H2. destruct st0; simpl in *; subst; reflexivity.
Qed.

(** X23: Only the availability handler reads the lists.  A list refresh commutes
    with every request message, every accept message and every tick: whether
    the lists are refreshed before or after makes no difference to what is
    stored and sent.  A worker taken off the lists is still a candidate of new
    requests, is still offered stored ones and can still accept. *)
Theorem only_availability_reads_the_lists getLists driversItems livreursItems st :
  let refresh := refreshDriverLists getLists driversItems livreursItems in
  (forall now senderDid payload,
     handleRequest now senderDid payload (refresh st)
     = refresh (handleRequest now senderDid payload st))
  /\ (forall senderDid payload,
        handleAccept senderDid payload (refresh st)
        = refresh (handleAccept senderDid payload st))
  /\ (forall now, processRequests now (refresh st) = refresh (processRequests now st)).
Proof.
  intros refresh. unfold refresh.
  destruct (refreshDriverLists_lists getLists driversItems livreursItems st)
    as (f & g & Hfg).
  rewrite (Hfg st eq_refl eq_refl).
  split; [|split].
  - intros now senderDid payload. rewrite handleRequest_lists. simpl.
    rewrite Hfg; [reflexivity| |].
    + destruct (handleRequest_outcome now senderDid payload st)
        as [E|[E|(lat & lon & c & cs & _ & _ & _ & _ & _ & E)]]; now rewrite E.
    + destruct (handleRequest_outcome now senderDid payload st)
        as [E|[E|(lat & lon & c & cs & _ & _ & _ & _ & _ & E)]]; now rewrite E.
  - intros senderDid payload. rewrite handleAccept_lists. simpl.
    destruct (handleAccept_frame senderDid payload st) as (_ & Ev & El).
    now rewrite Hfg.
  - intros now. rewrite processRequests_lists. simpl.
    destruct (processRequests_frame now st) as (_ & Ev & El).
    now rewrite Hfg.
Qed.

(** X24: The two coordinates of the origin fall back separately.  When the pickup
    has a latitude of 0 and a longitude other than 0 and the legacy field is
    there too, the origin of the request is the legacy latitude with the
    pickup longitude, a point that neither field names, and the candidates
    are ranked by their distance to it. *)
Theorem origin_coordinates_fall_back_separately now senderDid payload st pickup legacy :
  Payload.pickup payload = Some pickup ->
  Payload.deliveryLocation payload = Some legacy ->
  Number.truthy (Location.latitude pickup) = false ->
  Number.truthy (Location.longitude pickup) = true ->
  Number.truthy (Location.latitude legacy) = true ->
  reqLat payload = Some (Location.latitude legacy)
  /\ reqLon payload = Some (Location.longitude pickup)
  /\ handleRequest now senderDid payload st
     = match computeCandidates (State.drivers st) (reqType payload)
               (Location.latitude legacy) (Location.longitude pickup) with
       | [] => sendDM senderDid (NO_DRIVERS_AVAILABLE (Payload.orderId payload)) st
       | c :: cs =>
           State.set_activeRequests
             (JSMap.set (State.activeRequests st) (Payload.orderId payload)
                (newRequest now senderDid payload (c :: cs))) st
       end.
Proof.
  intros Hp Hl Tplat Tplon Tllat.
  assert (Hlat : reqLat payload = Some (Location.latitude legacy)).
  { unfold reqLat. rewrite Hp, Hl. simpl. now rewrite Tplat. }
  assert (Hlon : reqLon payload = Some (Location.longitude pickup)).
  { unfold reqLon. rewrite Hp, Hl. simpl. now rewrite Tplon. }
  repeat split; auto.
  now apply handleRequest_located.
Qed.

End Commute.

(** ** Binary64: the order through ranks *)

Module Binary64Order.
Local Close Scope string_scope.
Import Binary64.

Lemma finite_rank_bounds (m : positive) (e : Z) :
  bounded prec emax m e = true ->
  0 < Zpos m * 2 ^ (e + 1074) < 2 ^ 2100.
Proof.
  intros Hb. destruct (bounded_facts m e Hb) as (He & Hd & _).
  pose proof (digits2_pos_bounds m) as [_ Hm].
  assert (H53 : Zpos m < 2 ^ 53).
  { eapply Z.lt_le_trans; [exact Hm|]. apply Z.pow_le_mono_r; lia. }
  assert (Hp : 0 < 2 ^ (e + 1074)) by (apply Z.pow_pos_nonneg; lia).
  assert (Hq : 2 ^ (e + 1074) <= 2 ^ 2045) by (apply Z.pow_le_mono_r; lia).
  split; [lia|].
  apply Z.le_lt_trans with (Zpos m * 2 ^ 2045).
  - apply Z.mul_le_mono_nonneg_l; [lia | exact Hq].
  - apply Z.lt_le_trans with (2 ^ 53 * 2 ^ 2045).
    + apply Z.mul_lt_mono_pos_r; [apply Z.pow_pos_nonneg; lia | exact H53].
    + rewrite <- Z.pow_add_r by lia. apply Z.pow_le_mono_r; lia.
Qed.

Lemma cond_Zopp_mul (s : bool) (a p : Z) : cond_Zopp s a * p = cond_Zopp s (a * p).
Proof. destruct s; simpl; lia. Qed.

Ltac by_compare :=
  symmetry;
  first [ apply Z.compare_eq_iff; lia
        | apply Z.compare_lt_iff; lia
        | apply Z.compare_gt_iff; lia ].

Lemma SFcompare_rank (X Y : spec_float) :
  valid_binary X = true -> valid_binary Y = true ->
  X <> S754_nan -> Y <> S754_nan ->
  SFcompare X Y = Some (SFrank X ?= SFrank Y).
Proof.
  intros VX VY NX NY.
  assert (Hinf : 0 < 2 ^ 2100) by (apply Z.pow_pos_nonneg; lia).
  destruct X as [sx|sx| |sx mx ex], Y as [sy|sy| |sy my ey]; try contradiction;
    simpl in VX, VY;
    try pose proof (finite_rank_bounds _ _ VX) as Hx;
    try pose proof (finite_rank_bounds _ _ VY) as Hy.
  9: { rewrite SFcompare_finite by assumption. f_equal.
       destruct (bounded_facts _ _ VX) as (Hex & _).
       destruct (bounded_facts _ _ VY) as (Hey & _).
       rewrite !shl_align_value by lia.
       set (q := Z.min ex ey).
       assert (Hq : 2 ^ (q + 1074) > 0) by (apply Z.lt_gt, Z.pow_pos_nonneg; lia).
       rewrite (Zmult_compare_compat_r _ _ _ Hq).
       rewrite !cond_Zopp_mul, <- !Z.mul_assoc, <- !Z.pow_add_r by lia.
       unfold SFrank.
       replace (ex - q + (q + 1074)) with (ex + 1074) by lia.
       replace (ey - q + (q + 1074)) with (ey + 1074) by lia.
       reflexivity. }
  all: cbn [SFcompare SFrank]; f_equal;
    repeat match goal with s : bool |- _ => destruct s end;
    cbn [cond_Zopp] in *; by_compare.
Qed.

Lemma compare_rank (x y : float) :
  is_nan x = false -> is_nan y = false ->
  SFcompare (Prim2SF x) (Prim2SF y) = Some (rank x ?= rank y).
Proof.
  intros Nx Ny. apply SFcompare_rank; auto using Prim2SF_valid, is_nan_false.
Qed.

Lemma compare_nan_l (x y : float) :
  is_nan x = true -> SFcompare (Prim2SF x) (Prim2SF y) = None.
Proof.
  unfold is_nan. rewrite FloatAxioms.eqb_spec. unfold SFeqb.
  destruct (Prim2SF x) as [s|s| |s m e] eqn:E; try reflexivity; intros H; exfalso.
  - now destruct s.
  - now destruct s.
  - simpl in H. rewrite Z.compare_refl, Pos.compare_cont_refl in H.
    now destruct s.
Qed.


Lemma compare_nan_r (x y : float) :
  is_nan y = true -> SFcompare (Prim2SF x) (Prim2SF y) = None.
Proof.
  intros Ny. rewrite (SFcompare_antisym (Prim2SF y) (Prim2SF x)) by apply Prim2SF_valid.
  now rewrite (compare_nan_l y x Ny).
Qed.

(** The three comparisons, read on the ranks. *)
Lemma leb_rank (x y : float) :
  (x <=? y)%float = true <->
  is_nan x = false /\ is_nan y = false /\ rank x <= rank y.
Proof.
  rewrite FloatAxioms.leb_spec. unfold SFleb.
  destruct (is_nan x) eqn:Nx; [rewrite (compare_nan_l x y Nx); intuition discriminate|].
  destruct (is_nan y) eqn:Ny; [rewrite (compare_nan_r x y Ny); intuition discriminate|].
  rewrite (compare_rank x y Nx Ny).
  destruct (rank x ?= rank y) eqn:E; cbv beta iota.
  - pose proof (proj1 (Z.compare_eq_iff _ _) E) as Hr. split; [intros _; repeat split; lia | reflexivity].
  - pose proof (proj1 (Z.compare_lt_iff _ _) E) as Hr. split; [intros _; repeat split; lia | reflexivity].
  - pose proof (proj1 (Z.compare_gt_iff _ _) E) as Hr. split; [discriminate | intros (_ & _ & H); lia].
Qed.

Lemma ltb_rank (x y : float) :
  (x <? y)%float = true <->
  is_nan x = false /\ is_nan y = false /\ rank x < rank y.
Proof.
  rewrite FloatAxioms.ltb_spec. unfold SFltb.
  destruct (is_nan x) eqn:Nx; [rewrite (compare_nan_l x y Nx); intuition discriminate|].
  destruct (is_nan y) eqn:Ny; [rewrite (compare_nan_r x y Ny); intuition discriminate|].
  rewrite (compare_rank x y Nx Ny).
  destruct (rank x ?= rank y) eqn:E; cbv beta iota.
  - pose proof (proj1 (Z.compare_eq_iff _ _) E) as Hr. split; [discriminate | intros (_ & _ & H); lia].
  - pose proof (proj1 (Z.compare_lt_iff _ _) E) as Hr. split; [intros _; repeat split; lia | reflexivity].
  - pose proof (proj1 (Z.compare_gt_iff _ _) E) as Hr. split; [discriminate | intros (_ & _ & H); lia].
Qed.

Lemma eqb_rank (x y : float) :
  (x =? y)%float = true <->
  is_nan x = false /\ is_nan y = false /\ rank x = rank y.
Proof.
  rewrite FloatAxioms.eqb_spec. unfold SFeqb.
  destruct (is_nan x) eqn:Nx; [rewrite (compare_nan_l x y Nx); intuition discriminate|].
  destruct (is_nan y) eqn:Ny; [rewrite (compare_nan_r x y Ny); intuition discriminate|].
  rewrite (compare_rank x y Nx Ny).
  destruct (rank x ?= rank y) eqn:E; cbv beta iota.
  - pose proof (proj1 (Z.compare_eq_iff _ _) E) as Hr. split; [intros _; repeat split; lia | reflexivity].
  - pose proof (proj1 (Z.compare_lt_iff _ _) E) as Hr. split; [discriminate | intros (_ & _ & H); lia].
  - pose proof (proj1 (Z.compare_gt_iff _ _) E) as Hr. split; [discriminate | intros (_ & _ & H); lia].
Qed.

End Binary64Order.

(** ** The sort is stable *)

Lemma dist_le_trans a b c : dist_le a b -> dist_le b c -> dist_le a c.
Proof.
  unfold dist_le. rewrite !Binary64Order.leb_rank. intuition lia.
Qed.

Lemma ascending_hd a l :
  ascending (a :: l) -> Forall (dist_le a) l.
Proof.
  unfold ascending. intros Hs.
  apply Sorted_StronglySorted in Hs; [|intros x y z; apply dist_le_trans].
  now inversion Hs.
Qed.

(** Nobody behind a farther candidate is at the distance of a nearer one. *)
Lemma beyond_is_elsewhere v x y l :
  PrimFloat.is_nan (Candidate.distance x) = false ->
  PrimFloat.is_nan (Candidate.distance y) = false ->
  Number.is_negative (byDistance x y) = true ->
  at_distance v x = true ->
  ascending (y :: l) ->
  List.filter (at_distance v) (y :: l) = [].
Proof.
  intros Nx Ny Hneg Hv Hs.
  unfold Number.is_negative, byDistance in Hneg.
  rewrite Binary64.ltb_sub_zero in Hneg by assumption.
  apply Binary64Order.ltb_rank in Hneg. destruct Hneg as (_ & _ & Hlt).
  unfold at_distance in Hv. apply Binary64Order.eqb_rank in Hv.
  destruct Hv as (_ & Nv & Hxv).
  assert (Hall : Forall (fun c => at_distance v c = false) (y :: l)).
  { constructor.
    - unfold at_distance. apply not_true_is_false. intros H.
      apply Binary64Order.eqb_rank in H. lia.
    - eapply List.Forall_impl; [|exact (ascending_hd y l Hs)].
      intros z Hz. unfold dist_le in Hz. apply Binary64Order.leb_rank in Hz.
      unfold at_distance. apply not_true_is_false. intros H.
      apply Binary64Order.eqb_rank in H. lia. }
  clear -Hall. induction Hall as [|z l' Hz _ IH]; simpl; [reflexivity|].
  now rewrite Hz.
Qed.

Lemma sort_insert_stable v x l :
  PrimFloat.is_nan (Candidate.distance x) = false -> no_NaN l -> ascending l ->
  List.filter (at_distance v) (sort_insert byDistance x l)
  = (List.filter (at_distance v) l ++ List.filter (at_distance v) [x])%list.
Proof.
  intros Nx Nl Hs. induction l as [|y l IH].
  - reflexivity.
  - inversion Nl as [|? ? Ny Nl']; subst.
    cbn [sort_insert].
    destruct (Number.is_negative (byDistance x y)) eqn:E.
    + cbn [List.filter]. destruct (at_distance v x) eqn:Ev.
      * change (if at_distance v y then y :: List.filter (at_distance v) l
                else List.filter (at_distance v) l)
          with (List.filter (at_distance v) (y :: l)).
        now rewrite (beyond_is_elsewhere v x y l Nx Ny E Ev Hs).
      * now rewrite app_nil_r.
    + assert (Hs' : ascending l) by (unfold ascending in *; now inversion Hs).
      cbn [List.filter]. rewrite (IH Nl' Hs').
      now destruct (at_distance v y).
Qed.

Lemma fold_insert_stable v l :
  forall acc,
    no_NaN acc -> no_NaN l -> ascending acc ->
    List.filter (at_distance v)
      (fold_left (fun acc x => sort_insert byDistance x acc) l acc)
    = (List.filter (at_distance v) acc ++ List.filter (at_distance v) l)%list.
Proof.
  induction l as [|x l IH]; intros acc Nacc Nl Hs; simpl fold_left.
  - now rewrite app_nil_r.
  - inversion Nl as [|? ? Nx Nl']; subst.
    rewrite IH; [| |assumption|now apply sort_insert_ascending].
    + rewrite (sort_insert_stable v x acc Nx Nacc Hs), <- app_assoc.
      f_equal. cbn [List.filter]. now destruct (at_distance v x).
    + apply no_NaN_perm with (x :: acc); [symmetry; apply sort_insert_perm|].
      now constructor.
Qed.

Lemma Array_sort_stable v l :
  no_NaN l ->
  List.filter (at_distance v) (Array_sort byDistance l) = List.filter (at_distance v) l.
Proof.
  intros Nl. unfold Array_sort.
  now rewrite fold_insert_stable by (assumption || constructor).
Qed.

Section Stability.
Context {M : MathObject}.

(** X25: Candidates at the same distance are offered in the order of the registry.
    When no computed distance is NaN, the candidates at any one distance
    stand in the candidate list in the order in which their records stand in
    the registry, that is the order in which the workers first reported: the
    sort of line 167 is stable and the comparator tells them apart by distance
    alone. *)
Theorem equidistant_candidates_keep_registry_order drivers reqType lat lon v :
  no_NaN (computeCandidates drivers reqType lat lon) ->
  List.filter (at_distance v) (computeCandidates drivers reqType lat lon)
  = List.filter (at_distance v)
      (List.map (toCandidate lat lon)
         (List.filter (eligible reqType) (JSMap.values drivers))).
Proof.
  intros Hn. unfold computeCandidates. apply Array_sort_stable.
  apply no_NaN_perm with (2 := Hn). apply computeCandidates_perm.
Qed.

End Stability.

(** ** Offers in the order of the candidates *)



Section InOrder.
Context {M : MathObject}.


End InOrder.

(** ** The bot and its own did *)

Section Apart.
Context {M : MathObject}.

Lemma apart_tick self now st :
  apart_from self st -> apart_from self (processRequests now st).
Proof.
  intros (Hd & Hr & Hs).
  destruct (processRequests_frame now st) as (Ed & _).
  unfold apart_from.
  rewrite Ed, processRequests_requests, processRequests_sent, processEntries_sent.
  split; [assumption|].
  induction Hr as [|[k r] rest [Hc Hcs] _ IH]; simpl.
  - rewrite app_nil_r. split; [constructor | assumption].
  - destruct IH as [IH1 IH2].
    pose proof (processEntries_sent now (State.drivers st) rest) as Eout.
    destruct (processRequest_cases now (State.drivers st) r)
      as [E|[(c & _ & _ & _ & _ & E)|(c & d & _ & _ & Hnth & _ & _ & E)]];
      rewrite E;
      destruct (processEntries now (State.drivers st) rest) as [rest' outs];
      simpl in *; subst outs.
    + split; [constructor; auto | assumption].
    + split; [constructor; auto | assumption].
    + split; [constructor; auto|].
      apply Forall_app in IH2. destruct IH2 as [IHa IHb].
      apply Forall_app. split; [assumption|].
      constructor; [|assumption]. simpl.
      rewrite List.Forall_forall in Hcs. apply Hcs.
      now apply nth_error_In with (n := ActiveRequest.nextCandidateIndex r).
Qed.

Lemma apart_fire self e st :
  state_ok st -> apart_from self st -> apart_from self (fire self e st).
Proof.
  intros (Hreg & _ & Hok) (Hd & Hr & Hs).
  destruct e as [now sender text|now|getLists driversItems livreursItems]; simpl.
  - destruct (checkMessage_cases self now sender text st)
      as [E|(p & _ & Hself & [[_ E]|[[_ E]|(_ & _ & E)]])]; rewrite E.
    + now repeat split.
    + destruct (handleDriverAvailability_frame now sender p st) as (Er & _ & _ & Es).
      unfold apart_from. rewrite Er, Es.
      destruct (handleDriverAvailability_drivers now sender p st) as [Ed|[type Ed]];
        rewrite Ed; repeat split; auto.
      now apply Forall_set.
    + destruct (handleRequest_outcome now sender p st)
        as [E'|[E'|(lat & lon & c & cs & _ & _ & _ & _ & Ec & E')]]; rewrite E'.
      * now repeat split.
      * repeat split; simpl; auto. apply Forall_app. split; [assumption|].
        now repeat constructor.
      * repeat split; simpl; auto. apply Forall_set; [assumption|].
        simpl. split; [assumption|].
        rewrite <- Ec. apply List.Forall_forall. intros c' Hc'.
        destruct (computeCandidates_lookup _ _ _ _ _ Hreg Hc') as (d & Hget & _).
        apply get_Some_In in Hget. rewrite List.Forall_forall in Hd.
        exact (Hd _ Hget).
    + destruct (JSMap.get (State.activeRequests st) (Payload.orderId p))
        as [req|] eqn:Eg.
      * pose proof (get_Some_In _ _ _ Eg) as Hin.
        rewrite List.Forall_forall in Hr. destruct (Hr _ Hin) as [Hc Hcs].
        rewrite <- List.Forall_forall in Hr. simpl in Hc, Hcs.
        destruct (ActiveRequest.status req) eqn:Est.
        -- rewrite (handleAccept_pending sender p st req Eg Est).
           repeat split; simpl; auto.
           ++ apply Forall_set; [assumption|]. now split.
           ++ apply Forall_app. split; [assumption|].
              constructor; [assumption|].
              apply Forall_app. split; [|now repeat constructor].
              apply List.Forall_forall. intros [d m] Hdm.
              apply in_map_iff in Hdm. destruct Hdm as (d' & Heq & Hd').
              inversion Heq; subst d' m. simpl.
              apply filter_In in Hd'. destruct Hd' as [Hd' _].
              rewrite List.Forall_forall in Hok.
              destruct (Hok _ Hin) as [_ _ _ _ _ H6 _ _]. simpl in H6.
              apply list_elem_of_In in Hd'.
              apply (fun H => elem_of_sublist _ _ _ H H6) in Hd'.
              apply list_elem_of_In, in_map_iff in Hd'.
              destruct Hd' as (c & <- & Hc').
              rewrite List.Forall_forall in Hcs. apply Hcs.
              rewrite <- (firstn_skipn (ActiveRequest.nextCandidateIndex req)
                            (ActiveRequest.candidates req)).
              apply in_or_app. now left.
        -- unfold handleAccept. rewrite Eg, Est. simpl.
           repeat split; simpl; auto. apply Forall_app. split; [assumption|].
           now repeat constructor.
      * unfold handleAccept. rewrite Eg. now repeat split.
  - now apply apart_tick.
  - destruct (refreshDriverLists_frame getLists driversItems livreursItems st)
      as (Ed & Er & Es).
    unfold apart_from. now rewrite Ed, Er, Es.
Qed.

(** X28: The bot never serves itself.  In every reachable state no record is
    stored under the bot's own did, no stored request is of the bot as
    customer, and no message of the log is addressed to the bot: the
    loop skips every message whose sender is the bot's own session
    (line 301), and nothing else brings the bot's did into the state. *)
Theorem bot_never_writes_to_itself self events :
  let st := run self events initial in
  Forall (fun e => fst e <> self) (State.drivers st)
  /\ Forall (fun e => ActiveRequest.customerDid (snd e) <> self) (State.activeRequests st)
  /\ Forall (fun m => fst m <> self) (State.sent st).
Proof.
  intros st.
  assert (Hgen : forall st0, state_ok st0 -> apart_from self st0 ->
                   apart_from self (run self events st0)).
  { induction events as [|e events IH]; intros st0 Hok Hap; simpl; [assumption|].
    apply IH; [now apply fire_state_ok | now apply apart_fire]. }
  destruct (Hgen initial initial_state_ok) as (Hd & Hr & Hs).
  { repeat split; constructor. }
  repeat split; try assumption.
  eapply List.Forall_impl; [|exact Hr]. now intros e [H _].
Qed.

End Apart.

(** * Properties of the handlers as they interleave *)

(** ** Writes through references *)

Lemma lookup_write ref f m ref' :
  Machine.objects (Machine.write ref f m) !! ref'
  = if decide (ref = ref') then f <$> Machine.objects m !! ref'
    else Machine.objects m !! ref'.
Proof.
  unfold Machine.write. simpl. rewrite list_lookup_alter.
  now destruct (decide (ref = ref')) as [->|Hne].
Qed.

Lemma advances_refl r : advances r r.
Proof. constructor; auto. Qed.

Lemma advances_trans r1 r2 r3 : advances r1 r2 -> advances r2 r3 -> advances r1 r3.
Proof.
  intros [] []. constructor; try congruence; auto.
  - lia.
  - etransitivity; eassumption.
Qed.

Lemma advances_skip r :
  advances r
    (ActiveRequest.set_nextCandidateIndex (S (ActiveRequest.nextCandidateIndex r)) r).
Proof. constructor; simpl; auto. Qed.

Lemma advances_offer now did r :
  advances r
    (ActiveRequest.set_nextCandidateIndex (S (ActiveRequest.nextCandidateIndex r))
       (ActiveRequest.set_lastNotificationTime now
          (ActiveRequest.set_notifiedDrivers
             (ActiveRequest.notifiedDrivers r ++ [did])%list r))).
Proof. constructor; simpl; auto. now apply prefix_app_r. Qed.

Lemma advances_assign r : advances r (ActiveRequest.set_status ASSIGNED r).
Proof. constructor; simpl; auto. Qed.

(** ** The loop of the tick, rule of proof

    What holds before the loop and is kept by a passed-over candidate and by
    the call of [sendDM] holds where the loop parks or ends. *)
Lemma tickLoop_rule (P : Machine.t -> Prop) (Q : Machine.t -> Machine.Task -> Prop) now :
  (forall m ref req,
     P m -> Machine.objects m !! ref = Some req ->
     ActiveRequest.status req = PENDING ->
     (ActiveRequest.nextCandidateIndex req < length (ActiveRequest.candidates req))%nat ->
     P (Machine.write ref
          (fun req =>
             ActiveRequest.set_nextCandidateIndex
               (S (ActiveRequest.nextCandidateIndex req)) req) m)) ->
  (forall m pos ref req candidate,
     P m -> Machine.objects m !! ref = Some req ->
     ActiveRequest.status req = PENDING ->
     DISPATCH_INTERVAL_MS <= now - ActiveRequest.lastNotificationTime req ->
     nth_error (ActiveRequest.candidates req) (ActiveRequest.nextCandidateIndex req)
     = Some candidate ->
     P (Machine.sendDM (Candidate.did candidate) (offer_of req) m)
     /\ Q (Machine.sendDM (Candidate.did candidate) (offer_of req) m)
          (Machine.TickSent now pos ref (Candidate.did candidate))) ->
  forall entries pos m,
    P m ->
    P (fst (Machine.tickLoop now pos entries m))
    /\ forall task, snd (Machine.tickLoop now pos entries m) = Some task ->
                    Q (fst (Machine.tickLoop now pos entries m)) task.
Proof.
  intros Hskip Hoffer. induction entries as [|[reqId ref] rest IH]; intros pos m HP.
  - simpl. split; [assumption | discriminate].
  - simpl. destruct (Machine.objects m !! ref) as [req|] eqn:Eobj; [|now apply IH].
    destruct (ActiveRequest.status req) eqn:Es; simpl; [|now apply IH].
    destruct (now - ActiveRequest.lastNotificationTime req >=? DISPATCH_INTERVAL_MS)
      eqn:Edue; [|now apply IH].
    destruct (ActiveRequest.nextCandidateIndex req
              <? length (ActiveRequest.candidates req))%nat eqn:Elt; [|now apply IH].
    apply Nat.ltb_lt in Elt.
    destruct (nth_error (ActiveRequest.candidates req)
                (ActiveRequest.nextCandidateIndex req)) as [candidate|] eqn:Enth;
      [|now apply IH].
    destruct (match JSMap.get (Machine.drivers m) (Candidate.did candidate) with
              | Some driverState =>
                  DriverStatus_eqb (DriverState.status driverState) AVAILABLE
              | None => false
              end).
    + simpl. apply Z.geb_le in Edue.
      destruct (Hoffer m pos ref req candidate HP Eobj Es Edue Enth) as [H1 H2].
      split; [exact H1|]. intros task E. injection E as <-. exact H2.
    + apply IH. now apply (Hskip m ref req).
Qed.

(** ** What a step does to an object *)


Lemma objects_advance_same m m' :
  Machine.objects m' = Machine.objects m -> objects_advance m m'.
Proof. intros E ref r H. exists r. rewrite E. split; [assumption | apply advances_refl]. Qed.

Lemma objects_advance_trans m1 m2 m3 :
  objects_advance m1 m2 -> objects_advance m2 m3 -> objects_advance m1 m3.
Proof.
  intros H12 H23 ref r H. destruct (H12 ref r H) as (r2 & H2 & A2).
  destruct (H23 ref r2 H2) as (r3 & H3 & A3). exists r3. split; [assumption|].
  eapply advances_trans; eassumption.
Qed.

Lemma objects_advance_write ref f m :
  (forall r, advances r (f r)) -> objects_advance m (Machine.write ref f m).
Proof.
  intros Hf ref' r H. rewrite lookup_write. destruct (decide (ref = ref')) as [->|Hne].
  - rewrite H. simpl. eauto.
  - exists r. split; [assumption | apply advances_refl].
Qed.

Lemma tickLoop_advance now entries pos m :
  objects_advance m (fst (Machine.tickLoop now pos entries m)).
Proof.
  apply (tickLoop_rule (fun m' => objects_advance m m') (fun _ _ => True) now).
  - intros m' ref req HP _ _ _. eapply objects_advance_trans; [exact HP|].
    apply objects_advance_write. intros r. apply advances_skip.
  - intros m' pos' ref req candidate HP _ _ _ _. split; [|exact I].
    eapply objects_advance_trans; [exact HP|]. now apply objects_advance_same.
  - now apply objects_advance_same.
Qed.

Lemma tickResume_advance now pos ref did m :
  objects_advance m (fst (Machine.tickResume now pos ref did m)).
Proof.
  unfold Machine.tickResume. eapply objects_advance_trans; [|apply tickLoop_advance].
  apply objects_advance_write. intros r. apply advances_offer.
Qed.

Lemma handleAccept_advance senderDid payload m :
  objects_advance m (fst (Machine.handleAccept senderDid payload m)).
Proof.
  unfold Machine.handleAccept.
  destruct (JSMap.get (Machine.activeRequests m) (Payload.orderId payload)) as [ref|];
    [|now apply objects_advance_same].
  destruct (Machine.objects m !! ref) as [req|]; [|now apply objects_advance_same].
  destruct (negb (RequestStatus_eqb (ActiveRequest.status req) PENDING));
    [now apply objects_advance_same|].
  simpl. eapply objects_advance_trans;
    [apply (objects_advance_write ref (ActiveRequest.set_status ASSIGNED));
     apply advances_assign|].
  now apply objects_advance_same.
Qed.

Lemma acceptNext_objects ref senderDid reqId others m :
  Machine.objects (fst (Machine.acceptNext ref senderDid reqId others m))
  = Machine.objects m.
Proof.
  unfold Machine.acceptNext. destruct others; [|reflexivity].
  now destruct (Machine.objects m !! ref).
Qed.

Lemma acceptResume_objects ref senderDid reqId m :
  Machine.objects (fst (Machine.acceptResume ref senderDid reqId m))
  = Machine.objects m.
Proof.
  unfold Machine.acceptResume. destruct (Machine.objects m !! ref); [|reflexivity].
  apply acceptNext_objects.
Qed.

Lemma refreshLivreurs_fst livreursList livreursItems m :
  fst (Machine.refreshLivreurs livreursList livreursItems m) = m.
Proof. now destruct livreursList. Qed.

Lemma refreshResume_fst getLists driversItems livreursItems m :
  fst (Machine.refreshResume getLists driversItems livreursItems m) = m.
Proof.
  unfold Machine.refreshResume. destruct getLists as [[[] lists]|]; try reflexivity.
  simpl. destruct (find driversTag lists); [reflexivity|]. apply refreshLivreurs_fst.
Qed.

Lemma handleDriverAvailability_objects now senderDid payload m :
  Machine.objects (Machine.handleDriverAvailability now senderDid payload m)
  = Machine.objects m.
Proof.
  unfold Machine.handleDriverAvailability.
  destruct (Set_has (Machine.validDrivers m) senderDid); [reflexivity|].
  now destruct (Set_has (Machine.validLivreurs m) senderDid).
Qed.

Section MachineSteps.
Context {M : MathObject}.

Lemma handleRequest_objects now senderDid payload m :
  Machine.objects (Machine.handleRequest now senderDid payload m) = Machine.objects m
  \/ exists lat lon,
       reqLat payload = Some lat /\ reqLon payload = Some lon
       /\ computeCandidates (Machine.drivers m) (reqType payload) lat lon <> []
       /\ Machine.handleRequest now senderDid payload m
          = Machine.set_activeRequests
              (JSMap.set (Machine.activeRequests m) (Payload.orderId payload)
                 (length (Machine.objects m)))
              (Machine.set_objects
                 (Machine.objects m
                  ++ [newRequest now senderDid payload
                        (computeCandidates (Machine.drivers m) (reqType payload) lat lon)])%list
                 m).
Proof.
  unfold Machine.handleRequest.
  destruct (reqLat payload) as [lat|]; [|now left].
  destruct (reqLon payload) as [lon|]; [|now left].
  destruct (negb (Number.truthy lat) || negb (Number.truthy lon)); [now left|].
  destruct (computeCandidates (Machine.drivers m) (reqType payload) lat lon)
    as [|c cs] eqn:Ec; [now left|].
  right. exists lat, lon. rewrite Ec. repeat split. discriminate.
Qed.

Lemma handleRequest_advance now senderDid payload m :
  objects_advance m (Machine.handleRequest now senderDid payload m).
Proof.
  destruct (handleRequest_objects now senderDid payload m)
    as [E|(lat & lon & _ & _ & _ & E)].
  - now apply objects_advance_same.
  - rewrite E. intros ref r H. exists r. split; [|apply advances_refl].
    simpl. now apply lookup_app_l_Some.
Qed.

Lemma checkMessage_advance self now sender text m :
  objects_advance m (fst (Machine.checkMessage self now sender text m)).
Proof.
  unfold Machine.checkMessage.
  destruct (String.eqb sender self); [now apply objects_advance_same|].
  destruct text as [payload|]; [|now apply objects_advance_same].
  destruct (String.eqb (Payload.type payload) "DRIVER_AVAILABILITY").
  { apply objects_advance_same. apply handleDriverAvailability_objects. }
  destruct (String.eqb (Payload.type payload) "RIDE_REQUEST"
            || String.eqb (Payload.type payload) "DELIVERY_REQUEST").
  { apply handleRequest_advance. }
  destruct (String.eqb (Payload.type payload) "RIDE_ACCEPTED"
            || String.eqb (Payload.type payload) "DELIVERY_ACCEPTED").
  { apply handleAccept_advance. }
  now apply objects_advance_same.
Qed.

Lemma start_advance self e m : objects_advance m (fst (Machine.start self e m)).
Proof.
  destruct e as [now sender text|now|getLists driversItems livreursItems]; simpl.
  - apply checkMessage_advance.
  - apply tickLoop_advance.
  - now apply objects_advance_same.
Qed.

Lemma resume_advance task m : objects_advance m (fst (Machine.resume task m)).
Proof.
  destruct task as [now pos ref did|ref s id|ref s id others|g d l|[items|] ll l|[items|]];
    simpl; try (now apply objects_advance_same).
  - apply tickResume_advance.
  - apply objects_advance_same. apply acceptResume_objects.
  - apply objects_advance_same. apply acceptNext_objects.
  - rewrite refreshResume_fst. now apply objects_advance_same.
  - rewrite refreshLivreurs_fst. now apply objects_advance_same.
Qed.

Lemma step_objects self a m :
  Machine.objects (Machine.step self a m)
  = match a with
    | Machine.Start e => Machine.objects (fst (Machine.start self e m))
    | Machine.Resume i =>
        match Machine.waiting m !! i with
        | Some task => Machine.objects (fst (Machine.resume task m))
        | None => Machine.objects m
        end
    end.
Proof.
  destruct a as [e|i]; simpl; [reflexivity|].
  now destruct (Machine.waiting m !! i).
Qed.

Lemma step_advance self a m : objects_advance m (Machine.step self a m).
Proof.
  intros ref r H. rewrite step_objects. destruct a as [e|i].
  - now apply start_advance.
  - destruct (Machine.waiting m !! i) as [task|].
    + now apply resume_advance.
    + exists r. split; [assumption | apply advances_refl].
Qed.

Lemma exec_advance self actions m : objects_advance m (Machine.exec self actions m).
Proof.
  revert m. induction actions as [|a actions IH]; intros m.
  - now apply objects_advance_same.
  - simpl. eapply objects_advance_trans; [apply step_advance | apply IH].
Qed.

End MachineSteps.

(** ** The parked tasks *)

Lemma tickLoop_waiting now entries pos m :
  Machine.waiting (fst (Machine.tickLoop now pos entries m)) = Machine.waiting m.
Proof.
  apply (tickLoop_rule (fun m' => Machine.waiting m' = Machine.waiting m)
           (fun _ _ => True) now); auto.
Qed.

Lemma acceptNext_waiting ref senderDid reqId others m :
  Machine.waiting (fst (Machine.acceptNext ref senderDid reqId others m))
  = Machine.waiting m.
Proof.
  unfold Machine.acceptNext. destruct others; [|reflexivity].
  now destruct (Machine.objects m !! ref).
Qed.

Lemma handleAccept_waiting senderDid payload m :
  Machine.waiting (fst (Machine.handleAccept senderDid payload m)) = Machine.waiting m.
Proof.
  unfold Machine.handleAccept.
  destruct (JSMap.get (Machine.activeRequests m) (Payload.orderId payload)) as [ref|];
    [|reflexivity].
  destruct (Machine.objects m !! ref) as [req|]; [|reflexivity].
  now destruct (negb (RequestStatus_eqb (ActiveRequest.status req) PENDING)).
Qed.

Lemma handleDriverAvailability_waiting now senderDid payload m :
  Machine.waiting (Machine.handleDriverAvailability now senderDid payload m)
  = Machine.waiting m.
Proof.
  unfold Machine.handleDriverAvailability.
  destruct (Set_has (Machine.validDrivers m) senderDid); [reflexivity|].
  now destruct (Set_has (Machine.validLivreurs m) senderDid).
Qed.

Lemma resume_waiting task m :
  Machine.waiting (fst (Machine.resume task m)) = Machine.waiting m.
Proof.
  destruct task as [now pos ref did|ref s id|ref s id others|g d l|[items|] ll l|[items|]];
    simpl; try reflexivity.
  - unfold Machine.tickResume. now rewrite tickLoop_waiting.
  - unfold Machine.acceptResume. destruct (Machine.objects m !! ref); [|reflexivity].
    apply acceptNext_waiting.
  - apply acceptNext_waiting.
  - now rewrite refreshResume_fst.
  - now rewrite refreshLivreurs_fst.
Qed.

Section MachineWaiting.
Context {M : MathObject}.

Lemma handleRequest_waiting now senderDid payload m :
  Machine.waiting (Machine.handleRequest now senderDid payload m) = Machine.waiting m.
Proof.
  destruct (handleRequest_objects now senderDid payload m)
    as [E|(lat & lon & _ & _ & _ & E)]; [|now rewrite E].
  unfold Machine.handleRequest.
  destruct (reqLat payload) as [lat|]; [|reflexivity].
  destruct (reqLon payload) as [lon|]; [|reflexivity].
  destruct (negb (Number.truthy lat) || negb (Number.truthy lon)); [reflexivity|].
  now destruct (computeCandidates (Machine.drivers m) (reqType payload) lat lon).
Qed.

Lemma start_waiting self e m :
  Machine.waiting (fst (Machine.start self e m)) = Machine.waiting m.
Proof.
  destruct e as [now sender text|now|getLists driversItems livreursItems]; simpl;
    [|apply tickLoop_waiting|reflexivity].
  unfold Machine.checkMessage.
  destruct (String.eqb sender self); [reflexivity|].
  destruct text as [payload|]; [|reflexivity].
  destruct (String.eqb (Payload.type payload) "DRIVER_AVAILABILITY").
  { apply handleDriverAvailability_waiting. }
  destruct (String.eqb (Payload.type payload) "RIDE_REQUEST"
            || String.eqb (Payload.type payload) "DELIVERY_REQUEST").
  { apply handleRequest_waiting. }
  destruct (String.eqb (Payload.type payload) "RIDE_ACCEPTED"
            || String.eqb (Payload.type payload) "DELIVERY_ACCEPTED").
  { apply handleAccept_waiting. }
  reflexivity.
Qed.

(** The parked tasks after a step: one more at the end, or the resumed one
    replaced by what it parks as next, or gone. *)
Lemma step_waiting self a m :
  Machine.waiting (Machine.step self a m)
  = match a with
    | Machine.Start e =>
        match snd (Machine.start self e m) with
        | Some task => (Machine.waiting m ++ [task])%list
        | None => Machine.waiting m
        end
    | Machine.Resume i =>
        match Machine.waiting m !! i with
        | Some task =>
            match snd (Machine.resume task m) with
            | Some task' => <[i := task']> (Machine.waiting m)
            | None => delete i (Machine.waiting m)
            end
        | None => Machine.waiting m
        end
    end.
Proof.
  destruct a as [e|i]; simpl.
  - now rewrite start_waiting.
  - destruct (Machine.waiting m !! i) as [task|]; [|reflexivity].
    simpl. now rewrite resume_waiting.
Qed.

End MachineWaiting.

(** ** The notified drivers stay among the candidates before the cursor *)

Lemma firstn_S_In {A} (l : list A) n c :
  nth_error l n = Some c -> In c (firstn (S n) l).
Proof.
  intros H. rewrite (firstn_S_nth_error _ _ _ H). apply in_or_app. right. now left.
Qed.

Lemma firstn_incl_le {A} (l : list A) n n' :
  (n <= n')%nat -> incl (firstn n l) (firstn n' l).
Proof.
  induction 1 as [|n' _ IH]; [apply incl_refl|].
  eapply incl_tran; [exact IH | apply firstn_incl_S].
Qed.

Lemma offered_before_mono r r' did :
  advances r r' ->
  In did (List.map Candidate.did
            (firstn (S (ActiveRequest.nextCandidateIndex r)) (ActiveRequest.candidates r))) ->
  In did (List.map Candidate.did
            (firstn (S (ActiveRequest.nextCandidateIndex r')) (ActiveRequest.candidates r'))).
Proof.
  intros A H. rewrite (adv_candidates _ _ A).
  apply in_map_iff in H. destruct H as (c & <- & Hc). apply in_map.
  apply (firstn_incl_le _ (S (ActiveRequest.nextCandidateIndex r))); [|assumption].
  pose proof (adv_cursor _ _ A). lia.
Qed.


Lemma notified_were_offered_skip r :
  notified_were_offered r ->
  notified_were_offered
    (ActiveRequest.set_nextCandidateIndex (S (ActiveRequest.nextCandidateIndex r)) r).
Proof.
  unfold notified_were_offered. simpl. intros H x Hx. specialize (H x Hx).
  apply in_map_iff in H. destruct H as (c & <- & Hc). apply in_map.
  now apply firstn_incl_S.
Qed.

Lemma notified_were_offered_offer now did r :
  notified_were_offered r ->
  In did (List.map Candidate.did
            (firstn (S (ActiveRequest.nextCandidateIndex r)) (ActiveRequest.candidates r))) ->
  notified_were_offered
    (ActiveRequest.set_nextCandidateIndex (S (ActiveRequest.nextCandidateIndex r))
       (ActiveRequest.set_lastNotificationTime now
          (ActiveRequest.set_notifiedDrivers
             (ActiveRequest.notifiedDrivers r ++ [did])%list r))).
Proof.
  unfold notified_were_offered. simpl. intros H Hd x Hx.
  apply in_app_or in Hx. destruct Hx as [Hx|[<-|[]]]; [|assumption].
  specialize (H x Hx). apply in_map_iff in H. destruct H as (c & <- & Hc).
  apply in_map. now apply firstn_incl_S.
Qed.






Section MachineOffered.
Context {M : MathObject}.




End MachineOffered.

(** ** What holds of every state the machine reaches *)

Lemma offer_of_advances r r' : advances r r' -> offer_of r' = offer_of r.
Proof. intros A. unfold offer_of. now rewrite (adv_data _ _ A), (adv_type _ _ A). Qed.

Lemma object_ok_sent_mono sent sent' r :
  incl sent sent' -> object_ok sent r -> object_ok sent' r.
Proof.
  intros Hsub [H1 H2 H3 H4 H5 H6 H7]. constructor; auto.
  intros Hs. destruct (H7 Hs) as (driver & loc & Hin). eauto.
Qed.

Lemma task_ok_mono m m' task :
  objects_advance m m' -> incl (Machine.sent m) (Machine.sent m') ->
  task_ok (Machine.objects m) (Machine.sent m) task ->
  task_ok (Machine.objects m') (Machine.sent m') task.
Proof.
  intros Hadv Hsub. destruct task as [now pos ref did|ref s id|ref s id others| | |];
    simpl; auto.
  - intros (r & Hr & Hin & Hlog). destruct (Hadv ref r Hr) as (r' & Hr' & A).
    exists r'. split; [assumption|]. split.
    + now apply (offered_before_mono r r').
    + rewrite (offer_of_advances _ _ A). now apply Hsub.
  - intros (r & Hr). destruct (Hadv ref r Hr) as (r' & Hr' & _). eauto.
  - intros (r & Hr). destruct (Hadv ref r Hr) as (r' & Hr' & _). eauto.
Qed.

Lemma object_ok_skip sent r :
  object_ok sent r ->
  object_ok sent
    (ActiveRequest.set_nextCandidateIndex (S (ActiveRequest.nextCandidateIndex r)) r).
Proof.
  intros [H1 H2 H3 H4 H5 H6 H7]. constructor; simpl; auto.
  now apply notified_were_offered_skip.
Qed.

Lemma object_ok_offer sent now did r :
  object_ok sent r ->
  In did (List.map Candidate.did
            (firstn (S (ActiveRequest.nextCandidateIndex r)) (ActiveRequest.candidates r))) ->
  In (did, offer_of r) sent ->
  object_ok sent
    (ActiveRequest.set_nextCandidateIndex (S (ActiveRequest.nextCandidateIndex r))
       (ActiveRequest.set_lastNotificationTime now
          (ActiveRequest.set_notifiedDrivers
             (ActiveRequest.notifiedDrivers r ++ [did])%list r))).
Proof.
  intros [H1 H2 H3 H4 H5 H6 H7] Hd Hlog. constructor; simpl; auto.
  - now apply notified_were_offered_offer.
  - rewrite length_app. simpl. lia.
  - intros d Hin. apply in_app_or in Hin. destruct Hin as [Hin|[<-|[]]].
    + now apply H6.
    + exact Hlog.
Qed.

Lemma object_ok_assign sent r driver loc :
  object_ok sent r ->
  object_ok
    (sent ++ [(ActiveRequest.customerDid r,
               ORDER_ASSIGNED (ActiveRequest.id r) driver loc)])%list
    (ActiveRequest.set_status ASSIGNED r).
Proof.
  intros [H1 H2 H3 H4 H5 H6 H7]. constructor; simpl; auto.
  - intros d Hin. apply in_or_app. left. now apply H6.
  - intros _. exists driver, loc. apply in_or_app. right. now left.
Qed.

Lemma store_wf_same m m' :
  Machine.activeRequests m' = Machine.activeRequests m ->
  Machine.objects m' = Machine.objects m ->
  store_wf m -> store_wf m'.
Proof. intros Ea Eo [H1 H2 H3]. constructor; rewrite Ea, ?Eo; assumption. Qed.

Lemma store_wf_write ref f m :
  (forall r, ActiveRequest.id (f r) = ActiveRequest.id r) ->
  store_wf m -> store_wf (Machine.write ref f m).
Proof.
  intros Hid [H1 H2 H3]. constructor; simpl; try assumption.
  eapply List.Forall_impl; [|exact H3]. intros e (r & Hr & Hk).
  rewrite list_lookup_alter. destruct (decide (ref = snd e)) as [->|Hne].
  - rewrite Hr. simpl. exists (f r). split; [reflexivity|]. now rewrite Hid.
  - eauto.
Qed.

Lemma heap_ok_same m m' :
  Machine.drivers m' = Machine.drivers m ->
  Machine.activeRequests m' = Machine.activeRequests m ->
  Machine.objects m' = Machine.objects m ->
  incl (Machine.sent m) (Machine.sent m') ->
  heap_ok m -> heap_ok m'.
Proof.
  intros Ed Ea Eo Hs (H1 & H2 & H3). unfold heap_ok. rewrite Ed, Eo.
  split; [assumption|]. split.
  - now apply (store_wf_same m).
  - eapply List.Forall_impl; [|exact H3]. intros r. now apply object_ok_sent_mono.
Qed.

Lemma heap_ok_sendDM did message m : heap_ok m -> heap_ok (Machine.sendDM did message m).
Proof.
  apply heap_ok_same; try reflexivity. simpl. now apply incl_appl.
Qed.

Lemma heap_ok_write ref f m :
  (forall r, ActiveRequest.id (f r) = ActiveRequest.id r) ->
  (forall r, Machine.objects m !! ref = Some r ->
             object_ok (Machine.sent m) r -> object_ok (Machine.sent m) (f r)) ->
  heap_ok m -> heap_ok (Machine.write ref f m).
Proof.
  intros Hid Hf (H1 & H2 & H3). split; [assumption|]. split.
  - now apply store_wf_write.
  - simpl. now apply Forall_alter.
Qed.

Lemma heap_ok_object m ref r :
  heap_ok m -> Machine.objects m !! ref = Some r -> object_ok (Machine.sent m) r.
Proof.
  intros (_ & _ & H) Hr. apply (proj1 (List.Forall_forall _ _) H).
  apply list_elem_of_In. now apply list_elem_of_lookup_2 in Hr.
Qed.

Lemma tickLoop_ok now entries pos m :
  heap_ok m ->
  heap_ok (fst (Machine.tickLoop now pos entries m))
  /\ forall task, snd (Machine.tickLoop now pos entries m) = Some task ->
       task_ok (Machine.objects (fst (Machine.tickLoop now pos entries m)))
         (Machine.sent (fst (Machine.tickLoop now pos entries m))) task.
Proof.
  apply (tickLoop_rule heap_ok
           (fun m' task => task_ok (Machine.objects m') (Machine.sent m') task) now).
  - intros m' ref req HP Hreq _ _. apply heap_ok_write; [reflexivity| |assumption].
    intros r _. apply object_ok_skip.
  - intros m' pos' ref req candidate HP Hreq _ _ Hnth.
    split; [now apply heap_ok_sendDM|].
    simpl. exists req. split; [assumption|]. split.
    + apply in_map. now apply firstn_S_In.
    + apply in_or_app. right. now left.
Qed.

Lemma tickResume_ok now pos ref did m :
  heap_ok m ->
  task_ok (Machine.objects m) (Machine.sent m) (Machine.TickSent now pos ref did) ->
  heap_ok (fst (Machine.tickResume now pos ref did m))
  /\ forall task, snd (Machine.tickResume now pos ref did m) = Some task ->
       task_ok (Machine.objects (fst (Machine.tickResume now pos ref did m)))
         (Machine.sent (fst (Machine.tickResume now pos ref did m))) task.
Proof.
  intros HP (r & Hr & Hin & Hlog). unfold Machine.tickResume. apply tickLoop_ok.
  apply heap_ok_write; [reflexivity| |assumption].
  intros r' Hr' Hok. rewrite Hr in Hr'. injection Hr' as <-.
  now apply object_ok_offer.
Qed.

Lemma handleAccept_ok senderDid payload m :
  heap_ok m ->
  heap_ok (fst (Machine.handleAccept senderDid payload m))
  /\ forall task, snd (Machine.handleAccept senderDid payload m) = Some task ->
       task_ok (Machine.objects (fst (Machine.handleAccept senderDid payload m)))
         (Machine.sent (fst (Machine.handleAccept senderDid payload m))) task.
Proof.
  intros HP. unfold Machine.handleAccept.
  destruct (JSMap.get (Machine.activeRequests m) (Payload.orderId payload))
    as [ref|] eqn:Eget; [|split; [exact HP | discriminate]].
  destruct (Machine.objects m !! ref) as [req|] eqn:E;
    [|split; [exact HP | discriminate]].
  destruct (negb (RequestStatus_eqb (ActiveRequest.status req) PENDING)).
  { split; [now apply heap_ok_sendDM | discriminate]. }
  assert (Hid : ActiveRequest.id req = Payload.orderId payload).
  { destruct HP as (_ & [_ _ Hst] & _).
    apply get_Some_In in Eget.
    destruct (proj1 (List.Forall_forall _ _) Hst _ Eget) as (r & Hr & Hk).
    simpl in *. rewrite E in Hr. now injection Hr as <-. }
  split.
  - destruct HP as (H1 & H2 & H3). split; [assumption|]. split.
    + apply (store_wf_same (Machine.write ref (ActiveRequest.set_status ASSIGNED) m));
        [reflexivity | reflexivity|].
      now apply (store_wf_write ref (ActiveRequest.set_status ASSIGNED)).
    + simpl. apply Forall_alter.
      * eapply List.Forall_impl; [|exact H3]. intros r.
        apply object_ok_sent_mono. now apply incl_appl.
      * intros r Hr _. rewrite E in Hr. injection Hr as <-. rewrite <- Hid.
        apply object_ok_assign.
        apply (proj1 (List.Forall_forall _ _) H3). apply list_elem_of_In.
        now apply list_elem_of_lookup_2 in E.
  - intros task H. injection H as <-. simpl. rewrite list_lookup_alter.
    destruct (decide (ref = ref)); [|congruence]. rewrite E. simpl. eauto.
Qed.

Lemma acceptNext_ok ref senderDid reqId others m r :
  heap_ok m -> Machine.objects m !! ref = Some r ->
  heap_ok (fst (Machine.acceptNext ref senderDid reqId others m))
  /\ forall task, snd (Machine.acceptNext ref senderDid reqId others m) = Some task ->
       task_ok (Machine.objects (fst (Machine.acceptNext ref senderDid reqId others m)))
         (Machine.sent (fst (Machine.acceptNext ref senderDid reqId others m))) task.
Proof.
  intros HP Hr. unfold Machine.acceptNext. destruct others as [|o rest].
  - rewrite Hr. split; [now apply heap_ok_sendDM | discriminate].
  - split; [now apply heap_ok_sendDM|]. intros task H. injection H as <-. simpl. eauto.
Qed.

Lemma resume_ok task m :
  heap_ok m -> task_ok (Machine.objects m) (Machine.sent m) task ->
  heap_ok (fst (Machine.resume task m))
  /\ forall task', snd (Machine.resume task m) = Some task' ->
       task_ok (Machine.objects (fst (Machine.resume task m)))
         (Machine.sent (fst (Machine.resume task m))) task'.
Proof.
  intros HP Htask.
  destruct task as [now pos ref did|ref s id|ref s id others|g d l|[items|] ll l|[items|]];
    simpl.
  - now apply tickResume_ok.
  - destruct Htask as (r & Hr). unfold Machine.acceptResume. rewrite Hr.
    now apply (acceptNext_ok _ _ _ _ _ r).
  - destruct Htask as (r & Hr). now apply (acceptNext_ok _ _ _ _ _ r).
  - rewrite refreshResume_fst. split; [exact HP|].
    intros task' H. unfold Machine.refreshResume in H.
    destruct g as [[[] lists]|]; try discriminate H. simpl in H.
    destruct (find driversTag lists); [injection H as <-; exact I|].
    destruct (find livreursTag lists); [injection H as <-; exact I | discriminate H].
  - rewrite refreshLivreurs_fst. split.
    + revert HP. apply heap_ok_same; try reflexivity. apply incl_refl.
    + intros task' H. destruct ll; [injection H as <-; exact I | discriminate H].
  - split; [exact HP | discriminate].
  - split; [|discriminate].
    revert HP. apply heap_ok_same; try reflexivity. apply incl_refl.
  - split; [exact HP | discriminate].
Qed.

Lemma NoDup_values_set {V} (m : JSMap.t V) k v :
  NoDup (List.map snd m) -> ~ In v (List.map snd m) ->
  NoDup (List.map snd (JSMap.set m k v)).
Proof.
  induction m as [|[k' v'] m IH]; simpl; intros Hnd Hv.
  - apply NoDup_singleton.
  - apply NoDup_cons in Hnd. destruct Hnd as [Hv' Hnd].
    destruct (String.eqb k' k); simpl; apply NoDup_cons.
    + split; [|assumption]. rewrite list_elem_of_In. tauto.
    + split; [|apply IH; tauto].
      rewrite list_elem_of_In in *. intros Hin. apply Hv'.
      clear -Hin Hv. induction m as [|[k1 v1] m IH]; simpl in *.
      * destruct Hin as [->|[]]. tauto.
      * destruct (String.eqb k1 k); simpl in *.
        -- destruct Hin as [->|Hin]; tauto.
        -- destruct Hin as [->|Hin]; [now left | right; apply IH; tauto].
Qed.

Lemma heap_ok_availability now senderDid payload m :
  heap_ok m -> heap_ok (Machine.handleDriverAvailability now senderDid payload m).
Proof.
  intros HP. unfold Machine.handleDriverAvailability.
  destruct (Set_has (Machine.validDrivers m) senderDid);
    [|destruct (Set_has (Machine.validLivreurs m) senderDid); [|assumption]];
    (destruct HP as ((Hk & Hdid) & H2 & H3); split;
     [split; simpl; [now apply NoDup_keys_set | now apply Forall_set]
     |split; [now apply (store_wf_same m) | assumption]]).
Qed.

Section MachineReachable.
Context {M : MathObject}.

Lemma heap_ok_request now senderDid payload m :
  heap_ok m -> heap_ok (Machine.handleRequest now senderDid payload m).
Proof.
  intros HP.
  destruct (handleRequest_objects now senderDid payload m)
    as [E|(lat & lon & _ & _ & Hc & E)].
  - unfold Machine.handleRequest in *.
    destruct (reqLat payload) as [lat|]; [|assumption].
    destruct (reqLon payload) as [lon|]; [|assumption].
    destruct (negb (Number.truthy lat) || negb (Number.truthy lon)); [assumption|].
    destruct (computeCandidates (Machine.drivers m) (reqType payload) lat lon).
    + now apply heap_ok_sendDM.
    + exfalso. simpl in E. apply (f_equal (@length _)) in E.
      rewrite length_app in E. simpl in E. lia.
  - rewrite E. destruct HP as (H1 & [Hk Hr Hst] & H3). split; [assumption|]. split.
    + constructor; simpl.
      * now apply NoDup_keys_set.
      * apply NoDup_values_set; [assumption|]. intros Hin.
        apply in_map_iff in Hin. destruct Hin as (e & He & Hin).
        destruct (proj1 (List.Forall_forall _ _) Hst _ Hin) as (r & Hr' & _).
        apply lookup_lt_Some in Hr'. lia.
      * apply Forall_set.
        -- eapply List.Forall_impl; [|exact Hst]. intros e (r & Hr' & Hid).
           exists r. split; [now apply lookup_app_l_Some | assumption].
        -- simpl. eexists. split; [apply list_lookup_middle; reflexivity | reflexivity].
    + simpl. apply Forall_app. split; [assumption|]. constructor; [|constructor].
      constructor; simpl; auto.
      * now apply computeCandidates_NoDup.
      * unfold notified_were_offered. simpl. apply incl_nil_l.
      * intros d [].
      * discriminate.
Qed.

Lemma start_ok self e m :
  heap_ok m ->
  heap_ok (fst (Machine.start self e m))
  /\ forall task, snd (Machine.start self e m) = Some task ->
       task_ok (Machine.objects (fst (Machine.start self e m)))
         (Machine.sent (fst (Machine.start self e m))) task.
Proof.
  intros HP.
  destruct e as [now sender text|now|getLists driversItems livreursItems]; simpl;
    [|now apply tickLoop_ok
     |split; [exact HP | intros task H; injection H as <-; exact I]].
  unfold Machine.checkMessage.
  destruct (String.eqb sender self); [split; [exact HP | discriminate]|].
  destruct text as [payload|]; [|split; [exact HP | discriminate]].
  destruct (String.eqb (Payload.type payload) "DRIVER_AVAILABILITY").
  { split; [|discriminate]. now apply heap_ok_availability. }
  destruct (String.eqb (Payload.type payload) "RIDE_REQUEST"
            || String.eqb (Payload.type payload) "DELIVERY_REQUEST").
  { split; [|discriminate]. now apply heap_ok_request. }
  destruct (String.eqb (Payload.type payload) "RIDE_ACCEPTED"
            || String.eqb (Payload.type payload) "DELIVERY_ACCEPTED").
  { now apply handleAccept_ok. }
  split; [exact HP | discriminate].
Qed.

End MachineReachable.

(** ** The log only grows *)

Lemma sendDM_prefix m did message m' :
  prefix (Machine.sent m) (Machine.sent m') ->
  prefix (Machine.sent m) (Machine.sent (Machine.sendDM did message m')).
Proof. intros H. simpl. etransitivity; [exact H | now apply prefix_app_r]. Qed.

Lemma tickLoop_sent now entries pos m :
  prefix (Machine.sent m) (Machine.sent (fst (Machine.tickLoop now pos entries m))).
Proof.
  apply (tickLoop_rule (fun m' => prefix (Machine.sent m) (Machine.sent m'))
           (fun _ _ => True) now); auto.
  intros m' pos' ref req candidate HP _ _ _ _. split; [|exact I].
  now apply sendDM_prefix.
Qed.

Lemma acceptNext_sent ref senderDid reqId others m :
  prefix (Machine.sent m)
    (Machine.sent (fst (Machine.acceptNext ref senderDid reqId others m))).
Proof.
  unfold Machine.acceptNext. destruct others; [|now apply sendDM_prefix].
  destruct (Machine.objects m !! ref); [now apply sendDM_prefix | reflexivity].
Qed.

Lemma resume_sent task m :
  prefix (Machine.sent m) (Machine.sent (fst (Machine.resume task m))).
Proof.
  destruct task as [now pos ref did|ref s id|ref s id others|g d l|[items|] ll l|[items|]];
    simpl; try reflexivity.
  - unfold Machine.tickResume.
    apply (tickLoop_sent now _ _
             (Machine.write ref
                (fun req =>
                   ActiveRequest.set_nextCandidateIndex
                     (S (ActiveRequest.nextCandidateIndex req))
                     (ActiveRequest.set_lastNotificationTime now
                        (ActiveRequest.set_notifiedDrivers
                           (ActiveRequest.notifiedDrivers req ++ [did])%list req))) m)).
  - unfold Machine.acceptResume. destruct (Machine.objects m !! ref); [|reflexivity].
    apply acceptNext_sent.
  - apply acceptNext_sent.
  - now rewrite refreshResume_fst.
  - now rewrite refreshLivreurs_fst.
Qed.

Lemma handleAccept_sent senderDid payload m :
  prefix (Machine.sent m) (Machine.sent (fst (Machine.handleAccept senderDid payload m))).
Proof.
  unfold Machine.handleAccept.
  destruct (JSMap.get (Machine.activeRequests m) (Payload.orderId payload)) as [ref|];
    [|reflexivity].
  destruct (Machine.objects m !! ref) as [req|]; [|reflexivity].
  destruct (negb (RequestStatus_eqb (ActiveRequest.status req) PENDING));
    simpl; now apply prefix_app_r.
Qed.

Lemma handleDriverAvailability_sent now senderDid payload m :
  Machine.sent (Machine.handleDriverAvailability now senderDid payload m)
  = Machine.sent m.
Proof.
  unfold Machine.handleDriverAvailability.
  destruct (Set_has (Machine.validDrivers m) senderDid); [reflexivity|].
  now destruct (Set_has (Machine.validLivreurs m) senderDid).
Qed.

Section MachineInvariant.
Context {M : MathObject}.

Lemma handleRequest_sent now senderDid payload m :
  prefix (Machine.sent m) (Machine.sent (Machine.handleRequest now senderDid payload m)).
Proof.
  unfold Machine.handleRequest.
  destruct (reqLat payload) as [lat|]; [|reflexivity].
  destruct (reqLon payload) as [lon|]; [|reflexivity].
  destruct (negb (Number.truthy lat) || negb (Number.truthy lon)); [reflexivity|].
  destruct (computeCandidates (Machine.drivers m) (reqType payload) lat lon);
    simpl; [now apply prefix_app_r | reflexivity].
Qed.

Lemma start_sent self e m :
  prefix (Machine.sent m) (Machine.sent (fst (Machine.start self e m))).
Proof.
  destruct e as [now sender text|now|getLists driversItems livreursItems]; simpl;
    [|apply tickLoop_sent|reflexivity].
  unfold Machine.checkMessage.
  destruct (String.eqb sender self); [reflexivity|].
  destruct text as [payload|]; [|reflexivity].
  destruct (String.eqb (Payload.type payload) "DRIVER_AVAILABILITY").
  { simpl. now rewrite handleDriverAvailability_sent. }
  destruct (String.eqb (Payload.type payload) "RIDE_REQUEST"
            || String.eqb (Payload.type payload) "DELIVERY_REQUEST").
  { apply handleRequest_sent. }
  destruct (String.eqb (Payload.type payload) "RIDE_ACCEPTED"
            || String.eqb (Payload.type payload) "DELIVERY_ACCEPTED").
  { apply handleAccept_sent. }
  reflexivity.
Qed.

Lemma step_fields self a m :
  exists m' parked,
    (match a with
     | Machine.Start e => Machine.start self e m = (m', parked)
     | Machine.Resume i =>
         match Machine.waiting m !! i with
         | Some task => Machine.resume task m = (m', parked)
         | None => m' = m /\ parked = None
         end
     end)
    /\ Machine.drivers (Machine.step self a m) = Machine.drivers m'
    /\ Machine.objects (Machine.step self a m) = Machine.objects m'
    /\ Machine.activeRequests (Machine.step self a m) = Machine.activeRequests m'
    /\ Machine.validDrivers (Machine.step self a m) = Machine.validDrivers m'
    /\ Machine.validLivreurs (Machine.step self a m) = Machine.validLivreurs m'
    /\ Machine.sent (Machine.step self a m) = Machine.sent m'.
Proof.
  destruct a as [e|i]; simpl.
  - exists (fst (Machine.start self e m)), (snd (Machine.start self e m)).
    split; [now destruct (Machine.start self e m) | now repeat split].
  - destruct (Machine.waiting m !! i) as [task|].
    + exists (fst (Machine.resume task m)), (snd (Machine.resume task m)).
      split; [now destruct (Machine.resume task m) | now repeat split].
    + exists m, None. now repeat split.
Qed.

Lemma step_sent self a m :
  prefix (Machine.sent m) (Machine.sent (Machine.step self a m)).
Proof.
  destruct (step_fields self a m) as (m' & parked & H & _ & _ & _ & _ & _ & ->).
  destruct a as [e|i].
  - pose proof (start_sent self e m) as Hs. now rewrite H in Hs.
  - destruct (Machine.waiting m !! i) as [task|].
    + pose proof (resume_sent task m) as Hs. now rewrite H in Hs.
    + now destruct H as [-> _].
Qed.

Lemma prefix_incl {A} (l l' : list A) : prefix l l' -> incl l l'.
Proof. intros [k ->]. now apply incl_appl. Qed.

Lemma step_ok self a m : machine_ok m -> machine_ok (Machine.step self a m).
Proof.
  intros [H1 H2 H3 H4].
  assert (HP : heap_ok m) by (split; [assumption | split; assumption]).
  assert (Hmono : Forall (task_ok (Machine.objects (Machine.step self a m))
                            (Machine.sent (Machine.step self a m)))
                    (Machine.waiting m)).
  { eapply List.Forall_impl; [|exact H4]. intros task.
    apply task_ok_mono; [apply step_advance | apply prefix_incl, step_sent]. }
  assert (Hstep : heap_ok (Machine.step self a m)
                  /\ Forall (task_ok (Machine.objects (Machine.step self a m))
                               (Machine.sent (Machine.step self a m)))
                       (Machine.waiting (Machine.step self a m))).
  { rewrite step_waiting.
    destruct (step_fields self a m) as (m' & parked & H & Ed & Eo & Ea & _ & _ & Es).
    rewrite Eo, Es in *.
    assert (Hheap : heap_ok m' -> heap_ok (Machine.step self a m)).
    { apply heap_ok_same; try assumption. rewrite Es. apply incl_refl. }
    destruct a as [e|i].
    - destruct (start_ok self e m HP) as [Q1 Q2]. rewrite H in *. simpl in *.
      split; [now apply Hheap|].
      destruct parked as [task|]; [|assumption].
      apply Forall_app. split; [assumption|].
      constructor; [now apply Q2 | constructor].
    - destruct (Machine.waiting m !! i) as [task|] eqn:Ei.
      + assert (Htask : task_ok (Machine.objects m) (Machine.sent m) task).
        { apply (proj1 (List.Forall_forall _ _) H4). apply list_elem_of_In.
          now apply list_elem_of_lookup_2 in Ei. }
        destruct (resume_ok task m HP Htask) as [Q1 Q2]. rewrite H in *. simpl in *.
        split; [now apply Hheap|].
        destruct parked as [task'|].
        * apply Forall_insert; [assumption | now apply Q2].
        * now apply Forall_delete.
      + destruct H as [-> ->]. split; [now apply Hheap | assumption]. }
  destruct Hstep as ((Q1 & Q2 & Q3) & Q4). now constructor.
Qed.

Lemma exec_ok self actions m : machine_ok m -> machine_ok (Machine.exec self actions m).
Proof.
  revert m. induction actions as [|a actions IH]; intros m H; [assumption|].
  simpl. apply IH. now apply step_ok.
Qed.

End MachineInvariant.

Lemma initial_ok : machine_ok Machine.initial.
Proof.
  constructor; simpl.
  - split; simpl; [apply NoDup_nil_2 | constructor].
  - constructor; simpl; [apply NoDup_nil_2 | apply NoDup_nil_2 | constructor].
  - constructor.
  - constructor.
Qed.

(** The requests the map holds, when every reference is to an object. *)
Lemma stored_wf m :
  store_wf m ->
  JSMap.keys (Machine.stored m) = JSMap.keys (Machine.activeRequests m)
  /\ Forall (fun e => exists ref, In (fst e, ref) (Machine.activeRequests m)
                      /\ Machine.objects m !! ref = Some (snd e)
                      /\ ActiveRequest.id (snd e) = fst e)
       (Machine.stored m).
Proof.
  intros [_ _ H]. unfold Machine.stored, Machine.resolve.
  induction H as [|[k ref] l (r & Hr & Hid) _ IH]; simpl.
  - split; [reflexivity | constructor].
  - simpl in *. rewrite Hr. simpl. destruct IH as [IH1 IH2]. split.
    + now f_equal.
    + constructor.
      * exists ref. simpl. auto.
      * eapply List.Forall_impl; [|exact IH2]. intros e (ref' & Hin & H').
        exists ref'. split; [now right | assumption].
Qed.

(** ** The handlers one after the other

    A handler that is started while nothing is parked, and resumed until it
    is through, does what the handler of the first part does in one step. *)

Lemma resolve_cons objects k ref l :
  Machine.resolve objects ((k, ref) :: l)
  = match objects !! ref with
    | Some r => (k, r) :: Machine.resolve objects l
    | None => Machine.resolve objects l
    end.
Proof. unfold Machine.resolve. simpl. now destruct (objects !! ref). Qed.

Lemma resolve_app objects l1 l2 :
  Machine.resolve objects (l1 ++ l2)%list
  = (Machine.resolve objects l1 ++ Machine.resolve objects l2)%list.
Proof. apply omap_app. Qed.

Lemma resolve_alter_notin f ref objects l :
  ~ In ref (List.map snd l) ->
  Machine.resolve (alter f ref objects) l = Machine.resolve objects l.
Proof.
  induction l as [|[k ref'] l IH]; intros H; [reflexivity|]. simpl in H.
  rewrite !resolve_cons, list_lookup_alter_ne by (intros ->; tauto).
  rewrite IH by tauto. reflexivity.
Qed.

Lemma resolve_extend objects x l :
  Forall (fun e => exists r, objects !! snd e = Some r /\ ActiveRequest.id r = fst e) l ->
  Machine.resolve (objects ++ [x]) l = Machine.resolve objects l.
Proof.
  induction 1 as [|[k ref] l (r & Hr & _) _ IH]; [reflexivity|].
  simpl in Hr. rewrite !resolve_cons, (lookup_app_l_Some _ _ _ _ Hr), Hr. now rewrite IH.
Qed.

Lemma get_resolve objects l k :
  Forall (fun e => exists r, objects !! snd e = Some r /\ ActiveRequest.id r = fst e) l ->
  JSMap.get (Machine.resolve objects l) k
  = match JSMap.get l k with
    | Some ref => objects !! ref
    | None => None
    end.
Proof.
  induction 1 as [|[k' ref] l (r & Hr & _) _ IH]; [reflexivity|].
  simpl in Hr. rewrite resolve_cons, Hr. simpl.
  destruct (String.eqb k' k); [now rewrite Hr | exact IH].
Qed.

Lemma get_In_values {V} (m : JSMap.t V) k v :
  JSMap.get m k = Some v -> In v (List.map snd m).
Proof. intros H. apply get_Some_In in H. now apply (in_map snd) in H. Qed.

Lemma resolve_set_alloc objects x l k :
  Forall (fun e => exists r, objects !! snd e = Some r /\ ActiveRequest.id r = fst e) l ->
  Machine.resolve (objects ++ [x]) (JSMap.set l k (length objects))
  = JSMap.set (Machine.resolve objects l) k x.
Proof.
  induction 1 as [|[k' ref] l (r & Hr & Hid) Hl IH]; cbn [JSMap.set].
  - rewrite resolve_cons, list_lookup_middle by reflexivity. reflexivity.
  - simpl in Hr. rewrite (resolve_cons objects), Hr. cbn [JSMap.set].
    destruct (String.eqb k' k).
    + rewrite resolve_cons, list_lookup_middle by reflexivity.
      now rewrite resolve_extend.
    + rewrite resolve_cons, (lookup_app_l_Some _ _ _ _ Hr). now rewrite IH.
Qed.

Lemma resolve_set_alter f objects l k ref r :
  NoDup (List.map snd l) ->
  JSMap.get l k = Some ref -> objects !! ref = Some r ->
  Machine.resolve (alter f ref objects) l = JSMap.set (Machine.resolve objects l) k (f r).
Proof.
  induction l as [|[k' ref'] l IH]; intros Hnd Hget Hr; [discriminate|].
  simpl in Hnd, Hget. apply NoDup_cons in Hnd. destruct Hnd as [Hnotin Hnd]. rewrite list_elem_of_In in Hnotin.
  rewrite !resolve_cons. destruct (String.eqb k' k) eqn:Ek.
  - injection Hget as ->. rewrite list_lookup_alter.
    destruct (decide (ref = ref)); [|congruence]. rewrite Hr.
    cbn [fmap option_fmap option_map JSMap.set]. rewrite Ek.
    now rewrite resolve_alter_notin.
  - assert (Hne : ref <> ref').
    { intros ->. apply Hnotin. now apply (get_In_values l k). }
    rewrite list_lookup_alter_ne by assumption.
    destruct (objects !! ref') as [r'|]; cbn [JSMap.set];
      [rewrite Ek; f_equal|]; now apply IH.
Qed.

(** The loop does not look at the parked tasks. *)
Lemma tickLoop_set_waiting now w entries pos m :
  Machine.tickLoop now pos entries (Machine.set_waiting w m)
  = (Machine.set_waiting w (fst (Machine.tickLoop now pos entries m)),
     snd (Machine.tickLoop now pos entries m)).
Proof.
  revert pos m. induction entries as [|[reqId ref] rest IH]; intros pos m; simpl;
    [reflexivity|].
  destruct (Machine.objects m !! ref) as [req|]; [|apply IH].
  destruct (negb (RequestStatus_eqb (ActiveRequest.status req) PENDING)); [apply IH|].
  destruct (now - ActiveRequest.lastNotificationTime req >=? DISPATCH_INTERVAL_MS);
    [|apply IH].
  destruct (ActiveRequest.nextCandidateIndex req
            <? length (ActiveRequest.candidates req))%nat; [|apply IH].
  destruct (nth_error (ActiveRequest.candidates req)
              (ActiveRequest.nextCandidateIndex req)) as [candidate|]; [|apply IH].
  destruct (match JSMap.get (Machine.drivers m) (Candidate.did candidate) with
            | Some driverState =>
                DriverStatus_eqb (DriverState.status driverState) AVAILABLE
            | None => false
            end); [reflexivity|].
  apply (IH (S pos)
           (Machine.write ref
              (fun req =>
                 ActiveRequest.set_nextCandidateIndex
                   (S (ActiveRequest.nextCandidateIndex req)) req) m)).
Qed.

Section Serial.
Context {M : MathObject}.

Lemma settle_done self fuel m : Machine.waiting m = [] -> Machine.settle self fuel m = m.
Proof. intros H. destruct fuel; simpl; [reflexivity | now rewrite H]. Qed.

Lemma settle_resume self fuel m task :
  Machine.waiting m = [task] ->
  Machine.settle self (S fuel) m
  = Machine.settle self fuel (Machine.park (Machine.resume task m)).
Proof.
  intros H. simpl. rewrite H. simpl. f_equal.
  unfold Machine.install, Machine.park. rewrite resume_waiting, H.
  now destruct (snd (Machine.resume task m)).
Qed.

Lemma start_park self e m :
  Machine.waiting m = [] ->
  Machine.step self (Machine.Start e) m = Machine.park (Machine.start self e m).
Proof.
  intros H. simpl. unfold Machine.enqueue, Machine.park. rewrite start_waiting, H.
  now destruct (snd (Machine.start self e m)).
Qed.

Lemma settles_done self m st :
  Machine.waiting m = [] -> Machine.view m = st -> store_wf m -> settles self m st.
Proof.
  intros Hw Hv Hwf. exists 0%nat. intros fuel _. now rewrite (settle_done self fuel m Hw).
Qed.

Lemma settles_resume self m task st :
  Machine.waiting m = [task] ->
  settles self (Machine.park (Machine.resume task m)) st ->
  settles self m st.
Proof.
  intros Hw (n & H). exists (S n). intros [|fuel] Hle; [lia|].
  rewrite (settle_resume self fuel m task Hw). apply H. lia.
Qed.

End Serial.

Lemma processEntries_cons now drivers k r l :
  processEntries now drivers ((k, r) :: l)
  = ((k, fst (processRequest now drivers r)) :: fst (processEntries now drivers l),
     (snd (processRequest now drivers r) ++ snd (processEntries now drivers l))%list).
Proof.
  simpl. destruct (processRequest now drivers r) as [r' out].
  now destruct (processEntries now drivers l) as [l' outs].
Qed.

(** One entry of the loop: passed by, its candidate passed over, or the
    offer sent and the tick parked. *)
Lemma tickLoop_cases now pos k ref rest m req :
  Machine.objects m !! ref = Some req ->
  (processRequest now (Machine.drivers m) req = (req, [])
   /\ Machine.tickLoop now pos ((k, ref) :: rest) m = Machine.tickLoop now (S pos) rest m)
  \/ (processRequest now (Machine.drivers m) req
      = (ActiveRequest.set_nextCandidateIndex
           (S (ActiveRequest.nextCandidateIndex req)) req, [])
      /\ Machine.tickLoop now pos ((k, ref) :: rest) m
         = Machine.tickLoop now (S pos) rest
             (Machine.write ref
                (fun req =>
                   ActiveRequest.set_nextCandidateIndex
                     (S (ActiveRequest.nextCandidateIndex req)) req) m))
  \/ (exists did,
        processRequest now (Machine.drivers m) req
        = (ActiveRequest.set_nextCandidateIndex
             (S (ActiveRequest.nextCandidateIndex req))
             (ActiveRequest.set_lastNotificationTime now
                (ActiveRequest.set_notifiedDrivers
                   (ActiveRequest.notifiedDrivers req ++ [did])%list req)),
           [(did, offer_of req)])
        /\ Machine.tickLoop now pos ((k, ref) :: rest) m
           = (Machine.sendDM did (offer_of req) m,
              Some (Machine.TickSent now pos ref did))).
Proof.
  intros Hobj. cbn [Machine.tickLoop]. rewrite Hobj. unfold processRequest.
  destruct (negb (RequestStatus_eqb (ActiveRequest.status req) PENDING)); [now left|].
  destruct (now - ActiveRequest.lastNotificationTime req >=? DISPATCH_INTERVAL_MS);
    [|now left].
  destruct (ActiveRequest.nextCandidateIndex req
            <? length (ActiveRequest.candidates req))%nat; [|now left].
  destruct (nth_error (ActiveRequest.candidates req)
              (ActiveRequest.nextCandidateIndex req)) as [candidate|]; [|now left].
  destruct (match JSMap.get (Machine.drivers m) (Candidate.did candidate) with
            | Some driverState =>
                DriverStatus_eqb (DriverState.status driverState) AVAILABLE
            | None => false
            end).
  - right. right. exists (Candidate.did candidate). split; reflexivity.
  - right. left. split; reflexivity.
Qed.

Lemma skipn_app_cons {A} (pre : list A) x rest :
  skipn (S (length pre)) (pre ++ x :: rest)%list = rest.
Proof. induction pre as [|a pre IH]; [reflexivity | exact IH]. Qed.

Section SerialTick.
Context {M : MathObject}.

Lemma settles_eq self m st st' : settles self m st -> st = st' -> settles self m st'.
Proof. now intros H <-. Qed.

Lemma resolve_alter_at f objects pre k ref rest req :
  NoDup (List.map snd (pre ++ (k, ref) :: rest)%list) ->
  objects !! ref = Some req ->
  Machine.resolve (alter f ref objects) pre = Machine.resolve objects pre
  /\ Machine.resolve (alter f ref objects) [(k, ref)] = [(k, f req)]
  /\ Machine.resolve (alter f ref objects) rest = Machine.resolve objects rest.
Proof.
  intros Hnd Hobj. rewrite map_app in Hnd. simpl in Hnd.
  apply NoDup_app in Hnd. destruct Hnd as (_ & Hpre & Hnd).
  apply NoDup_cons in Hnd. destruct Hnd as [Hrest _].
  split; [|split].
  - apply resolve_alter_notin. intros Hin. apply list_elem_of_In in Hin.
    apply (Hpre ref Hin). now left.
  - rewrite resolve_cons, list_lookup_alter.
    destruct (decide (ref = ref)); [|congruence]. now rewrite Hobj.
  - apply resolve_alter_notin. now rewrite <- list_elem_of_In.
Qed.

Lemma tickLoop_settles self now rest : forall pre m,
  Machine.activeRequests m = (pre ++ rest)%list -> store_wf m ->
  settles self (Machine.park (Machine.tickLoop now (length pre) rest m))
    (State.mk (Machine.drivers m)
       (Machine.resolve (Machine.objects m) pre
        ++ fst (processEntries now (Machine.drivers m)
                  (Machine.resolve (Machine.objects m) rest)))%list
       (Machine.validDrivers m) (Machine.validLivreurs m)
       (Machine.sent m
        ++ snd (processEntries now (Machine.drivers m)
                  (Machine.resolve (Machine.objects m) rest)))%list).
Proof.
  induction rest as [|[k ref] rest IH]; intros pre m Hact Hwf.
  - simpl. apply settles_done; [reflexivity| |now apply (store_wf_same m)].
    unfold Machine.view, Machine.stored, Machine.park. simpl.
    now rewrite Hact, resolve_app, !app_nil_r.
  - assert (Hact' : Machine.activeRequests m = ((pre ++ [(k, ref)]) ++ rest)%list)
      by now rewrite <- app_assoc.
    assert (Hlen : length (pre ++ [(k, ref)])%list = S (length pre))
      by (rewrite length_app; simpl; lia).
    pose proof Hwf as [Hk Hr Hst].
    assert (Hobj : exists req, Machine.objects m !! ref = Some req).
    { rewrite List.Forall_forall in Hst.
      destruct (Hst (k, ref)) as (req & Hreq & _); [|eauto].
      rewrite Hact. apply in_or_app. right. now left. }
    destruct Hobj as [req Hobj].
    rewrite Hact in Hr.
    rewrite resolve_cons, Hobj, processEntries_cons. cbn [fst snd].
    destruct (tickLoop_cases now (length pre) k ref rest m req Hobj)
      as [[Ep Et]|[[Ep Et]|(did & Ep & Et)]]; rewrite Ep, Et; cbn [fst snd].
    + rewrite <- Hlen. eapply settles_eq; [now apply (IH _ m Hact')|].
      rewrite resolve_app, resolve_cons, Hobj. cbn [Machine.resolve omap list_omap].
      now rewrite <- app_assoc.
    + rewrite <- Hlen.
      destruct (resolve_alter_at
                  (fun req =>
                     ActiveRequest.set_nextCandidateIndex
                       (S (ActiveRequest.nextCandidateIndex req)) req)
                  (Machine.objects m) pre k ref rest req Hr Hobj) as (R1 & R2 & R3).
      eapply settles_eq.
      * apply (IH (pre ++ [(k, ref)])%list
                 (Machine.write ref
                    (fun req =>
                       ActiveRequest.set_nextCandidateIndex
                         (S (ActiveRequest.nextCandidateIndex req)) req) m)).
        -- exact Hact'.
        -- now apply store_wf_write.
      * cbn [Machine.write Machine.set_objects Machine.objects Machine.drivers
               Machine.validDrivers Machine.validLivreurs Machine.sent].
        rewrite resolve_app, R1, R2, R3. now rewrite <- app_assoc.
    + destruct (resolve_alter_at
                  (fun req =>
                     ActiveRequest.set_nextCandidateIndex
                       (S (ActiveRequest.nextCandidateIndex req))
                       (ActiveRequest.set_lastNotificationTime now
                          (ActiveRequest.set_notifiedDrivers
                             (ActiveRequest.notifiedDrivers req ++ [did])%list req)))
                  (Machine.objects m) pre k ref rest req Hr Hobj) as (R1 & R2 & R3).
      apply (settles_resume self _ (Machine.TickSent now (length pre) ref did));
        [reflexivity|].
      cbn [Machine.resume]. unfold Machine.tickResume.
      change (Machine.park (Machine.sendDM did (offer_of req) m, Some ?t))
        with (Machine.set_waiting [t] (Machine.sendDM did (offer_of req) m)).
      change (Machine.write ref ?f
                (Machine.set_waiting ?w (Machine.sendDM did (offer_of req) m)))
        with (Machine.set_waiting w
                (Machine.write ref f (Machine.sendDM did (offer_of req) m))).
      rewrite tickLoop_set_waiting.
      cbn [Machine.activeRequests Machine.set_waiting Machine.write Machine.set_objects
             Machine.sendDM Machine.set_sent].
      rewrite Hact.
      rewrite skipn_app_cons.
      rewrite <- Hlen.
      eapply settles_eq.
      * apply (IH (pre ++ [(k, ref)])%list
                 (Machine.write ref
                    (fun req =>
                       ActiveRequest.set_nextCandidateIndex
                         (S (ActiveRequest.nextCandidateIndex req))
                         (ActiveRequest.set_lastNotificationTime now
                            (ActiveRequest.set_notifiedDrivers
                               (ActiveRequest.notifiedDrivers req ++ [did])%list req)))
                    (Machine.sendDM did (offer_of req) m))).
        -- exact Hact'.
        -- apply store_wf_write; [reflexivity|].
           now apply (store_wf_same m).
      * cbn [Machine.write Machine.set_objects Machine.objects Machine.drivers
               Machine.validDrivers Machine.validLivreurs Machine.sent
               Machine.sendDM Machine.set_sent].
        rewrite resolve_app, R1, R2, R3. now rewrite <- !app_assoc.
Qed.

End SerialTick.

Section SerialHandlers.
Context {M : MathObject}.

Lemma acceptNext_settles self ref senderDid reqId others : forall m r,
  store_wf m -> Machine.objects m !! ref = Some r ->
  settles self (Machine.park (Machine.acceptNext ref senderDid reqId others m))
    (State.mk (Machine.drivers m) (Machine.stored m)
       (Machine.validDrivers m) (Machine.validLivreurs m)
       (Machine.sent m
        ++ List.map (fun d => (d, ORDER_TAKEN_BY_OTHER reqId)) others
        ++ [(senderDid,
             ORDER_CONFIRMED reqId (ActiveRequest.customerDid r)
               (ActiveRequest.data r))])%list).
Proof.
  induction others as [|o rest IH]; intros m r Hwf Hobj.
  - unfold Machine.acceptNext. rewrite Hobj.
    apply settles_done; [reflexivity | reflexivity | now apply (store_wf_same m)].
  - apply (settles_resume self _ (Machine.AcceptOthers ref senderDid reqId rest));
      [reflexivity|].
    cbn [Machine.acceptNext Machine.resume].
    eapply settles_eq.
    + apply (IH (Machine.park
                   (Machine.sendDM o (ORDER_TAKEN_BY_OTHER reqId) m,
                    Some (Machine.AcceptOthers ref senderDid reqId rest))) r).
      * now apply (store_wf_same m).
      * exact Hobj.
    + unfold Machine.stored. simpl. now rewrite <- !app_assoc.
Qed.

Lemma view_availability now senderDid payload m :
  Machine.view (Machine.handleDriverAvailability now senderDid payload m)
  = handleDriverAvailability now senderDid payload (Machine.view m).
Proof.
  unfold Machine.handleDriverAvailability, handleDriverAvailability. simpl.
  destruct (Set_has (Machine.validDrivers m) senderDid); [reflexivity|].
  now destruct (Set_has (Machine.validLivreurs m) senderDid).
Qed.

Lemma store_wf_availability now senderDid payload m :
  store_wf m -> store_wf (Machine.handleDriverAvailability now senderDid payload m).
Proof.
  apply store_wf_same.
  - unfold Machine.handleDriverAvailability.
    destruct (Set_has (Machine.validDrivers m) senderDid); [reflexivity|].
    now destruct (Set_has (Machine.validLivreurs m) senderDid).
  - apply handleDriverAvailability_objects.
Qed.

Lemma store_wf_alloc m k x :
  ActiveRequest.id x = k ->
  store_wf m ->
  store_wf
    (Machine.set_activeRequests
       (JSMap.set (Machine.activeRequests m) k (length (Machine.objects m)))
       (Machine.set_objects (Machine.objects m ++ [x])%list m)).
Proof.
  intros Hid [Hk Hr Hst]. constructor; simpl.
  - now apply NoDup_keys_set.
  - apply NoDup_values_set; [assumption|]. intros Hin.
    apply in_map_iff in Hin. destruct Hin as (e & He & Hin).
    destruct (proj1 (List.Forall_forall _ _) Hst _ Hin) as (r & Hr' & _).
    apply lookup_lt_Some in Hr'. lia.
  - apply Forall_set.
    + eapply List.Forall_impl; [|exact Hst]. intros e (r & Hr' & Hid').
      exists r. split; [now apply lookup_app_l_Some | assumption].
    + simpl. exists x. split; [apply list_lookup_middle; reflexivity | assumption].
Qed.

Lemma view_request now senderDid payload m :
  store_wf m ->
  Machine.view (Machine.handleRequest now senderDid payload m)
  = handleRequest now senderDid payload (Machine.view m)
  /\ store_wf (Machine.handleRequest now senderDid payload m).
Proof.
  intros Hwf. unfold Machine.handleRequest, handleRequest. simpl.
  destruct (reqLat payload) as [lat|]; [|now split].
  destruct (reqLon payload) as [lon|]; [|now split].
  destruct (negb (Number.truthy lat) || negb (Number.truthy lon)); [now split|].
  destruct (computeCandidates (Machine.drivers m) (reqType payload) lat lon)
    as [|c cs].
  - split; [reflexivity | now apply (store_wf_same m)].
  - split; [|now apply store_wf_alloc].
    unfold Machine.view, Machine.stored. simpl.
    rewrite resolve_set_alloc; [reflexivity | apply Hwf].
Qed.

Lemma handleAccept_settles self senderDid payload m :
  store_wf m ->
  settles self (Machine.park (Machine.handleAccept senderDid payload m))
    (handleAccept senderDid payload (Machine.view m)).
Proof.
  intros Hwf. pose proof Hwf as [Hk Hr Hst].
  unfold Machine.handleAccept, handleAccept. simpl.
  unfold Machine.stored. rewrite (get_resolve _ _ _ Hst).
  destruct (JSMap.get (Machine.activeRequests m) (Payload.orderId payload))
    as [ref|] eqn:Eget.
  2:{ apply settles_done; [reflexivity | reflexivity | now apply (store_wf_same m)]. }
  destruct (Machine.objects m !! ref) as [req|] eqn:Eobj.
  2:{ apply settles_done; [reflexivity | reflexivity | now apply (store_wf_same m)]. }
  destruct (negb (RequestStatus_eqb (ActiveRequest.status req) PENDING)).
  { apply settles_done; [reflexivity | reflexivity | now apply (store_wf_same m)]. }
  apply (settles_resume self _
           (Machine.AcceptAssigned ref senderDid (Payload.orderId payload)));
    [reflexivity|].
  cbn [Machine.resume]. unfold Machine.acceptResume.
  assert (Hobj' :
    Machine.objects
      (Machine.park
         (Machine.sendDM (ActiveRequest.customerDid req)
            (ORDER_ASSIGNED (Payload.orderId payload) senderDid
               match JSMap.get (Machine.drivers m) senderDid with
               | Some d => DriverState.location d
               | None => None
               end)
            (Machine.write ref (ActiveRequest.set_status ASSIGNED) m),
          Some (Machine.AcceptAssigned ref senderDid (Payload.orderId payload))))
      !! ref = Some (ActiveRequest.set_status ASSIGNED req)).
  { simpl. rewrite list_lookup_alter. destruct (decide (ref = ref)); [|congruence].
    now rewrite Eobj. }
  cbn [Machine.drivers Machine.write Machine.set_objects] in Hobj' |- *.
  rewrite Hobj'.
  eapply settles_eq.
  - apply (acceptNext_settles self ref senderDid (Payload.orderId payload) _ _
             (ActiveRequest.set_status ASSIGNED req)); [|exact Hobj'].
    apply (store_wf_same (Machine.write ref (ActiveRequest.set_status ASSIGNED) m));
      [reflexivity | reflexivity|].
    now apply store_wf_write.
  - rewrite (sent_fold_sendDM (fun _ => ORDER_TAKEN_BY_OTHER (Payload.orderId payload))).
    unfold sendDM, State.set_sent, State.set_activeRequests, Machine.stored. simpl.
    rewrite (resolve_set_alter _ _ _ _ _ _ Hr Eget Eobj).
    now rewrite <- !app_assoc.
Qed.

Lemma refresh_settles self getLists driversItems livreursItems m :
  store_wf m ->
  settles self
    (Machine.park (m, Some (Machine.RefreshLists getLists driversItems livreursItems)))
    (refreshDriverLists getLists driversItems livreursItems (Machine.view m)).
Proof.
  intros Hwf.
  assert (Hdone : forall m' st, Machine.view m' = st -> store_wf m' ->
                    settles self (Machine.park (m', None)) st).
  { intros m' st Hv Hw. apply settles_done; [reflexivity | exact Hv|].
    now apply (store_wf_same m'). }
  assert (Hliv : forall m' ll,
            store_wf m' ->
            settles self
              (Machine.park (Machine.refreshLivreurs ll livreursItems m'))
              (match ll with
               | Some l =>
                   match livreursItems (ListView.uri l) with
                   | Some items => set_validLivreurs (list_to_set items) (Machine.view m')
                   | None => Machine.view m'
                   end
               | None => Machine.view m'
               end)).
  { intros m' [l|] Hw; [|now apply Hdone].
    apply (settles_resume self _ (Machine.RefreshLivreurs (livreursItems (ListView.uri l))));
      [reflexivity|].
    simpl. destruct (livreursItems (ListView.uri l)) as [items|];
      apply Hdone; try reflexivity; now apply (store_wf_same m'). }
  apply (settles_resume self _ (Machine.RefreshLists getLists driversItems livreursItems));
    [reflexivity|].
  cbn [Machine.resume]. unfold Machine.refreshResume, refreshDriverLists.
  destruct getLists as [[success lists]|];
    [|apply Hdone; [reflexivity | now apply (store_wf_same m)]].
  destruct success; simpl;
    [|apply Hdone; [reflexivity | now apply (store_wf_same m)]].
  destruct (find driversTag lists) as [dl|].
  - apply (settles_resume self _
             (Machine.RefreshDrivers (driversItems (ListView.uri dl))
                (find livreursTag lists) livreursItems)); [reflexivity|].
    cbn [Machine.resume Machine.park fst snd].
    destruct (driversItems (ListView.uri dl)) as [items|].
    + eapply settles_eq; [apply Hliv; now apply (store_wf_same m)|].
      now destruct (find livreursTag lists) as [ll|].
    + apply Hdone; [reflexivity | now apply (store_wf_same m)].
  - eapply settles_eq; [apply Hliv; now apply (store_wf_same m)|].
    now destruct (find livreursTag lists) as [ll|].
Qed.

(** Every handler, started with nothing parked and resumed until it is
    through, leaves the state the handler of the first part computes. *)
Lemma start_settles self e m :
  store_wf m -> Machine.waiting m = [] ->
  settles self (Machine.step self (Machine.Start e) m) (fire self e (Machine.view m)).
Proof.
  intros Hwf Hw. rewrite (start_park self e m Hw).
  destruct e as [now sender text|now|getLists driversItems livreursItems]; simpl.
  - unfold Machine.checkMessage, checkMessage.
    assert (Hdone : forall m' st, Machine.view m' = st -> store_wf m' ->
                      settles self (Machine.park (m', None)) st).
    { intros m' st Hv Hw'. apply settles_done; [reflexivity | exact Hv|].
      now apply (store_wf_same m'). }
    destruct (String.eqb sender self); [now apply Hdone|].
    destruct text as [payload|]; [|now apply Hdone].
    destruct (String.eqb (Payload.type payload) "DRIVER_AVAILABILITY").
    { apply Hdone; [apply view_availability | now apply store_wf_availability]. }
    destruct (String.eqb (Payload.type payload) "RIDE_REQUEST"
              || String.eqb (Payload.type payload) "DELIVERY_REQUEST").
    { destruct (view_request now sender payload m Hwf) as [Hv Hw'].
      now apply Hdone. }
    destruct (String.eqb (Payload.type payload) "RIDE_ACCEPTED"
              || String.eqb (Payload.type payload) "DELIVERY_ACCEPTED").
    { now apply handleAccept_settles. }
    now apply Hdone.
  - eapply settles_eq; [apply (tickLoop_settles self now _ [] m); [reflexivity | assumption]|].
    unfold processRequests. simpl. unfold Machine.stored.
    now destruct (processEntries now (Machine.drivers m)
                    (Machine.resolve (Machine.objects m) (Machine.activeRequests m))).
  - now apply refresh_settles.
Qed.

Lemma settle_more self fuel fuel' m :
  (fuel <= fuel')%nat ->
  Machine.waiting (Machine.settle self fuel m) = [] ->
  Machine.settle self fuel' m = Machine.settle self fuel m.
Proof.
  revert fuel' m. induction fuel as [|fuel IH]; intros fuel' m Hle Hw.
  - simpl in *. now apply settle_done.
  - destruct fuel' as [|fuel']; [lia|]. simpl in *.
    destruct (Machine.waiting m); [reflexivity|]. apply IH; [lia | assumption].
Qed.

Lemma serial_run self events : forall m,
  store_wf m -> Machine.waiting m = [] ->
  exists n, forall fuel, (n <= fuel)%nat ->
    Machine.waiting (Machine.serial self fuel events m) = []
    /\ Machine.view (Machine.serial self fuel events m) = run self events (Machine.view m)
    /\ store_wf (Machine.serial self fuel events m).
Proof.
  induction events as [|e events IH]; intros m Hwf Hw.
  - exists 0%nat. intros fuel _. split; [assumption | split; [reflexivity | assumption]].
  - destruct (start_settles self e m Hwf Hw) as (n1 & H1).
    destruct (H1 n1 (le_n _)) as (Hw1 & Hv1 & Hwf1).
    destruct (IH _ Hwf1 Hw1) as (n2 & H2).
    exists (Nat.max n1 n2). intros fuel Hle.
    unfold Machine.serial. cbn [fold_left].
    rewrite (settle_more self n1 fuel) by (assumption || lia).
    fold (Machine.serial self fuel events
            (Machine.settle self n1 (Machine.step self (Machine.Start e) m))).
    unfold run. cbn [fold_left]. rewrite <- Hv1. apply H2. lia.
Qed.

End SerialHandlers.

(** ** An ASSIGNED request and the ticks *)

Lemma tickLoop_activeRequests now entries pos m :
  Machine.activeRequests (fst (Machine.tickLoop now pos entries m))
  = Machine.activeRequests m.
Proof.
  apply (tickLoop_rule (fun m' => Machine.activeRequests m' = Machine.activeRequests m)
           (fun _ _ => True) now); auto.
Qed.

Lemma resume_activeRequests task m :
  Machine.activeRequests (fst (Machine.resume task m)) = Machine.activeRequests m.
Proof.
  destruct task as [now pos ref did|ref s id|ref s id others|g d l|[items|] ll l|[items|]];
    simpl; try reflexivity.
  - unfold Machine.tickResume. now rewrite tickLoop_activeRequests.
  - unfold Machine.acceptResume. destruct (Machine.objects m !! ref); [|reflexivity].
    unfold Machine.acceptNext. destruct (List.filter _ _); [|reflexivity].
    now destruct (Machine.objects m !! ref).
  - unfold Machine.acceptNext. destruct others; [|reflexivity].
    now destruct (Machine.objects m !! ref).
  - now rewrite refreshResume_fst.
  - now rewrite refreshLivreurs_fst.
Qed.

Lemma tickLoop_assigned now entries pos m ref r :
  Machine.objects m !! ref = Some r -> ActiveRequest.status r = ASSIGNED ->
  Machine.objects (fst (Machine.tickLoop now pos entries m)) !! ref = Some r
  /\ forall task, snd (Machine.tickLoop now pos entries m) = Some task ->
                  parked_elsewhere ref task.
Proof.
  intros Hr Hs.
  apply (tickLoop_rule (fun m' => Machine.objects m' !! ref = Some r)
           (fun _ task => parked_elsewhere ref task) now); [| |assumption].
  - intros m' ref1 req HP Hreq Hst _. rewrite lookup_write.
    destruct (decide (ref1 = ref)) as [->|Hne]; [|assumption]. congruence.
  - intros m' pos' ref1 req candidate HP Hreq Hst _ _. split; [assumption|].
    simpl. intros ->. congruence.
Qed.

Lemma resume_assigned task m ref r :
  Machine.objects m !! ref = Some r -> ActiveRequest.status r = ASSIGNED ->
  parked_elsewhere ref task ->
  Machine.objects (fst (Machine.resume task m)) !! ref = Some r
  /\ forall task', snd (Machine.resume task m) = Some task' -> parked_elsewhere ref task'.
Proof.
  intros Hr Hs Htask.
  destruct task as [now pos ref1 did|ref1 s id|ref1 s id others|g d l|[items|] ll l|[items|]];
    simpl.
  - unfold Machine.tickResume. apply tickLoop_assigned; [|assumption].
    rewrite lookup_write. simpl in Htask. now destruct (decide (ref1 = ref)).
  - rewrite acceptResume_objects. split; [assumption|].
    intros task' H. unfold Machine.acceptResume in H.
    destruct (Machine.objects m !! ref1); [|discriminate H].
    unfold Machine.acceptNext in H.
    destruct (List.filter _ _); [destruct (Machine.objects m !! ref1); discriminate H|].
    injection H as <-. exact I.
  - rewrite acceptNext_objects. split; [assumption|].
    intros task' H. unfold Machine.acceptNext in H.
    destruct others; [destruct (Machine.objects m !! ref1); discriminate H|].
    injection H as <-. exact I.
  - rewrite refreshResume_fst. split; [assumption|].
    intros task' H. unfold Machine.refreshResume in H.
    destruct g as [[[] lists]|]; try discriminate H. simpl in H.
    destruct (find driversTag lists); [injection H as <-; exact I|].
    destruct (find livreursTag lists); [injection H as <-; exact I | discriminate H].
  - rewrite refreshLivreurs_fst. split; [assumption|].
    intros task' H. destruct ll; [injection H as <-; exact I | discriminate H].
  - split; [assumption | discriminate].
  - split; [assumption | discriminate].
  - split; [assumption | discriminate].
Qed.

Lemma handleAccept_assigned senderDid payload m ref r :
  Machine.objects m !! ref = Some r -> ActiveRequest.status r = ASSIGNED ->
  Machine.objects (fst (Machine.handleAccept senderDid payload m)) !! ref = Some r
  /\ forall task, snd (Machine.handleAccept senderDid payload m) = Some task ->
                  parked_elsewhere ref task.
Proof.
  intros Hr Hs. unfold Machine.handleAccept.
  destruct (JSMap.get (Machine.activeRequests m) (Payload.orderId payload)) as [ref1|];
    [|split; [assumption | discriminate]].
  destruct (Machine.objects m !! ref1) as [req|] eqn:E;
    [|split; [assumption | discriminate]].
  destruct (ActiveRequest.status req) eqn:Es; simpl;
    [|split; [assumption | discriminate]].
  split; [|intros task H; injection H as <-; exact I].
  rewrite list_lookup_alter. destruct (decide (ref1 = ref)) as [->|Hne]; [|assumption].
  congruence.
Qed.

Lemma handleAccept_activeRequests senderDid payload m :
  Machine.activeRequests (fst (Machine.handleAccept senderDid payload m))
  = Machine.activeRequests m.
Proof.
  unfold Machine.handleAccept.
  destruct (JSMap.get (Machine.activeRequests m) (Payload.orderId payload)) as [ref|];
    [|reflexivity].
  destruct (Machine.objects m !! ref) as [req|]; [|reflexivity].
  now destruct (negb (RequestStatus_eqb (ActiveRequest.status req) PENDING)).
Qed.

Section MachineAssigned.
Context {M : MathObject}.

(** The map under [id] after a handler has started, when the handler is not
    that of a request message for [id]. *)
Lemma start_activeRequests self e m id :
  not_request_for id e ->
  JSMap.get (Machine.activeRequests (fst (Machine.start self e m))) id
  = JSMap.get (Machine.activeRequests m) id.
Proof.
  intros Hnot.
  destruct e as [now sender text|now|getLists driversItems livreursItems]; simpl;
    [|now rewrite tickLoop_activeRequests|reflexivity].
  unfold Machine.checkMessage.
  destruct (String.eqb sender self); [reflexivity|].
  destruct text as [payload|]; [|reflexivity].
  destruct (String.eqb (Payload.type payload) "DRIVER_AVAILABILITY").
  { simpl. unfold Machine.handleDriverAvailability.
    destruct (Set_has (Machine.validDrivers m) sender); [reflexivity|].
    now destruct (Set_has (Machine.validLivreurs m) sender). }
  destruct (String.eqb (Payload.type payload) "RIDE_REQUEST"
            || String.eqb (Payload.type payload) "DELIVERY_REQUEST") eqn:Ereq.
  { simpl.
    destruct (handleRequest_objects now sender payload m)
      as [E|(lat & lon & _ & _ & _ & E)].
    - unfold Machine.handleRequest in *.
      destruct (reqLat payload) as [lat|]; [|reflexivity].
      destruct (reqLon payload) as [lon|]; [|reflexivity].
      destruct (negb (Number.truthy lat) || negb (Number.truthy lon)); [reflexivity|].
      destruct (computeCandidates (Machine.drivers m) (reqType payload) lat lon);
        [reflexivity|].
      exfalso. simpl in E. apply (f_equal (@length _)) in E.
      rewrite length_app in E. simpl in E. lia.
    - rewrite E. simpl. apply get_set_ne. intros Heq.
      simpl in Hnot. specialize (Hnot Heq). unfold is_request in Hnot. congruence. }
  destruct (String.eqb (Payload.type payload) "RIDE_ACCEPTED"
            || String.eqb (Payload.type payload) "DELIVERY_ACCEPTED").
  { now rewrite handleAccept_activeRequests. }
  reflexivity.
Qed.

Lemma start_assigned self e m ref r :
  Machine.objects m !! ref = Some r -> ActiveRequest.status r = ASSIGNED ->
  Machine.objects (fst (Machine.start self e m)) !! ref = Some r
  /\ forall task, snd (Machine.start self e m) = Some task -> parked_elsewhere ref task.
Proof.
  intros Hr Hs.
  destruct e as [now sender text|now|getLists driversItems livreursItems]; simpl;
    [|now apply tickLoop_assigned
     |split; [assumption | intros task H; injection H as <-; exact I]].
  unfold Machine.checkMessage.
  destruct (String.eqb sender self); [split; [assumption | discriminate]|].
  destruct text as [payload|]; [|split; [assumption | discriminate]].
  destruct (String.eqb (Payload.type payload) "DRIVER_AVAILABILITY").
  { split; [|discriminate]. simpl. now rewrite handleDriverAvailability_objects. }
  destruct (String.eqb (Payload.type payload) "RIDE_REQUEST"
            || String.eqb (Payload.type payload) "DELIVERY_REQUEST").
  { split; [|discriminate]. simpl.
    destruct (handleRequest_objects now sender payload m)
      as [E|(lat & lon & _ & _ & _ & E)]; rewrite E; [assumption|].
    simpl. now apply lookup_app_l_Some. }
  destruct (String.eqb (Payload.type payload) "RIDE_ACCEPTED"
            || String.eqb (Payload.type payload) "DELIVERY_ACCEPTED").
  { now apply handleAccept_assigned. }
  split; [assumption | discriminate].
Qed.

Lemma step_activeRequests self a m id :
  no_request_for id a ->
  JSMap.get (Machine.activeRequests (Machine.step self a m)) id
  = JSMap.get (Machine.activeRequests m) id.
Proof.
  intros Hnot. destruct a as [e|i]; simpl.
  - now apply start_activeRequests.
  - destruct (Machine.waiting m !! i) as [task|]; [|reflexivity].
    simpl. now rewrite resume_activeRequests.
Qed.

Lemma step_assigned self a m ref r :
  Machine.objects m !! ref = Some r -> ActiveRequest.status r = ASSIGNED ->
  no_offer_parked ref m ->
  Machine.objects (Machine.step self a m) !! ref = Some r
  /\ no_offer_parked ref (Machine.step self a m).
Proof.
  intros Hr Hs Hno. unfold no_offer_parked in *.
  rewrite step_objects, step_waiting. destruct a as [e|i].
  - destruct (start_assigned self e m ref r Hr Hs) as [H1 H2]. split; [assumption|].
    destruct (snd (Machine.start self e m)) as [task|]; [|assumption].
    apply Forall_app. split; [assumption|]. constructor; [now apply H2 | constructor].
  - destruct (Machine.waiting m !! i) as [task|] eqn:Ei; [|now split].
    assert (Htask : parked_elsewhere ref task).
    { apply (proj1 (List.Forall_forall _ _) Hno). apply list_elem_of_In.
      now apply list_elem_of_lookup_2 in Ei. }
    destruct (resume_assigned task m ref r Hr Hs Htask) as [H1 H2]. split; [assumption|].
    destruct (snd (Machine.resume task m)) as [task'|].
    + apply Forall_insert; [assumption | now apply H2].
    + now apply Forall_delete.
Qed.

Lemma exec_activeRequests self actions m id :
  Forall (no_request_for id) actions ->
  JSMap.get (Machine.activeRequests (Machine.exec self actions m)) id
  = JSMap.get (Machine.activeRequests m) id.
Proof.
  intros H. revert m. induction H as [|a actions Ha _ IH]; intros m; [reflexivity|].
  simpl. rewrite IH. now apply step_activeRequests.
Qed.

Lemma exec_assigned self actions m ref r :
  Machine.objects m !! ref = Some r -> ActiveRequest.status r = ASSIGNED ->
  no_offer_parked ref m ->
  Machine.objects (Machine.exec self actions m) !! ref = Some r
  /\ no_offer_parked ref (Machine.exec self actions m).
Proof.
  revert m. induction actions as [|a actions IH]; intros m Hr Hs Hno; [now split|].
  simpl. destruct (step_assigned self a m ref r Hr Hs Hno) as [H1 H2]. now apply IH.
Qed.

(** ** An accept, resumed to its end *)




End MachineAssigned.

(** ** The invariants of a request, step by step *)

Section RequestInvariants.
Context {M : MathObject}.





End RequestInvariants.


(** ** Reachable states of the machine *)

Section MachineReachableFacts.
Context {M : MathObject}.

(** X1: Whatever the timers bring and however the handlers interleave at their
    awaits, from start-up on: every record of the registry is stored under its
    own did, and no did twice; every id of the map refers to a request object,
    and no id twice; and every stored request is stored under its own id,
    which is also the order id of its payload, has at least one candidate and
    no worker twice among its candidates. *)
Theorem reachable_state_is_keyed_consistently self actions :
  let m := Machine.exec self actions Machine.initial in
  registry_ok (Machine.drivers m)
  /\ NoDup (JSMap.keys (Machine.activeRequests m))
  /\ JSMap.keys (Machine.stored m) = JSMap.keys (Machine.activeRequests m)
  /\ Forall (fun e =>
       ActiveRequest.id (snd e) = fst e
       /\ Payload.orderId (ActiveRequest.data (snd e)) = fst e
       /\ ActiveRequest.candidates (snd e) <> []
       /\ NoDup (List.map Candidate.did (ActiveRequest.candidates (snd e))))
     (Machine.stored m).
Proof.
  intros m.
  destruct (exec_ok self actions Machine.initial initial_ok) as [H1 H2 H3 _].
  fold m in H1, H2, H3.
  destruct (stored_wf m H2) as [Hkeys Hall].
  split; [assumption|]. split; [apply H2|]. split; [assumption|].
  eapply List.Forall_impl; [|exact Hall].
  intros e (ref & _ & Hobj & Hid).
  assert (Hok : object_ok (Machine.sent m) (snd e)).
  { apply (proj1 (List.Forall_forall _ _) H3). apply list_elem_of_In.
    now apply list_elem_of_lookup_2 in Hobj. }
  destruct Hok as [O1 O2 O3 _ _ _ _]. split; [assumption|]. split; [congruence|].
  now split.
Qed.

Lemma run_notified_NoDup self events :
  Forall (fun e => NoDup (ActiveRequest.notifiedDrivers (snd e)))
    (State.activeRequests (run self events initial)).
Proof.
  destruct (run_state_ok self events initial initial_state_ok) as (_ & _ & Hall).
  eapply List.Forall_impl; [|exact Hall].
  intros e [_ _ _ H4 _ H6 _ _].
  eapply sublist_NoDup; [|exact H6]. eapply sublist_NoDup; [exact H4|].
  apply sublist_List_map.
  rewrite <- (firstn_skipn (ActiveRequest.nextCandidateIndex (snd e))
                (ActiveRequest.candidates (snd e))) at 2.
  apply sublist_inserts_r. reflexivity.
Qed.

(** X2: However the handlers interleave, in every state the bot reaches the
    notified drivers of a request object are among its candidates before the
    cursor, they are at most as many as the cursor counts, and each of them
    was sent the offer of the request.  They need not be distinct: a tick
    that starts while another waits in [sendDM] offers the request to the
    same candidate again.  When the handlers run one after the other, each to
    its end, no driver is notified of a stored request twice. *)
Theorem notified_drivers_are_candidates_before_the_cursor self :
  (forall actions,
     let m := Machine.exec self actions Machine.initial in
     Forall (fun r =>
          notified_were_offered r
          /\ (length (ActiveRequest.notifiedDrivers r)
              <= ActiveRequest.nextCandidateIndex r)%nat
          /\ forall d, In d (ActiveRequest.notifiedDrivers r) ->
                       In (d, offer_of r) (Machine.sent m))
       (Machine.objects m))
  /\ (forall events,
        exists n, forall fuel, (n <= fuel)%nat ->
          Forall (fun e => NoDup (ActiveRequest.notifiedDrivers (snd e)))
            (Machine.stored (Machine.serial self fuel events Machine.initial))).
Proof.
  split.
  - intros actions m.
    destruct (exec_ok self actions Machine.initial initial_ok) as [_ _ H3 _].
    eapply List.Forall_impl; [|exact H3].
    intros r [_ _ _ O4 O5 O6 _]. auto.
  - intros events.
    destruct (serial_run self events Machine.initial) as (n & H);
      [apply initial_ok | reflexivity|].
    exists n. intros fuel Hle. destruct (H fuel Hle) as (_ & Hv & _).
    change (Machine.stored (Machine.serial self fuel events Machine.initial))
      with (State.activeRequests
              (Machine.view (Machine.serial self fuel events Machine.initial))).
    rewrite Hv. apply run_notified_NoDup.
Qed.

(** X29: The handlers run one after the other, each started when nothing is
    parked and resumed until it is through, take the machine through the
    states of [run]: resumed often enough, nothing stays parked, and the
    state is the one the handlers of the first part compute in one step
    each. *)
Theorem serial_handlers_are_the_atomic_run self events :
  exists n, forall fuel, (n <= fuel)%nat ->
    Machine.waiting (Machine.serial self fuel events Machine.initial) = []
    /\ Machine.view (Machine.serial self fuel events Machine.initial)
       = run self events initial.
Proof.
  destruct (serial_run self events Machine.initial) as (n & H);
    [apply initial_ok | reflexivity|].
  exists n. intros fuel Hle. destruct (H fuel Hle) as (Hw & Hv & _). now split.
Qed.

(** X10: ASSIGNED is final unless the order is requested again.  Over any
    sequence of steps, handlers started and parked ones resumed in any order,
    none of which starts the handling of a request message for the order id,
    the map keeps the object under the id and the object stays ASSIGNED, with
    all that creation fixed; a tick that was parked for it when it was
    assigned may still move its cursor and add to its notified drivers.  When
    no tick is parked for the object, it stays exactly as it is, and no tick
    parks for it again: ticks pass it over, and further accepts change nothing
    of it. *)
Theorem assigned_is_final_without_rerequest self actions m id ref r :
  JSMap.get (Machine.activeRequests m) id = Some ref ->
  Machine.objects m !! ref = Some r ->
  ActiveRequest.status r = ASSIGNED ->
  Forall (no_request_for id) actions ->
  let m' := Machine.exec self actions m in
  JSMap.get (Machine.activeRequests m') id = Some ref
  /\ (exists r', Machine.objects m' !! ref = Some r' /\ advances r r'
                 /\ ActiveRequest.status r' = ASSIGNED)
  /\ (no_offer_parked ref m ->
      Machine.objects m' !! ref = Some r /\ no_offer_parked ref m').
Proof.
  intros Hget Hr Hs Hall m'. split; [|split].
  - unfold m'. now rewrite exec_activeRequests.
  - destruct (exec_advance self actions m ref r Hr) as (r' & Hr' & A).
    exists r'. split; [assumption|]. split; [assumption|]. now apply (adv_status _ _ A).
  - now apply exec_assigned.
Qed.


End MachineReachableFacts.

(** Two ticks overlap: the nearest driver is offered order-1 twice. *)
Example overlapping_ticks_offer_twice :
  Races.observe 0
    (Machine.exec (M := SoftMath.math) Scenarios.bot Races.two_ticks Races.queued)
  = Some (PENDING, 2%nat, ["w1"; "w1"], 32000, 2%nat)
  /\ Races.recipients
       (Machine.exec (M := SoftMath.math) Scenarios.bot Races.two_ticks Races.queued)
     = ["w1"; "w1"].
Proof. vm_compute. split; reflexivity. Qed.

(** An accept is handled while the tick that offers the ride waits in
    [sendDM]: the request is ASSIGNED at cursor 0, and the tick, resumed, moves
    the cursor and notes the driver all the same. *)
Example tick_resumed_after_accept :
  Races.observe 0
    (Machine.exec (M := SoftMath.math) Scenarios.bot (firstn 2 Races.accept_meanwhile)
       Races.queued)
  = Some (ASSIGNED, 0%nat, [], 0, 2%nat)
  /\ Races.observe 0
       (Machine.exec (M := SoftMath.math) Scenarios.bot Races.accept_meanwhile
          Races.queued)
     = Some (ASSIGNED, 1%nat, ["w1"], 31000, 2%nat).
Proof. vm_compute. split; reflexivity. Qed.

(** The handlers of a morning and of two ticks, one after the other, on the
    machine and in one step each. *)
Example serial_rush :
  State.activeRequests
    (Machine.view
       (Machine.serial (M := SoftMath.math) Scenarios.bot 5 Scenarios.rush
          Machine.initial))
  = State.activeRequests (run (M := SoftMath.math) Scenarios.bot Scenarios.rush initial)
  /\ State.sent
       (Machine.view
          (Machine.serial (M := SoftMath.math) Scenarios.bot 5 Scenarios.rush
             Machine.initial))
     = State.sent (run (M := SoftMath.math) Scenarios.bot Scenarios.rush initial).
Proof. vm_compute. split; reflexivity. Qed.

(** ** The theorems at work *)

Ltac split_Forall :=
  repeat lazymatch goal with
         | |- List.Forall _ (_ :: _) => apply List.Forall_cons
         | |- List.Forall _ [] => apply List.Forall_nil
         end.

Lemma record_changes_only_by_owner_witness :
  JSMap.get
    (State.drivers
       (run (M := SoftMath.math) Scenarios.bot Scenarios.others_at_work
          Examples.two_drivers)) "w1"
  = JSMap.get (State.drivers Examples.two_drivers) "w1".
Proof.
  apply (record_changes_only_by_owner (M := SoftMath.math) Scenarios.bot
           Scenarios.others_at_work Examples.two_drivers "w1").
  repeat constructor; discriminate.
Defined.

Lemma unlisted_worker_is_frozen_witness :
  option_map DriverState.status
    (JSMap.get
       (State.drivers
          (run (M := SoftMath.math) Scenarios.bot Scenarios.w1_signs_off
             Scenarios.w1_delisted)) "w1")
  = Some AVAILABLE.
Proof.
  rewrite (unlisted_worker_is_frozen (M := SoftMath.math) Scenarios.bot
             Scenarios.w1_signs_off Scenarios.w1_delisted "w1").
  - vm_compute. reflexivity.
  - apply Set_has_false. vm_compute. reflexivity.
  - apply Set_has_false. vm_compute. reflexivity.
  - repeat constructor.
Defined.


Lemma request_waits_until_due_witness :
  JSMap.get
    (State.activeRequests
       (run (M := SoftMath.math) Scenarios.bot Scenarios.inside_the_interval
          Examples.offered))
    "order-1"
  = JSMap.get (State.activeRequests Examples.offered) "order-1".
Proof.
  destruct (JSMap.get (State.activeRequests Examples.offered) "order-1")
    as [r|] eqn:E; [|vm_compute in E; discriminate E].
  apply (request_waits_until_due (M := SoftMath.math) Scenarios.bot
           Scenarios.inside_the_interval Examples.offered "order-1" r E).
  vm_compute in E. injection E as <-.
  unfold Scenarios.inside_the_interval. split_Forall.
  - vm_compute. reflexivity.
  - simpl. intros H. discriminate H.
  - simpl. intros H. discriminate H.
  - vm_compute. reflexivity.
Defined.

Lemma unavailable_candidates_are_passed_tick_by_tick_witness :
  option_map
    (fun r => (ActiveRequest.nextCandidateIndex r, ActiveRequest.notifiedDrivers r,
               ActiveRequest.lastNotificationTime r))
    (JSMap.get
       (State.activeRequests
          (run (M := SoftMath.math) Scenarios.bot
             (List.map DispatchTick [31000; 32000]) Examples.cascade))
       "order-3")
  = Some (2%nat, [], 0).
Proof.
  destruct (JSMap.get (State.activeRequests Examples.cascade) "order-3")
    as [r|] eqn:E; [|vm_compute in E; discriminate E].
  rewrite (unavailable_candidates_are_passed_tick_by_tick (M := SoftMath.math)
             Scenarios.bot [31000; 32000] Examples.cascade "order-3" r E).
  - vm_compute in E. injection E as <-. reflexivity.
  - vm_compute in E. injection E as <-. reflexivity.
  - vm_compute in E. injection E as <-.
    split_Forall; vm_compute; discriminate.
  - vm_compute in E. injection E as <-. intros i Hi. simpl in Hi.
    assert (Hi' : i = 0%nat \/ i = 1%nat) by lia.
    destruct Hi' as [-> | ->]; eexists; (split; [reflexivity|]);
      intros d Hd; vm_compute in Hd; injection Hd as <-; discriminate.
Defined.


Lemma accept_by_outsider_witness :
  State.sent (handleAccept "stranger" (Examples.accepted "order-1") Examples.offered)
  = (State.sent Examples.offered ++
     [("cust", ORDER_ASSIGNED "order-1" "stranger" None);
      ("w1", ORDER_TAKEN_BY_OTHER "order-1");
      ("stranger",
       ORDER_CONFIRMED "order-1" "cust"
         (Examples.ride "order-1" (Some Examples.origin) None))])%list.
Proof.
  destruct (JSMap.get (State.activeRequests Examples.offered) "order-1")
    as [req|] eqn:E; [|vm_compute in E; discriminate E].
  assert (Hreq : ActiveRequest.status req = PENDING
                 /\ ActiveRequest.notifiedDrivers req = ["w1"]
                 /\ ActiveRequest.customerDid req = "cust"
                 /\ ActiveRequest.data req
                    = Examples.ride "order-1" (Some Examples.origin) None).
  { vm_compute in E. injection E as <-. repeat split. }
  destruct Hreq as (Hs & Hn & Hc & Hd).
  assert (Hout : ~ In "stranger" (ActiveRequest.notifiedDrivers req)).
  { rewrite Hn. simpl. intros [H|[]]. discriminate H. }
  assert (Hnone : JSMap.get (State.drivers Examples.offered) "stranger" = None)
    by (vm_compute; reflexivity).
  destruct (accept_by_outsider "stranger" (Examples.accepted "order-1")
              Examples.offered req E Hs Hout Hnone) as (_ & Hsent & _).
  rewrite Hsent, Hn, Hc, Hd. reflexivity.
Defined.

Lemma accept_kind_is_not_checked_witness :
  checkMessage (M := SoftMath.math) Scenarios.bot 40000 "w1"
    (Some (Examples.accepted "order-1")) Examples.offered
  = checkMessage (M := SoftMath.math) Scenarios.bot 50000 "w1"
      (Some (Scenarios.accepted_as_delivery "order-1")) Examples.offered.
Proof.
  apply (accept_kind_is_not_checked (M := SoftMath.math)); reflexivity.
Defined.

Lemma unhandled_messages_change_nothing_witness :
  checkMessage (M := SoftMath.math) Scenarios.bot 1000 "cust"
    (Some (Scenarios.misspelt "order-1")) Examples.two_drivers
  = Examples.two_drivers.
Proof.
  apply (unhandled_messages_change_nothing (M := SoftMath.math)).
  right. right. exists (Scenarios.misspelt "order-1").
  split; [reflexivity|]. simpl. intuition discriminate.
Defined.

(** A courier's first report: the record is stored, at the end of the
    registry; the report of a stranger changes nothing. *)
Lemma availability_touches_one_record_witness :
  JSMap.get
    (State.drivers
       (handleDriverAvailability 40 "l1"
          (Examples.availability UNAVAILABLE (Some Examples.far)) Examples.two_drivers))
    "l1"
  = Some (DriverState.mk UNAVAILABLE (Some Examples.far) 40 LIVREURS "l1")
  /\ JSMap.keys
       (State.drivers
          (handleDriverAvailability 40 "l1"
             (Examples.availability UNAVAILABLE (Some Examples.far)) Examples.two_drivers))
     = ["w1"; "w2"; "l1"]
  /\ handleDriverAvailability 10 "stranger"
       (Examples.availability AVAILABLE (Some Examples.near)) Examples.boot
     = Examples.boot.
Proof.
  assert (Hl1 : "l1" ∈ State.validDrivers Examples.two_drivers
                \/ "l1" ∈ State.validLivreurs Examples.two_drivers).
  { right. apply Set_has_true. vm_compute. reflexivity. }
  destruct (availability_touches_one_record 40 "l1"
              (Examples.availability UNAVAILABLE (Some Examples.far)) Examples.two_drivers)
    as (_ & Hrec & _ & _ & Hkeys & _).
  split; [|split].
  - rewrite (Hrec Hl1). vm_compute. reflexivity.
  - rewrite (Hkeys ltac:(vm_compute; reflexivity) Hl1). vm_compute. reflexivity.
  - apply (proj1 (availability_touches_one_record 10 "stranger"
                    (Examples.availability AVAILABLE (Some Examples.near)) Examples.boot));
      apply Set_has_false; vm_compute; reflexivity.
Defined.

Lemma nothing_is_stored_before_the_first_refresh_witness :
  State.drivers (run (M := SoftMath.math) Scenarios.bot Scenarios.too_early initial) = []
  /\ State.activeRequests
       (run (M := SoftMath.math) Scenarios.bot Scenarios.too_early initial) = []
  /\ Forall (fun m => exists orderId, snd m = NO_DRIVERS_AVAILABLE orderId)
       (State.sent (run (M := SoftMath.math) Scenarios.bot Scenarios.too_early initial)).
Proof.
  apply (nothing_is_stored_before_the_first_refresh (M := SoftMath.math) Scenarios.bot
           Scenarios.too_early).
  repeat constructor.
Defined.

Lemma failed_refresh_keeps_the_lists_witness :
  refreshDriverLists (Some (true, Scenarios.lists)) Scenarios.members
    Scenarios.unreachable Examples.boot
  = set_validDrivers (list_to_set ["w1"; "w2"; "w3"]) Examples.boot.
Proof.
  apply (proj2 (proj2 (proj2 (proj2 (proj2
           (failed_refresh_keeps_the_lists Scenarios.lists Scenarios.members
              Scenarios.unreachable Examples.boot)))))
           (ListView.mk "at://admin/list/taxis" (Some "Taxis [MODULE]=[DRIVERS]"))
           ["w1"; "w2"; "w3"]
           (ListView.mk "at://admin/list/couriers" (Some "[MODULE]=[LIVREURS] on bikes")));
    reflexivity.
Defined.

Lemma refresh_replaces_the_lists_witness :
  Set_has
    (State.validDrivers
       (refreshDriverLists (Some (true, Scenarios.lists)) Scenarios.members
          Scenarios.members Examples.boot)) "both"
  = false.
Proof.
  apply Set_has_false.
  rewrite (proj1 (refresh_replaces_the_lists Scenarios.lists Scenarios.members
                    Scenarios.members Examples.boot
                    (ListView.mk "at://admin/list/taxis" (Some "Taxis [MODULE]=[DRIVERS]"))
                    ["w1"; "w2"; "w3"]
                    (ListView.mk "at://admin/list/couriers"
                       (Some "[MODULE]=[LIVREURS] on bikes"))
                    ["l1"] eq_refl eq_refl eq_refl eq_refl) "both").
  simpl. intuition discriminate.
Defined.

Lemma origin_coordinates_fall_back_separately_witness :
  reqLat Scenarios.mixed = Some 33.5%float
  /\ reqLon Scenarios.mixed = Some (-7.5)%float.
Proof.
  destruct (origin_coordinates_fall_back_separately (M := SoftMath.math) 1000 "cust"
              Scenarios.mixed Examples.two_drivers Scenarios.on_the_equator
              Examples.origin eq_refl eq_refl eq_refl eq_refl eq_refl)
    as (Hlat & Hlon & _).
  split; [exact Hlat | exact Hlon].
Defined.

Lemma equidistant_candidates_keep_registry_order_witness :
  List.map Candidate.did
    (List.filter (at_distance Scenarios.to_that_place)
       (computeCandidates (M := SoftMath.math)
          (State.drivers Scenarios.two_at_one_place) DRIVERS 33.5%float (-7.625)%float))
  = ["w3"; "w1"].
Proof.
  rewrite (equidistant_candidates_keep_registry_order (M := SoftMath.math)
             (State.drivers Scenarios.two_at_one_place) DRIVERS 33.5%float
             (-7.625)%float Scenarios.to_that_place).
  - vm_compute. reflexivity.
  - vm_compute. repeat constructor.
Defined.



Lemma assigned_is_final_without_rerequest_witness :
  JSMap.get
    (Machine.activeRequests
       (Machine.exec (M := SoftMath.math) Scenarios.bot Races.afterwards Races.assigned))
    "order-1"
  = Some 0%nat
  /\ Machine.objects
       (Machine.exec (M := SoftMath.math) Scenarios.bot Races.afterwards Races.assigned)
     !! 0%nat
     = Machine.objects Races.assigned !! 0%nat.
Proof.
  destruct (Machine.objects Races.assigned !! 0%nat) as [r|] eqn:E;
    [|vm_compute in E; discriminate E].
  destruct (assigned_is_final_without_rerequest (M := SoftMath.math) Scenarios.bot
              Races.afterwards Races.assigned "order-1" 0%nat r) as (H1 & _ & H3).
  - vm_compute. reflexivity.
  - exact E.
  - vm_compute in E. injection E as <-. reflexivity.
  - repeat constructor; simpl; intros H; try reflexivity; discriminate H.
  - split; [exact H1|]. apply H3. unfold no_offer_parked.
    replace (Machine.waiting Races.assigned) with (@nil Machine.Task)
      by (vm_compute; reflexivity).
    constructor.
Defined.

